(** * AI image OCR plugin: the extraction pipeline, embedded and verified

    Shallow embedding of the TypeScript sources [src/main.ts],
    [src/utils/embed.ts], [src/utils/pdf.ts] (which also carries the image
    utilities and the shared types) and [src/settings-tab.ts].

    Strings are JavaScript strings: finite sequences of UTF-16 code units.
    Regular expressions are embedded as syntax trees and run by a
    backtracking matcher written in continuation-passing style, the way
    ECMAScript specifies pattern matching. *)

From Stdlib Require Import ZArith NArith QArith List String Ascii Lia Bool Arith.
From Stdlib Require Import DecimalString Sorting.Sorted Strings.Byte.
From stdpp Require Import gmap strings.
Import ListNotations.

Local Open Scope nat_scope.

(* ===================================================================== *)
(** * JavaScript strings and regular expressions                          *)
(* ===================================================================== *)

Module JS.

(** A string is a list of UTF-16 code units. *)
Abbreviation jsstr := (list N).

(** A source-text literal (all the literals of the sources are ASCII). *)
Definition lit (s : string) : jsstr :=
  List.map N_of_ascii (list_ascii_of_string s).

(** ECMAScript [WhiteSpace] and [LineTerminator] code points: the set that
    both [\s] and [String.prototype.trim] use. *)
Definition is_space (c : N) : bool :=
  ((9 <=? c) && (c <=? 13) || (c =? 32) || (c =? 160) || (c =? 5760)
   || (8192 <=? c) && (c <=? 8202) || (c =? 8232) || (c =? 8233)
   || (c =? 8239) || (c =? 8287) || (c =? 12288) || (c =? 65279))%N.

(** [LineTerminator]: what [.] does not match (no [s] flag). *)
Definition is_line_terminator (c : N) : bool :=
  ((c =? 10) || (c =? 13) || (c =? 8232) || (c =? 8233))%N.

Definition any_char (c : N) : bool := true.
Definition dot (c : N) : bool := negb (is_line_terminator c).
Definition not_char (x : N) (c : N) : bool := negb (c =? x)%N.

(** [Canonicalize] of a code unit for the [i] flag without the [u] flag:
    the upper-case mapping, which never maps a code unit of 128 or above to
    one below 128.  Every pattern character of the sources is ASCII, so only
    the ASCII part of the mapping is ever observed. *)
Definition canonicalize (c : N) : N :=
  if ((97 <=? c) && (c <=? 122))%N then (c - 32)%N else c.

Definition to_lower_cu (c : N) : N :=
  if ((65 <=? c) && (c <=? 90))%N then (c + 32)%N else c.

(** [String.prototype.toLowerCase], on the ASCII range. *)
Definition toLowerCase (s : jsstr) : jsstr := List.map to_lower_cu s.

Definition char_eq (ignore_case : bool) (pat c : N) : bool :=
  if ignore_case then (canonicalize pat =? canonicalize c)%N else (pat =? c)%N.

(** Regular expressions, as far as the sources use them: every starred
    sub-pattern is a single-character class. *)
Inductive regex : Type :=
| RChar (c : N)
| RClass (p : N -> bool)
| REps
| RSeq (r1 r2 : regex)
| RAlt (r1 r2 : regex)
| RStarG (p : N -> bool)      (* p*  : greedy *)
| RStarL (p : N -> bool)      (* p*? : lazy *)
| RGroup (i : nat) (r : regex) (* i-th capturing group *)
| RBegin                      (* ^ *)
| REnd.                       (* $ *)

(** The literal string [s] as a pattern. *)
Fixpoint rlit (s : jsstr) : regex :=
  match s with
  | [] => REps
  | c :: t => RSeq (RChar c) (rlit t)
  end.

Definition rstr (s : string) : regex := rlit (lit s).
Definition ropt (r : regex) : regex := RAlt r REps.            (* r?  *)
Definition rplusL (p : N -> bool) : regex := RSeq (RClass p) (RStarL p). (* p+? *)
Definition rplusG (p : N -> bool) : regex := RSeq (RClass p) (RStarG p). (* p+  *)

Definition rseq (rs : list regex) : regex := fold_right RSeq REps rs.

Fixpoint ralts (rs : list regex) (last : regex) : regex :=
  match rs with
  | [] => last
  | r :: t => RAlt r (ralts t last)
  end.

(** Matcher state: the end index, the input still to read, the captures. *)
Record mstate : Type := MState {
  m_pos : nat;
  m_rest : jsstr;
  m_caps : list (nat * jsstr)
}.

Definition advance (st : mstate) (n : nat) (rest : jsstr) : mstate :=
  MState (m_pos st + n) rest (m_caps st).

Section Matcher.
Context {A : Type}.
Variable ignore_case : bool.

(** Greedy star: take as many as possible, give back one at a time. *)
Fixpoint star_greedy (p : N -> bool) (st : mstate) (n : nat) (s : jsstr)
    (k : mstate -> option A) : option A :=
  match s with
  | c :: t =>
      if p c then
        match star_greedy p st (S n) t k with
        | Some a => Some a
        | None => k (advance st n s)
        end
      else k (advance st n s)
  | [] => k (advance st n s)
  end.

(** Lazy star: take as few as possible, take one more on failure. *)
Fixpoint star_lazy (p : N -> bool) (st : mstate) (n : nat) (s : jsstr)
    (k : mstate -> option A) : option A :=
  match k (advance st n s) with
  | Some a => Some a
  | None =>
      match s with
      | c :: t => if p c then star_lazy p st (S n) t k else None
      | [] => None
      end
  end.

Fixpoint rmatch (r : regex) (st : mstate) (k : mstate -> option A) : option A :=
  match r with
  | RChar c =>
      match m_rest st with
      | x :: t => if char_eq ignore_case c x then k (advance st 1 t) else None
      | [] => None
      end
  | RClass p =>
      match m_rest st with
      | x :: t => if p x then k (advance st 1 t) else None
      | [] => None
      end
  | REps => k st
  | RSeq r1 r2 => rmatch r1 st (fun st' => rmatch r2 st' k)
  | RAlt r1 r2 =>
      match rmatch r1 st k with
      | Some a => Some a
      | None => rmatch r2 st k
      end
  | RStarG p => star_greedy p st 0 (m_rest st) k
  | RStarL p => star_lazy p st 0 (m_rest st) k
  | RGroup i r =>
      rmatch r st (fun st' =>
        k (MState (m_pos st') (m_rest st')
             ((i, firstn (m_pos st' - m_pos st) (m_rest st)) :: m_caps st')))
  | RBegin => if Nat.eqb (m_pos st) 0 then k st else None
  | REnd => match m_rest st with [] => k st | _ :: _ => None end
  end.
End Matcher.

(** A successful match: start index, matched text [m[0]], captures, and
    the input after the match. *)
Record rmatch_result : Type := RMatch {
  r_index : nat;
  r_text : jsstr;
  r_caps : list (nat * jsstr);
  r_after : jsstr
}.

(** [m[i]]: the text of group [i], [undefined] when it did not take part. *)
Fixpoint group (i : nat) (caps : list (nat * jsstr)) : option jsstr :=
  match caps with
  | [] => None
  | (j, s) :: t => if Nat.eqb i j then Some s else group i t
  end.

(** [m[i]] for a group that takes part in every match of its pattern. *)
Definition cap (i : nat) (caps : list (nat * jsstr)) : jsstr :=
  match group i caps with Some s => s | None => [] end.

Definition match_at (ic : bool) (r : regex) (pos : nat) (s : jsstr)
  : option rmatch_result :=
  match rmatch ic r (MState pos s []) Some with
  | Some st => Some (RMatch pos (firstn (m_pos st - pos) s) (m_caps st) (m_rest st))
  | None => None
  end.

(** The leftmost match at or after the current index (RegExpBuiltinExec). *)
Fixpoint search_from (ic : bool) (r : regex) (pos : nat) (s : jsstr)
  : option rmatch_result :=
  match match_at ic r pos s with
  | Some m => Some m
  | None =>
      match s with
      | [] => None
      | _ :: t => search_from ic r (S pos) t
      end
  end.

(** [s.match(r)] without the [g] flag, and [r.test(s)]. *)
Definition search (ic : bool) (r : regex) (s : jsstr) : option rmatch_result :=
  search_from ic r 0 s.

Definition test (ic : bool) (r : regex) (s : jsstr) : bool :=
  match search ic r s with Some _ => true | None => false end.

(** [s.matchAll(r)] with the [g] flag: after a match the scan resumes at its
    end (one further after an empty match).  Each round consumes input, so
    [length s + 1] rounds always suffice. *)
Fixpoint matchAll_from (fuel : nat) (ic : bool) (r : regex) (pos : nat) (s : jsstr)
  : list rmatch_result :=
  match fuel with
  | O => []
  | S fuel' =>
      match search_from ic r pos s with
      | None => []
      | Some m =>
          let consumed := r_index m + List.length (r_text m) - pos in
          m :: match r_text m, r_after m with
               | [], [] => []
               | [], _ :: t => matchAll_from fuel' ic r (S (pos + consumed)) t
               | _ :: _, rest => matchAll_from fuel' ic r (pos + consumed) rest
               end
      end
  end.

Definition matchAll (ic : bool) (r : regex) (s : jsstr) : list rmatch_result :=
  matchAll_from (S (List.length s)) ic r 0 s.

(** [String.prototype.trim]. *)
Fixpoint trimStart (s : jsstr) : jsstr :=
  match s with
  | c :: t => if is_space c then trimStart t else s
  | [] => []
  end.

Definition trimEnd (s : jsstr) : jsstr := rev (trimStart (rev s)).
Definition trim (s : jsstr) : jsstr := trimEnd (trimStart s).

(** [s.split(sep)[0]] for a one-character separator: up to the first
    separator, the whole string when there is none. *)
Fixpoint split_first (sep : N) (s : jsstr) : jsstr :=
  match s with
  | [] => []
  | c :: t => if (c =? sep)%N then [] else c :: split_first sep t
  end.

(** [s.split(sep).pop()]: after the last separator, the whole string when
    there is none. *)
Fixpoint split_last (sep : N) (s : jsstr) : jsstr :=
  match s with
  | [] => []
  | c :: t =>
      if existsb (N.eqb sep) t then split_last sep t
      else if (c =? sep)%N then t else s
  end.

(** [s.replace(/[...]/g, "")]: delete every code unit of the class. *)
Definition remove_class (p : N -> bool) (s : jsstr) : jsstr :=
  List.filter (fun c => negb (p c)) s.

(** [a === b] on strings. *)
Fixpoint str_eqb (a b : jsstr) : bool :=
  match a, b with
  | [], [] => true
  | x :: a', y :: b' => (x =? y)%N && str_eqb a' b'
  | _, _ => false
  end.

(** [s.includes(c)] for one code unit. *)
Definition includes_cu (c : N) (s : jsstr) : bool := existsb (N.eqb c) s.

(** [s.startsWith(p)] and [s.includes(p)]. *)
Fixpoint startsWith (p s : jsstr) : bool :=
  match p, s with
  | [], _ => true
  | x :: p', y :: s' => (x =? y)%N && startsWith p' s'
  | _ :: _, [] => false
  end.

Fixpoint includes (p s : jsstr) : bool :=
  startsWith p s ||
  match s with
  | [] => false
  | _ :: t => includes p t
  end.

(** [s.replace(r, repl)] for a pattern without the [g] flag: the first match
    is replaced. *)
Definition replace_first (ic : bool) (r : regex) (repl s : jsstr) : jsstr :=
  match search ic r s with
  | Some m => firstn (r_index m) s ++ repl ++ r_after m
  | None => s
  end.

(** [a.join(sep)] *)
Fixpoint join (sep : jsstr) (l : list jsstr) : jsstr :=
  match l with
  | [] => []
  | [x] => x
  | x :: t => x ++ sep ++ join sep t
  end.

(** Decimal text of a number, for template strings. *)
Definition num_to_str (n : N) : jsstr := lit (NilZero.string_of_uint (N.to_uint n)).
Definition int_to_str (z : Z) : jsstr := lit (NilZero.string_of_int (Z.to_int z)).

(** [s.lastIndexOf(c)], with [None] for -1. *)
Fixpoint lastIndexOf_from (c : N) (i : nat) (s : jsstr) (acc : option nat) : option nat :=
  match s with
  | [] => acc
  | x :: t => lastIndexOf_from c (S i) t (if (x =? c)%N then Some i else acc)
  end.

Definition lastIndexOf (c : N) (s : jsstr) : option nat := lastIndexOf_from c 0 s None.

(** [s.slice(a, b)] and [s.slice(a)] for indices within the string. *)
Definition slice (a b : nat) (s : jsstr) : jsstr := firstn (b - a) (skipn a s).
Definition slice_from (a : nat) (s : jsstr) : jsstr := skipn a s.

(** [GetSubstitution] for a pattern without capture groups: in the
    replacement text [$$] is a dollar sign, [$&] the match, [$`] the text
    before the match and [$'] the text after it; any other [$] stands for
    itself. *)
Fixpoint substitute (repl matched before after : jsstr) : jsstr :=
  match repl with
  | [] => []
  | c :: t =>
      if (c =? 36)%N then
        match t with
        | d :: t' =>
            if (d =? 36)%N then 36%N :: substitute t' matched before after
            else if (d =? 38)%N then matched ++ substitute t' matched before after
            else if (d =? 96)%N then before ++ substitute t' matched before after
            else if (d =? 39)%N then after ++ substitute t' matched before after
            else c :: substitute t matched before after
        | [] => [c]
        end
      else c :: substitute t matched before after
  end.

(** The result of a replacement, built from the matches in order: the text
    between two matches is kept, every match gives way to its substitution.
    [cur] is the text of [s] from index [pos] on. *)
Fixpoint replace_matches (repl s : jsstr) (pos : nat) (cur : jsstr)
    (ms : list rmatch_result) : jsstr :=
  match ms with
  | [] => cur
  | m :: rest =>
      firstn (r_index m - pos) cur
      ++ substitute repl (r_text m) (firstn (r_index m) s) (r_after m)
      ++ replace_matches repl s (r_index m + List.length (r_text m)) (r_after m) rest
  end.

(** [s.replace(r, repl)] for a pattern with the [g] flag and without
    capture groups. *)
Definition replace_all (ic : bool) (r : regex) (repl s : jsstr) : jsstr :=
  replace_matches repl s 0 s (matchAll ic r s).

End JS.

(* ===================================================================== *)
(** * Effects: thrown values, the log sink and the observable trace       *)
(* ===================================================================== *)

Module Eff.
Import JS.

(** Values that the code throws. *)
Inductive exn : Type :=
| Error (msg : jsstr)
| TypeError (msg : jsstr)
| PDFEncryptedError (msg : jsstr)
| PDFCorruptedError (msg : jsstr)
| Thrown (v : jsstr).              (* a thrown value that is not an Error *)

(** [`${e}`]: the name and the message of an error. *)
Definition exn_to_string (e : exn) : jsstr :=
  match e with
  | Error m => lit "Error: " ++ m
  | TypeError m => lit "TypeError: " ++ m
  | PDFEncryptedError m => lit "PDFEncryptedError: " ++ m
  | PDFCorruptedError m => lit "PDFCorruptedError: " ++ m
  | Thrown v => v
  end.

(** [err.message] when [err instanceof Error]. *)
Definition exn_message (e : exn) : option jsstr :=
  match e with
  | Error m | TypeError m | PDFEncryptedError m | PDFCorruptedError m => Some m
  | Thrown _ => None
  end.

Inductive level : Type := LvError | LvWarn | LvNotice | LvInfo.

(** Extracted content handed to the formatter: [string | string[]], or
    [undefined] when an array is read past its end. *)
Inductive content : Type :=
| One (s : jsstr)
| Many (l : list jsstr)
| NoContent.

(** What an operation does to the outside, in order. *)
Inductive event : Type :=
| EvDebug (msg : jsstr)                          (* pluginLogger *)
| EvLog (msg : jsstr) (lv : level) (visible : bool) (* pluginLog *)
| EvNotice (msg : jsstr)                         (* new Notice / setMessage *)
| EvNoticeHide
| EvGetDocument (buffer : list Byte.byte)        (* pdfjsLib.getDocument *)
| EvProviderCall (base64 : jsstr)                (* extractTextFromBase64 *)
| EvReplaceSelection (text : jsstr)              (* editor.replaceSelection *)
| EvHandleExtracted (c : content) (with_editor : bool). (* handleExtractedContent *)

(** The result of running code: a value, or a thrown value. *)
Inductive outcome (A : Type) : Type :=
| Ret (a : A)
| Throw (e : exn).
Arguments Ret {A} a.
Arguments Throw {A} e.

(** A computation: the events it emitted and how it ended. *)
Definition M (A : Type) : Type := list event * outcome A.

Definition ret {A} (a : A) : M A := ([], Ret a).
Definition throw {A} (e : exn) : M A := ([], Throw e).
Definition emit (ev : event) : M unit := ([ev], Ret tt).
Definition lift {A} (o : outcome A) : M A := ([], o).

Definition bind {A B} (c : M A) (f : A -> M B) : M B :=
  match c with
  | (tr, Ret a) => let (tr', r) := f a in (tr ++ tr', r)
  | (tr, Throw e) => (tr, Throw e)
  end.

(** [try { c } catch (e) { h e }]. *)
Definition try_catch {A} (c : M A) (h : exn -> M A) : M A :=
  match c with
  | (tr, Ret a) => (tr, Ret a)
  | (tr, Throw e) => let (tr', r) := h e in (tr ++ tr', r)
  end.

Definition trace {A} (c : M A) : list event := fst c.
Definition result {A} (c : M A) : outcome A := snd c.

Declare Scope eff_scope.
Delimit Scope eff_scope with eff.
Notation "'let*' x ':=' c 'in' k" := (bind c (fun x => k))
  (at level 10, x pattern, c at level 100, k at level 200) : eff_scope.
Notation "'do' c 'in' k" := (bind c (fun _ => k))
  (at level 10, c at level 100, k at level 200) : eff_scope.

(** Modelled from the spec: the logging module [utils/log] is not among the
    sources; the spec describes it as a pure side-effecting sink
    [log(message, level, userVisible)].  It records the message and
    returns. *)
Definition pluginLog (msg : jsstr) (lv : level) (visible : bool) : M unit :=
  emit (EvLog msg lv visible).
Definition pluginLogger (msg : jsstr) : M unit := emit (EvDebug msg).

End Eff.

(* ===================================================================== *)
(** * src/utils/embed.ts                                                  *)
(* ===================================================================== *)

Module Embed.
Import JS.

(** The part of the host editor that the locator reads. *)
Record Editor : Type := {
  getSelection : jsstr;
  cursorLine : nat;             (* editor.getCursor().line *)
  getLine : nat -> jsstr
}.

Inductive embed_type : Type := Internal | External.

Record EmbedResult : Type := {
  link : jsstr;
  isExternal : bool;
  embedType : embed_type;
  embedText : jsstr
}.

(** [/\.(png|jpe?g|gif|webp|bmp|svg|pdf)$/i] *)
Definition imageExt : regex :=
  rseq [RChar 46;
        RGroup 1 (ralts [rstr "png"; rseq [rstr "jp"; ropt (rstr "e"); rstr "g"];
                         rstr "gif"; rstr "webp"; rstr "bmp"; rstr "svg"]
                        (rstr "pdf"));
        REnd].

Definition isImage (l : jsstr) : bool := test true imageExt l.

(** [/!\[\[(.+?)\]\]/] *)
Definition internalEmbed : regex :=
  rseq [rstr "![["; RGroup 1 (rplusL dot); rstr "]]"].

(** [/!\[.*?\]\((.+?)\)/] *)
Definition markdownEmbed : regex :=
  rseq [rstr "!["; RStarL dot; rstr "]("; RGroup 1 (rplusL dot); rstr ")"].

(** [/^https?:\/\//i] *)
Definition httpUrl : regex :=
  rseq [RBegin; rstr "http"; ropt (rstr "s"); rstr "://"].

Definition is_quote (c : N) : bool := ((c =? 34) || (c =? 39))%N.

(** The internal-embed check made on the selection and on every line. *)
Definition check_internal (text : jsstr) : option EmbedResult :=
  match search false internalEmbed text with
  | Some m =>
      let l := trim (split_first 124 (cap 1 (r_caps m))) in
      if isImage l then
        Some {| link := l; isExternal := false; embedType := Internal;
                embedText := r_text m |}
      else None
  | None => None
  end.

(** The markdown-embed check made on the selection and on every line. *)
Definition check_markdown (text : jsstr) : option EmbedResult :=
  match search false markdownEmbed text with
  | Some m =>
      let l := remove_class is_quote (split_first 32 (cap 1 (r_caps m))) in
      if isImage l then
        Some {| link := l; isExternal := test true httpUrl l;
                embedType := External; embedText := r_text m |}
      else None
  | None => None
  end.

Definition check_text (text : jsstr) : option EmbedResult :=
  match check_internal text with
  | Some r => Some r
  | None => check_markdown text
  end.

(** [for (let i = line; i >= 0; i--)] *)
Fixpoint scan_lines (ed : Editor) (i : nat) : option EmbedResult :=
  match check_text (getLine ed i) with
  | Some r => Some r
  | None =>
      match i with
      | O => None
      | S j => scan_lines ed j
      end
  end.

Definition findRelevantImageEmbed (ed : Editor) : option EmbedResult :=
  match check_text (getSelection ed) with
  | Some r => Some r
  | None => scan_lines ed (cursorLine ed)
  end.

Record EmbedInfo : Type := {
  ei_name : jsstr;
  ei_extension : jsstr;
  ei_path : jsstr;
  ei_altText : jsstr
}.

(** [/!\[ ([^\]]* ) \]\( ([^)]+) \)/], written here with spaces between the
    groups. *)
Definition mdInfo : regex :=
  rseq [rstr "!["; RGroup 1 (RStarG (not_char 93)); rstr "](";
        RGroup 2 (rplusG (not_char 41)); rstr ")"].

(** [/!\[\[([^\]|]+)(?:\|([^\]]+))?\]\]/] *)
Definition obsInfo : regex :=
  rseq [rstr "![[";
        RGroup 1 (rplusG (fun c => not_char 93 c && not_char 124 c));
        ropt (rseq [RChar 124; RGroup 2 (rplusG (not_char 93))]);
        rstr "]]"].

Definition parseEmbedInfo (embedMarkdown l : jsstr) : EmbedInfo :=
  let '(altText, url) :=
    match search false mdInfo embedMarkdown with
    | Some m => (cap 1 (r_caps m), cap 2 (r_caps m))
    | None =>
        match search false obsInfo embedMarkdown with
        | Some m => (cap 2 (r_caps m), cap 1 (r_caps m))
        | None => ([], l)
        end
    end in
  let lastSlash := lastIndexOf 47 url in
  let lastDot := lastIndexOf 46 url in
  let after_slash := match lastSlash with Some i => S i | None => 0 end in
  let dot_wins :=
    match lastDot, lastSlash with
    | Some d, Some sl => Nat.ltb sl d
    | Some _, None => true
    | None, _ => false
    end in
  match lastDot with
  | Some d =>
      if dot_wins then
        {| ei_name := slice after_slash d url; ei_extension := slice_from (S d) url;
           ei_path := url; ei_altText := altText |}
      else
        (* a slash after the last dot *)
        {| ei_name := slice_from after_slash url; ei_extension := [];
           ei_path := url; ei_altText := altText |}
  | None =>
      {| ei_name := slice_from after_slash url; ei_extension := [];
         ei_path := url; ei_altText := altText |}
  end.

(** [/\{\{\s*image\.[^}]+\s*\}\}/] *)
Definition imagePlaceholder : regex :=
  rseq [rstr "{{"; RStarG is_space; rstr "image."; rplusG (not_char 125);
        RStarG is_space; rstr "}}"].

Definition templateHasImagePlaceholder (template : jsstr) : bool :=
  test false imagePlaceholder template.

(** [/\{\{filename\}\}/g] and [/\{\{date\}\}/g] *)
Definition filenameVar : regex := rstr "{{filename}}".
Definition dateVar : regex := rstr "{{date}}".

(** [/^\/+|\/+$/g] *)
Definition edgeSlashes : regex :=
  RAlt (rseq [RBegin; rplusG (N.eqb 47)]) (rseq [rplusG (N.eqb 47); REnd]).

(** [getAttachmentFolderPathForFile]: [attachmentPath] is the configured
    attachment folder of the vault ([None] when it is not set), [basename]
    and [parentPath] are the file's ([None] for a file without a parent),
    [today] is [moment().format("YYYY-MM-DD")]. *)
Definition getAttachmentFolderPathForFile (attachmentPath : option jsstr)
    (basename : jsstr) (parentPath : option jsstr) (today : jsstr) : jsstr :=
  let sameFolder := match parentPath with Some p => p | None => [] end in
  match attachmentPath with
  | None => sameFolder
  | Some ap =>
      if str_eqb ap [] || str_eqb ap (lit "./") then sameFolder
      else
        let folder :=
          replace_all false dateVar today
            (replace_all false filenameVar basename ap) in
        replace_all false edgeSlashes [] folder
  end.

End Embed.

(* ===================================================================== *)
(** * The host: vault, network, PDF.js, canvas                            *)
(* ===================================================================== *)

Module Host.
Import JS Eff.

Abbreviation bytes := (list Byte.byte).

(** A vault file handle ([TFile]). *)
Record TFile : Type := { file_name : jsstr; file_path : jsstr }.

(** The response of [requestUrl]. *)
Record Response : Type := {
  status : N;
  arrayBuffer : option bytes
}.

(** What happens when PDF.js is asked for one page and the page is drawn
    on a canvas.  The width and height are the viewport's, after
    [Math.round]; [pr_png] is the PNG file that [canvas.toDataURL] encodes. *)
Record PageRender : Type := {
  pr_width : Z;
  pr_height : Z;
  pr_png : bytes
}.

Inductive page_outcome : Type :=
| GetPageThrows (e : exn)        (* pdf.getPage rejects *)
| NoContext                      (* canvas.getContext gives null *)
| RenderThrows (e : exn)         (* page.render rejects *)
| Rendered (r : PageRender).

(** A loaded PDF.js document. *)
Record PdfDocument : Type := {
  numPages : N;
  renderPage : Z -> Q -> page_outcome   (* page number, scale *)
}.

(** Everything the plugin asks of its environment. *)
Record World : Type := {
  requestUrl : jsstr -> outcome Response;
  readBinary : TFile -> outcome bytes;                (* vault.readBinary *)
  decodeImage : bytes -> option (N * N);   (* the Image probe: size or null *)
  decodeURIComponent : jsstr -> outcome jsstr;
  getDocument : bytes -> outcome PdfDocument;         (* pdfjsLib.getDocument *)
  getFirstLinkpathDest : jsstr -> jsstr -> option TFile (* metadataCache *)
}.

(** What [vault.getAbstractFileByPath] finds: a file, given with its
    [extension] field, or a folder. *)
Inductive AbstractFile : Type :=
| AFile (f : TFile) (extension : jsstr)
| AFolder.

(** The vault and path lookups of the reference collector. *)
Record Vault : Type := {
  normalizePath : jsstr -> outcome jsstr;
  getAbstractFileByPath : jsstr -> outcome (option AbstractFile)
}.

(** A file from the browser's file picker. *)
Record File : Type := {
  f_name : jsstr;
  f_type : jsstr;
  f_size : N;
  f_bytes : bytes
}.

End Host.

(* ===================================================================== *)
(** * src/utils/image.ts (carried by src/utils/pdf.ts)                    *)
(* ===================================================================== *)

Module Image.
Import JS Eff Host.

(** The base64 alphabet of RFC 4648, as [btoa] uses it. *)
Definition b64_char (n : N) : N :=
  (if n <? 26 then 65 + n
   else if n <? 52 then 97 + (n - 26)
   else if n <? 62 then 48 + (n - 52)
   else if n =? 62 then 43 else 47)%N.

Definition b64_val (c : N) : option N :=
  (if (65 <=? c) && (c <=? 90) then Some (c - 65)
   else if (97 <=? c) && (c <=? 122) then Some (c - 97 + 26)
   else if (48 <=? c) && (c <=? 57) then Some (c - 48 + 52)
   else if c =? 43 then Some 62
   else if c =? 47 then Some 63
   else None)%N.

Definition pad : N := 61.   (* = *)

(** Three octets to four characters, with padding at the end. *)
Fixpoint b64_encode (l : list N) : jsstr :=
  match l with
  | [] => []
  | [a] => [b64_char (a / 4); b64_char (a mod 4 * 16); pad; pad]%N
  | [a; b] =>
      [b64_char (a / 4); b64_char (a mod 4 * 16 + b / 16);
       b64_char (b mod 16 * 4); pad]%N
  | a :: b :: c :: t =>
      [b64_char (a / 4); b64_char (a mod 4 * 16 + b / 16);
       b64_char (b mod 16 * 4 + c / 64); b64_char (c mod 64)]%N ++ b64_encode t
  end.

(** [btoa]: throws on a code unit above 255. *)
Definition btoa (binary : jsstr) : outcome jsstr :=
  if forallb (fun c => c <=? 255)%N binary then Ret (b64_encode binary)
  else Throw (Error (lit "InvalidCharacterError")).

(** Decoding of padded base64 (RFC 4648), which is what [atob] does on the
    output of [btoa]. *)
Fixpoint b64_decode (s : jsstr) : option (list N) :=
  match s with
  | [] => Some []
  | [a; b; c; d] =>
      match b64_val a, b64_val b with
      | Some x, Some y =>
          if (c =? pad)%N then
            if (d =? pad)%N then Some [x * 4 + y / 16]%N else None
          else
            match b64_val c with
            | Some z =>
                if (d =? pad)%N then
                  Some [x * 4 + y / 16; y mod 16 * 16 + z / 4]%N
                else
                  match b64_val d with
                  | Some w =>
                      Some [x * 4 + y / 16; y mod 16 * 16 + z / 4; z mod 4 * 64 + w]%N
                  | None => None
                  end
            | None => None
            end
      | _, _ => None
      end
  | a :: b :: c :: d :: t =>
      match b64_val a, b64_val b, b64_val c, b64_val d, b64_decode t with
      | Some x, Some y, Some z, Some w, Some r =>
          Some ([x * 4 + y / 16; y mod 16 * 16 + z / 4; z mod 4 * 64 + w]%N ++ r)
      | _, _, _, _, _ => None
      end
  | _ => None
  end.

(** [String.fromCharCode(byte)] *)
Definition fromByte (b : Byte.byte) : N := Byte.to_N b.

(** [arrayBufferToBase64]: the reduce that builds the binary string, then
    [btoa]. *)
Definition arrayBufferToBase64 (buffer : bytes) : outcome jsstr :=
  let binary := fold_left (fun acc b => acc ++ [fromByte b]) buffer [] in
  btoa binary.

(** [buffer.byteLength] *)
Definition byteLength (buffer : bytes) : N := N.of_nat (List.length buffer).

(** [getImageMimeType]: the extension is what follows the last dot, in
    lower case.  Upper-case letters outside ASCII lower to text that is not
    one of the eight ASCII extensions, so the ASCII mapping decides the same
    case of the switch. *)
Definition getImageMimeType (fileName : jsstr) : jsstr :=
  let ext := toLowerCase (split_last 46 fileName) in
  if str_eqb ext (lit "png") then lit "image/png"
  else if str_eqb ext (lit "jpg") || str_eqb ext (lit "jpeg") then lit "image/jpeg"
  else if str_eqb ext (lit "webp") then lit "image/webp"
  else if str_eqb ext (lit "gif") then lit "image/gif"
  else if str_eqb ext (lit "bmp") then lit "image/bmp"
  else if str_eqb ext (lit "svg") then lit "image/svg+xml"
  else if str_eqb ext (lit "pdf") then lit "application/pdf"
  else lit "application/octet-stream".

(** [/\.pdf$/i] *)
Definition pdfExt : regex := rseq [RChar 46; rstr "pdf"; REnd].
Definition isPdfFile (fileName : jsstr) : bool := test true pdfExt fileName.

Record CollectedImage : Type := {
  source : jsstr;
  file : option TFile;
  isExternal : bool
}.

Record PreparedImage : Type := {
  name : jsstr;
  base64 : jsstr;
  mime : jsstr;
  size : N;
  width : option N;
  height : option N;
  psource : jsstr
}.

Section WithWorld.
Variable w : World.
Local Open Scope eff_scope.

Definition fetchExternalImageAsArrayBuffer (url : jsstr) : M (option bytes) :=
  do pluginLogger (lit "Fetching external image " ++ url) in
  try_catch
    (let* resp := lift (requestUrl w url) in
     match arrayBuffer resp with
     | Some body =>
         if (status resp =? 200)%N then
           do pluginLogger (lit "Fetched image from source " ++ url) in
           ret (Some body)
         else throw (Error (lit "HTTP " ++ num_to_str (status resp)))
     | None => throw (Error (lit "HTTP " ++ num_to_str (status resp)))
     end)
    (fun e =>
       do pluginLog (lit "Failed to fetch image: " ++ exn_to_string e) LvError true in
       do pluginLog (lit "Failed to fetch image.") LvNotice true in
       ret None).

(** The probe resolves with the dimensions or with null. *)
Definition getImageDimensionsFromArrayBuffer (buffer : bytes) : M (option (N * N)) :=
  ret (decodeImage w buffer).

Definition prepareImagePayload (img : CollectedImage) : M (option PreparedImage) :=
  do pluginLogger (lit "Preparing image " ++ source img) in
  try_catch
    (let* loaded :=
       if isExternal img then
         let* ab := fetchExternalImageAsArrayBuffer (source img) in
         match ab with
         | None => ret None
         | Some buffer =>
             let* decoded := lift (decodeURIComponent w (split_last 47 (source img))) in
             let nm := match decoded with [] => lit "image" | _ => decoded end in
             ret (Some (buffer, nm, getImageMimeType nm))
         end
       else
         match file img with
         | None => ret None
         | Some f =>
             let* buffer := lift (readBinary w f) in
             ret (Some (buffer, file_name f, getImageMimeType (file_name f)))
         end in
     match loaded with
     | None => ret None
     | Some (buffer, nm, mm) =>
         let* b64 := lift (arrayBufferToBase64 buffer) in
         let* dims := getImageDimensionsFromArrayBuffer buffer in
         let result :=
           {| name := nm; base64 := b64; mime := mm; size := byteLength buffer;
              width := option_map fst dims; height := option_map snd dims;
              psource := source img |} in
         do pluginLogger (lit "Prepared image " ++ source img) in
         ret (Some result)
     end)
    (fun e =>
       do pluginLog (lit "Failed to prepare image: " ++ source img ++ lit " - "
                       ++ exn_to_string e) LvError true in
       ret None).
End WithWorld.

(** [/^(https?|data):/] *)
Definition externalRef : regex :=
  rseq [RBegin;
        RGroup 1 (RAlt (rseq [rstr "http"; ropt (rstr "s")]) (rstr "data"));
        RChar 58].

(** [/png|jpe?g|webp|gif|bmp|svg|pdf/i]: not anchored. *)
Definition extensionWord : regex :=
  ralts [rstr "png"; rseq [rstr "jp"; ropt (rstr "e"); rstr "g"]; rstr "webp";
         rstr "gif"; rstr "bmp"; rstr "svg"]
        (rstr "pdf").

Section WithVault.
Variable v : Vault.
Local Open Scope eff_scope.

(** One round of the loop of [collectImageReferences]: the reference that
    is pushed, if any. *)
Definition collectOne (l : jsstr) : M (option CollectedImage) :=
  let trimmed := trim l in
  if test false externalRef trimmed then
    ret (Some {| source := trimmed; file := None; isExternal := true |})
  else
    try_catch
      (let* normalized := lift (normalizePath v trimmed) in
       let* found := lift (getAbstractFileByPath v normalized) in
       match found with
       | Some (AFile f extension) =>
           if test true extensionWord extension
           then ret (Some {| source := trimmed; file := Some f; isExternal := false |})
           else ret None
       | _ => ret None
       end)
      (fun e =>
         do pluginLog (lit "Failed to resolve image link: " ++ trimmed ++ lit " - "
                         ++ exn_to_string e) LvWarn true in
         ret None).

(** [for (const link of imageLinks)] *)
Fixpoint collectLoop (imageLinks : list jsstr) (collected : list CollectedImage)
  : M (list CollectedImage) :=
  match imageLinks with
  | [] => ret collected
  | l :: rest =>
      let* r := collectOne l in
      collectLoop rest (match r with Some img => collected ++ [img] | None => collected end)
  end.

Definition collectImageReferences (imageLinks : list jsstr) : M (list CollectedImage) :=
  do pluginLogger (lit "Collecting references for "
                     ++ num_to_str (N.of_nat (List.length imageLinks)) ++ lit " links") in
  let* collected := collectLoop imageLinks [] in
  do pluginLogger (lit "Collected " ++ num_to_str (N.of_nat (List.length collected))
                     ++ lit " image references") in
  ret collected.
End WithVault.

Local Open Scope eff_scope.

(** [selectImageFile], when the input changes: [first] is
    [input.files?.[0]].  The promise is not settled before that. *)
Definition selectImageFile (first : option File) : M (option File) :=
  do pluginLogger (match first with
                   | Some file => lit "Selected file " ++ f_name file
                   | None => lit "No file selected"
                   end) in
  ret first.

(** [selectFolder], when the input changes: [files] is [input.files]. *)
Definition selectFolder (files : option (list File)) : M (option (list File)) :=
  do pluginLogger (match files with
                   | Some l => lit "Selected folder with "
                                 ++ num_to_str (N.of_nat (List.length l)) ++ lit " files"
                   | None => lit "No folder selected"
                   end) in
  ret files.

End Image.

(* ===================================================================== *)
(** * src/utils/pdf.ts                                                    *)
(* ===================================================================== *)

Module Pdf.
Import JS Eff Host Image.

Record PDFPageImage : Type := {
  pageNumber : Z;
  pbase64 : jsstr;
  pwidth : Z;
  pheight : Z
}.

Record PDFInfo : Type := {
  pageCount : N;
  isEncrypted : bool
}.

(** The magic bytes: the first five bytes, as text, are [%PDF-]. *)
Definition isPdfBuffer (buffer : bytes) : bool :=
  str_eqb (List.map fromByte (firstn 5 buffer)) (lit "%PDF-").

(** [canvas.toDataURL("image/png")]: a data URL of the PNG file. *)
Definition toDataURL (png : bytes) : jsstr :=
  lit "data:image/png;base64," ++ b64_encode (List.map fromByte png).

(** [/^data:image\/png;base64,/] *)
Definition pngDataUrlPrefix : regex := rseq [RBegin; rstr "data:image/png;base64,"].

Section WithWorld.
Variable w : World.
Local Open Scope eff_scope.

(** The body of the page loop for one page: [Some] image pushed, or
    nothing ([continue], or the failure caught and logged). *)
Definition renderOne (doc : PdfDocument) (scale : Q) (pagesToProcess pageNum : Z)
  : M (option PDFPageImage) :=
  try_catch
    (match renderPage doc pageNum scale with
     | GetPageThrows e => throw e
     | NoContext =>
         do pluginLog (lit "Could not get canvas context for page " ++ int_to_str pageNum)
              LvWarn true in
         ret None
     | RenderThrows e => throw e
     | Rendered r =>
         let dataUrl := toDataURL (pr_png r) in
         let b64 := replace_first false pngDataUrlPrefix [] dataUrl in
         do pluginLogger (lit "Rendered page " ++ int_to_str pageNum ++ lit "/"
                            ++ int_to_str pagesToProcess) in
         ret (Some {| pageNumber := pageNum; pbase64 := b64;
                      pwidth := pr_width r; pheight := pr_height r |})
     end)
    (fun err =>
       do pluginLog (lit "Failed to render page " ++ int_to_str pageNum ++ lit ": "
                       ++ exn_to_string err) LvWarn true in
       ret None).

(** [for (pageNum = first; pageNum <= pagesToProcess; pageNum++)], with
    [count] the number of rounds left. *)
Fixpoint renderLoop (doc : PdfDocument) (scale : Q) (pagesToProcess : Z)
    (count : nat) (pageNum : Z) (images : list PDFPageImage)
  : M (list PDFPageImage) :=
  match count with
  | O => ret images
  | S n =>
      let* r := renderOne doc scale pagesToProcess pageNum in
      renderLoop doc scale pagesToProcess n (pageNum + 1)%Z
        (match r with Some img => images ++ [img] | None => images end)
  end.

(** [convertPdfToImages].  The first debug line leaves out the text of the
    scale, a floating-point number. *)
Definition convertPdfToImages (buffer : bytes) (scale : Q) (maxPages : Z)
  : M (list PDFPageImage) :=
  do pluginLogger (lit "Converting PDF to images (maxPages: " ++ int_to_str maxPages
                     ++ lit ")") in
  let* pdf :=
    try_catch
      (do emit (EvGetDocument buffer) in lift (getDocument w buffer))
      (fun err =>
         match exn_message err with
         | Some m =>
             if includes (lit "password") m
             then throw (PDFEncryptedError (lit "PDF is password protected"))
             else throw (PDFCorruptedError (lit "Failed to load PDF: " ++ exn_to_string err))
         | None =>
             throw (PDFCorruptedError (lit "Failed to load PDF: " ++ exn_to_string err))
         end) in
  let totalPages := Z.of_N (numPages pdf) in
  let pagesToProcess := Z.min totalPages maxPages in
  do pluginLogger (lit "Processing " ++ int_to_str pagesToProcess ++ lit " of "
                     ++ int_to_str totalPages ++ lit " pages") in
  renderLoop pdf scale pagesToProcess (Z.to_nat pagesToProcess) 1%Z [].

(** [getPdfInfo]: the page count, without rendering. *)
Definition getPdfInfo (buffer : bytes) : M PDFInfo :=
  do pluginLogger (lit "Getting PDF info") in
  do emit (EvGetDocument buffer) in
  let* pdf := lift (getDocument w buffer) in
  ret {| pageCount := numPages pdf; isEncrypted := false |}.

End WithWorld.

End Pdf.

(* ===================================================================== *)
(** * src/main.ts: settings and provider selection                        *)
(* ===================================================================== *)

Module Main.
Import JS Eff Host Image Pdf Embed.
Local Open Scope eff_scope.

(** The persisted settings that the pipeline reads ([GPTImageOCRSettings]).
    [pdfScale] and [pdfMaxPages] are read through [??], so they may be
    absent. *)
Record Settings : Type := {
  provider : jsstr;
  openaiApiKey : jsstr;
  geminiApiKey : jsstr;
  ollamaUrl : jsstr;
  ollamaModel : jsstr;
  lmstudioUrl : jsstr;
  lmstudioModel : jsstr;
  customApiUrl : jsstr;
  customApiModel : jsstr;
  customApiKey : jsstr;
  customPrompt : jsstr;
  noteFolderPath : jsstr;
  noteNameTemplate : jsstr;
  headerTemplate : jsstr;
  footerTemplate : jsstr;
  batchCustomPrompt : jsstr;
  batchNoteFolderPath : jsstr;
  batchNoteNameTemplate : jsstr;
  pdfScale : option Q;
  pdfMaxPages : option Z;
  ollamaModelFriendlyName : jsstr;
  lmstudioModelFriendlyName : jsstr;
  customModelFriendlyName : jsstr
}.

Definition DEFAULT_PROMPT_TEXT : jsstr :=
  lit "Extract only the raw text from this image. Do not add commentary or explanations. Do not prepend anything. Return only the transcribed text in markdown format. Do not put a markdown codeblock around the returned text.".

Definition DEFAULT_BATCH_PROMPT_TEXT : jsstr :=
  lit "Extract only the raw text from each image. Do not add commentary or explanations. Do not prepend anything. Return only the transcribed text in markdown format for each image. Do not put a markdown codeblock around the returned text.".

(** [DEFAULT_SETTINGS] of the shared types. *)
Definition DEFAULT_SETTINGS : Settings :=
  {| provider := lit "openai";
     openaiApiKey := []; geminiApiKey := [];
     ollamaUrl := lit "http://localhost:11434"; ollamaModel := lit "llama3.2-vision";
     lmstudioUrl := lit "http://localhost:1234"; lmstudioModel := lit "google/gemma-3-4b";
     customApiUrl := []; customApiModel := []; customApiKey := [];
     customPrompt := [];
     noteFolderPath := lit "OCR Notes";
     noteNameTemplate := lit "Extracted OCR {{YYYY-MM-DD HH-mm-ss}}";
     headerTemplate := []; footerTemplate := [];
     batchCustomPrompt := [];
     batchNoteFolderPath := lit "OCR Notes";
     batchNoteNameTemplate := lit "Batch OCR {{YYYY-MM-DD HH-mm-ss}}";
     pdfScale := Some 2%Q; pdfMaxPages := Some 50%Z;
     ollamaModelFriendlyName := []; lmstudioModelFriendlyName := [];
     customModelFriendlyName := [] |}.

(** [src/settings-tab.ts], the field "Maximum PDF pages" ("Set to 0 for
    unlimited"): what its [onChange] stores for [num = parseInt(value, 10)],
    that is [isNaN(num) ? 50 : Math.max(0, num)].  [None] is NaN. *)
Definition pdfMaxPagesOnChange (num : option Z) : Z :=
  match num with
  | None => 50%Z
  | Some n => Z.max 0 n
  end.

(** [a || b] on strings: the empty string is falsy. *)
Definition or_else (a b : jsstr) : jsstr :=
  match a with [] => b | _ :: _ => a end.

(** [a ?? b] *)
Definition nullish {A} (a : option A) (b : A) : A :=
  match a with Some x => x | None => b end.

Inductive provider_class : Type := OpenAIProvider | GeminiProvider.

(** Modelled from the spec: the provider classes of [src/providers] are not
    among the sources.  The spec describes a provider as a constructed
    instance carrying its resolved model id, endpoint, key and prompt; the
    constructors store their arguments. *)
Record Provider : Type := {
  p_class : provider_class;
  p_apiKey : jsstr;
  p_model : jsstr;
  p_endpoint : option jsstr;   (* OpenAIProvider only *)
  p_flavor : option jsstr;     (* OpenAIProvider: openai, ollama or lmstudio *)
  p_prompt : jsstr;
  p_name : option jsstr
}.

(** The properties that every object literal inherits from
    [Object.prototype]. *)
Inductive builtin : Type :=
| BConstructor | BToString | BToLocaleString | BValueOf | BHasOwnProperty
| BIsPrototypeOf | BPropertyIsEnumerable | BProto
| BDefineGetter | BDefineSetter | BLookupGetter | BLookupSetter.

Definition object_prototype : gmap jsstr builtin :=
  list_to_map
    [(lit "constructor", BConstructor); (lit "toString", BToString);
     (lit "toLocaleString", BToLocaleString); (lit "valueOf", BValueOf);
     (lit "hasOwnProperty", BHasOwnProperty); (lit "isPrototypeOf", BIsPrototypeOf);
     (lit "propertyIsEnumerable", BPropertyIsEnumerable); (lit "__proto__", BProto);
     (lit "__defineGetter__", BDefineGetter); (lit "__defineSetter__", BDefineSetter);
     (lit "__lookupGetter__", BLookupGetter); (lit "__lookupSetter__", BLookupSetter)].

(** The result of a property read [obj[key]] on an object literal: an own
    property, one found on the prototype, or [undefined]. *)
Inductive property (V : Type) : Type :=
| Own (v : V)
| Inherited (b : builtin)
| Undefined.
Arguments Own {V} v.
Arguments Inherited {V} b.
Arguments Undefined {V}.

Definition js_get {V} (own : gmap jsstr V) (key : jsstr) : property V :=
  match own !! key with
  | Some v => Own v
  | None =>
      match object_prototype !! key with
      | Some b => Inherited b
      | None => Undefined
      end
  end.

(** What a call returns that was meant to build a provider. *)
Inductive provided : Type :=
| Instance (p : Provider)
| PlainObject                 (* Object() *)
| PlainString (s : jsstr)
| PlainBool (b : bool).

(** Calling an inherited property as a plain function, [this] undefined. *)
Definition call_builtin (b : builtin) : outcome provided :=
  match b with
  | BConstructor => Ret PlainObject
  | BToString => Ret (PlainString (lit "[object Undefined]"))
  | BIsPrototypeOf => Ret (PlainBool false)
  | BProto => Throw (TypeError (lit "factory is not a function"))
  | _ => Throw (TypeError (lit "Cannot convert undefined or null to object"))
  end.

Definition FRIENDLY_MODEL_NAMES : gmap jsstr jsstr :=
  list_to_map
    [(lit "gpt-4o", lit "GPT-4o"); (lit "gpt-4o-mini", lit "GPT-4o Mini");
     (lit "gpt-4.1", lit "GPT-4.1"); (lit "gpt-4.1-mini", lit "GPT-4.1 Mini");
     (lit "gpt-4.1-nano", lit "GPT-4.1 Nano");
     (lit "llama3.2-vision", lit "Llama 3.2 Vision"); (lit "gemma3", lit "Gemma 3");
     (lit "gemini-2.5-flash", lit "Gemini Flash 2.5");
     (lit "models/gemini-2.5-flash", lit "Gemini Flash 2.5");
     (lit "models/gemini-2.5-flash-lite-preview-06-17",
      lit "Gemini Flash-Lite Preview 06-17");
     (lit "models/gemini-2.5-pro", lit "Gemini Pro 2.5")].

(** [FRIENDLY_PROVIDER_NAMES] of the shared types, in source order. *)
Definition FRIENDLY_PROVIDER_NAMES : list (jsstr * jsstr) :=
  [(lit "openai", lit "OpenAI"); (lit "openai-mini", lit "OpenAI");
   (lit "openai-4.1", lit "OpenAI"); (lit "openai-4.1-mini", lit "OpenAI");
   (lit "openai-4.1-nano", lit "OpenAI");
   (lit "gemini", lit "Google"); (lit "gemini-lite", lit "Google");
   (lit "gemini-pro", lit "Google");
   (lit "ollama", lit "Ollama"); (lit "lmstudio", lit "LMStudio");
   (lit "custom", lit "Custom provider")].

(** [src/settings-tab.ts]: the options of the provider dropdown, value and
    label, in the order they are added. *)
Definition providerOptions : list (jsstr * jsstr) :=
  [(lit "openai", lit "OpenAI GPT-4o");
   (lit "openai-mini", lit "OpenAI GPT-4o Mini");
   (lit "openai-4.1", lit "OpenAI GPT-4.1");
   (lit "openai-4.1-mini", lit "OpenAI GPT-4.1 Mini");
   (lit "openai-4.1-nano", lit "OpenAI GPT-4.1 Nano");
   (lit "gemini", lit "Google Gemini 2.5 Flash");
   (lit "gemini-lite", lit "Google Gemini 2.5 Flash-Lite Preview 06-17");
   (lit "gemini-pro", lit "Google Gemini 2.5 Pro");
   (lit "ollama", lit "Ollama (local)");
   (lit "lmstudio", lit "LMStudio (local)");
   (lit "custom", lit "Custom OpenAI-compatible")].

(** [/\/$/] *)
Definition trailingSlash : regex := rseq [RChar 47; REnd].

Section Providers.
Variable settings : Settings.
(** [getFriendlyProviderNames(settings)[id]], from [utils/ocr]. *)
Variable friendlyProviderName : Settings -> jsstr -> option jsstr.

Definition providerPrompt : jsstr :=
  or_else (trim (customPrompt settings)) DEFAULT_PROMPT_TEXT.

Definition providerDisplayName : option jsstr :=
  friendlyProviderName settings (provider settings).

Definition openAiFactory (model : jsstr) : Provider :=
  {| p_class := OpenAIProvider; p_apiKey := openaiApiKey settings; p_model := model;
     p_endpoint := Some (lit "https://api.openai.com/v1/chat/completions");
     p_flavor := Some (lit "openai"); p_prompt := providerPrompt;
     p_name := providerDisplayName |}.

Definition geminiFactory (model : jsstr) : Provider :=
  {| p_class := GeminiProvider; p_apiKey := geminiApiKey settings; p_model := model;
     p_endpoint := None; p_flavor := None; p_prompt := providerPrompt;
     p_name := providerDisplayName |}.

Definition localFactory (model url flavor : jsstr) : Provider :=
  {| p_class := OpenAIProvider; p_apiKey := []; p_model := model;
     p_endpoint := Some url; p_flavor := Some flavor; p_prompt := providerPrompt;
     p_name := providerDisplayName |}.

(** The own properties of the object literal [factories], in source
    order: each is a closure that builds the provider when called. *)
Definition factory_table : list (jsstr * Provider) :=
    [(lit "gemini", geminiFactory (lit "models/gemini-2.5-flash"));
     (lit "gemini-lite",
      geminiFactory (lit "models/gemini-2.5-flash-lite-preview-06-17"));
     (lit "gemini-pro", geminiFactory (lit "models/gemini-2.5-pro"));
     (lit "openai-mini", openAiFactory (lit "gpt-4o-mini"));
     (lit "openai", openAiFactory (lit "gpt-4o"));
     (lit "openai-4.1", openAiFactory (lit "gpt-4.1"));
     (lit "openai-4.1-mini", openAiFactory (lit "gpt-4.1-mini"));
     (lit "openai-4.1-nano", openAiFactory (lit "gpt-4.1-nano"));
     (lit "ollama",
      localFactory (or_else (ollamaModel settings) (lit "llama3.2-vision"))
        (or_else (replace_first false trailingSlash [] (ollamaUrl settings))
           (lit "http://localhost:11434"))
        (lit "ollama"));
     (lit "lmstudio",
      localFactory (or_else (lmstudioModel settings) (lit "gemma3"))
        (or_else (replace_first false trailingSlash [] (lmstudioUrl settings))
           (lit "http://localhost:1234"))
        (lit "lmstudio"));
     (lit "custom",
      {| p_class := OpenAIProvider;
         p_apiKey := or_else (customApiKey settings) [];
         p_model := or_else (customApiModel settings) (lit "gpt-4");
         p_endpoint := Some (or_else (customApiUrl settings)
                               (lit "https://example.com/v1/chat/completions"));
         p_flavor := Some (lit "openai"); p_prompt := providerPrompt;
         p_name := providerDisplayName |})].

Definition factories : gmap jsstr Provider := list_to_map factory_table.

(** [getProvider]: look the factory up, throw when the lookup is falsy,
    log, call it. *)
Definition getProvider : M provided :=
  match js_get factories (provider settings) with
  | Undefined => throw (Error (lit "Unknown provider"))
  | Own p =>
      do pluginLogger (lit "Using provider " ++ provider settings) in
      ret (Instance p)
  | Inherited b =>
      do pluginLogger (lit "Using provider " ++ provider settings) in
      lift (call_builtin b)
  end.
End Providers.

(* ===================================================================== *)
(** * src/main.ts: formatting context and collaborators                   *)
(* ===================================================================== *)

(** A value that is shown in a notice or stored in the context: a string,
    [undefined], or something inherited from [Object.prototype]. *)
Inductive jsval : Type :=
| VStr (s : jsstr)
| VUndef
| VBuiltin (b : builtin).

Definition builtin_name (b : builtin) : jsstr :=
  match b with
  | BConstructor => lit "Object" | BToString => lit "toString"
  | BToLocaleString => lit "toLocaleString" | BValueOf => lit "valueOf"
  | BHasOwnProperty => lit "hasOwnProperty" | BIsPrototypeOf => lit "isPrototypeOf"
  | BPropertyIsEnumerable => lit "propertyIsEnumerable" | BProto => lit "__proto__"
  | BDefineGetter => lit "__defineGetter__" | BDefineSetter => lit "__defineSetter__"
  | BLookupGetter => lit "__lookupGetter__" | BLookupSetter => lit "__lookupSetter__"
  end.

(** [`${v}`] *)
Definition display (v : jsval) : jsstr :=
  match v with
  | VStr s => s
  | VUndef => lit "undefined"
  | VBuiltin BProto => lit "[object Object]"
  | VBuiltin b => lit "function " ++ builtin_name b ++ lit "() { [native code] }"
  end.

(** The character U+2026 that ends the progress notices. *)
Definition ellipsis : jsstr := [8230%N].

Definition of_option (o : option jsstr) : jsval :=
  match o with Some s => VStr s | None => VUndef end.

Record ImageContext : Type := {
  ic_name : jsstr;
  ic_extension : jsstr;
  ic_path : jsstr;
  ic_size : N;
  ic_mime : jsstr;
  ic_width : option Z;
  ic_height : option Z;
  ic_base64 : option jsstr;
  ic_file : option TFile
}.

(** Modelled from the spec: [buildOCRContext] of [utils/ocr] is not among
    the sources.  The spec gives the context as the mapping
    [{provider, providerName, model, modelName, prompt, image?, images?,
    pdf?}], built fresh per call, to which [embed] and [pdf] are attached
    before formatting. *)
Record OCRContext : Type := {
  c_providerId : jsstr;
  c_providerName : jsval;
  c_providerType : jsstr;
  c_modelId : jsval;
  c_modelName : jsval;
  c_prompt : jsstr;
  c_image : option ImageContext;
  c_images : option (list ImageContext);
  c_embed : option EmbedInfo;
  c_pdf : option (N * N);
  c_imageIndex : option (N * N)     (* imageIndex, imageTotal *)
}.

(** The modules of the repository that are called but are not among the
    sources ([utils/ocr], [utils/format], the provider classes, the two
    fallback locators of [utils/embed]). *)
Record Services : Type := {
  friendlyProviderName : Settings -> jsstr -> option jsstr;
  getProviderType : jsstr -> jsstr;
  hasProcess : Provider -> bool;
  process : Provider -> list PreparedImage -> jsstr -> outcome jsstr;
  extractTextFromBase64 : Provider -> jsstr -> outcome (option jsstr);
  handleExtractedContent : Settings -> content -> bool -> OCRContext -> outcome unit;
  findImageEmbedFromCache : option jsstr -> option EmbedResult;
  findImageEmbedInFileContent : option jsstr -> outcome (option EmbedResult)
}.

Section Commands.
Variable w : World.
Variable sv : Services.
Variable settings : Settings.

Definition theProvider : M provided :=
  getProvider settings (friendlyProviderName sv).

Definition modelOf (pv : provided) : jsval :=
  match pv with Instance p => VStr (p_model p) | _ => VUndef end.

(** [FRIENDLY_MODEL_NAMES[modelId] || modelId], then the per-provider
    friendly name when one is configured. *)
Definition friendlyModelName (modelId : jsval) : jsval :=
  let base :=
    match js_get FRIENDLY_MODEL_NAMES (display modelId) with
    | Own n => match n with [] => modelId | _ => VStr n end
    | Inherited b => VBuiltin b
    | Undefined => modelId
    end in
  let id := provider settings in
  let pick (nm : jsstr) (otherwise : jsval) :=
    match trim nm with [] => otherwise | t => VStr t end in
  if str_eqb id (lit "ollama") then pick (ollamaModelFriendlyName settings) base
  else if str_eqb id (lit "lmstudio") then pick (lmstudioModelFriendlyName settings) base
  else if str_eqb id (lit "custom") then pick (customModelFriendlyName settings) base
  else base.

Definition providerNameVal : jsval :=
  of_option (friendlyProviderName sv settings (provider settings)).

(** [provider.extractTextFromBase64(base64)] *)
Definition callExtract (pv : provided) (b64 : jsstr) : M (option jsstr) :=
  match pv with
  | Instance p =>
      do emit (EvProviderCall b64) in lift (extractTextFromBase64 sv p b64)
  | _ => throw (TypeError (lit "provider.extractTextFromBase64 is not a function"))
  end.

Definition handle (c : content) (with_editor : bool) (ctx : OCRContext) : M unit :=
  do emit (EvHandleExtracted c with_editor) in
  lift (handleExtractedContent sv settings c with_editor ctx).

Definition buildOCRContext (pv : provided) (prompt : jsstr)
    (singleImage : option ImageContext) (images : option (list ImageContext))
  : OCRContext :=
  {| c_providerId := provider settings;
     c_providerName := providerNameVal;
     c_providerType := getProviderType sv (provider settings);
     c_modelId := modelOf pv;
     c_modelName := friendlyModelName (modelOf pv);
     c_prompt := prompt;
     c_image := singleImage; c_images := images;
     c_embed := None; c_pdf := None; c_imageIndex := None |}.

Definition withEmbed (ctx : OCRContext) (e : EmbedInfo) : OCRContext :=
  {| c_providerId := c_providerId ctx; c_providerName := c_providerName ctx;
     c_providerType := c_providerType ctx; c_modelId := c_modelId ctx;
     c_modelName := c_modelName ctx; c_prompt := c_prompt ctx;
     c_image := c_image ctx; c_images := c_images ctx;
     c_embed := Some e; c_pdf := c_pdf ctx; c_imageIndex := c_imageIndex ctx |}.

Definition withPdf (ctx : OCRContext) (pages : N) : OCRContext :=
  {| c_providerId := c_providerId ctx; c_providerName := c_providerName ctx;
     c_providerType := c_providerType ctx; c_modelId := c_modelId ctx;
     c_modelName := c_modelName ctx; c_prompt := c_prompt ctx;
     c_image := c_image ctx; c_images := c_images ctx;
     c_embed := c_embed ctx; c_pdf := Some (pages, pages);
     c_imageIndex := c_imageIndex ctx |}.

Definition withImage (ctx : OCRContext) (img : ImageContext) (i total : N)
  : OCRContext :=
  {| c_providerId := c_providerId ctx; c_providerName := c_providerName ctx;
     c_providerType := c_providerType ctx; c_modelId := c_modelId ctx;
     c_modelName := c_modelName ctx; c_prompt := c_prompt ctx;
     c_image := Some img; c_images := c_images ctx;
     c_embed := c_embed ctx; c_pdf := c_pdf ctx;
     c_imageIndex := Some (i, total) |}.

(* ------------------------------------------------------------------- *)
(** ** processPdfFile                                                   *)

(** The page loop: every page image goes to the provider; truthy text is
    kept. *)
Fixpoint extractPages (pv : provided) (pages : list PDFPageImage) (i total : nat)
    (allText : list jsstr) : M (list jsstr) :=
  match pages with
  | [] => ret allText
  | page :: rest =>
      do emit (EvNotice (lit "Processing page " ++ num_to_str (N.of_nat (S i))
                           ++ lit " of " ++ num_to_str (N.of_nat total) ++ lit "...")) in
      let* text := callExtract pv (pbase64 page) in
      extractPages pv rest (S i) total
        (match text with
         | Some (c :: t) => allText ++ [c :: t]
         | _ => allText
         end)
  end.

Definition processPdfFile (buffer : bytes) (l : jsstr) : M unit :=
  do pluginLogger (lit "Processing PDF file for OCR") in
  do emit (EvNotice (lit "Converting PDF pages to images...")) in
  try_catch
    (let* pageImages :=
       convertPdfToImages w buffer (nullish (pdfScale settings) 2%Q)
         (nullish (pdfMaxPages settings) 50%Z) in
     match pageImages with
     | [] =>
         do emit EvNoticeHide in
         pluginLog (lit "Could not extract any pages from PDF.") LvNotice true
     | first :: _ =>
         let* pv := theProvider in
         let n := List.length pageImages in
         do emit (EvNotice (lit "Extracting text from " ++ num_to_str (N.of_nat n)
                              ++ lit " PDF page(s) using " ++ display providerNameVal
                              ++ lit " " ++ display (friendlyModelName (modelOf pv))
                              ++ lit "...")) in
         let* allText := extractPages pv pageImages 0 n [] in
         do emit EvNoticeHide in
         match allText with
         | [] => pluginLog (lit "No text could be extracted from PDF.") LvNotice true
         | one :: more =>
             let combinedText :=
               match more with
               | [] => one
               | _ :: _ => join (lit "

---

") allText
               end in
             let embedInfo := parseEmbedInfo (lit "![[" ++ l ++ lit "]]") l in
             let ctx :=
               buildOCRContext pv (customPrompt settings)
                 (Some {| ic_name := ei_name embedInfo; ic_extension := lit "pdf";
                          ic_path := ei_path embedInfo; ic_size := byteLength buffer;
                          ic_mime := lit "application/pdf";
                          ic_width := Some (pwidth first);
                          ic_height := Some (pheight first);
                          ic_base64 := None; ic_file := None |})
                 None in
             let ctx := withEmbed (withPdf ctx (N.of_nat n)) embedInfo in
             do handle (One combinedText) true ctx in
             pluginLogger (lit "Finished processing PDF with " ++ num_to_str (N.of_nat n)
                             ++ lit " pages")
         end
     end)
    (fun err =>
       do emit EvNoticeHide in
       match err with
       | PDFEncryptedError _ =>
           pluginLog (lit "Cannot process password-protected PDF.") LvNotice true
       | PDFCorruptedError _ =>
           pluginLog (lit "PDF appears to be corrupted or invalid.") LvNotice true
       | _ =>
           do pluginLog (lit "Failed to process PDF: " ++ exn_to_string err) LvError true in
           pluginLog (lit "Failed to process PDF.") LvNotice true
       end).

(** The catch block shared by the single-image commands. *)
Definition ocrFailed (e : exn) : M unit :=
  do emit EvNoticeHide in
  do match exn_message e with
     | Some _ => pluginLog (exn_to_string e) LvError true
     | None => pluginLog (lit "OCR failed: " ++ exn_to_string e) LvError true
     end in
  pluginLog (lit "Failed to extract text.") LvNotice true.

(** [!content]: null and the empty string are falsy. *)
Definition truthy (c : option jsstr) : option jsstr :=
  match c with
  | Some (x :: t) => Some (x :: t)
  | _ => None
  end.

(** [/\.[^.]*$/], the last dot and what follows it. *)
Definition lastExtension : regex := rseq [RChar 46; RStarG (not_char 46); REnd].

(* ------------------------------------------------------------------- *)
(** ** Command: extract text from image (file picker)                   *)

(** [picked] is what the file input holds when it changes
    ([input.files?.[0]]); [activeEditor] tells whether
    [workspace.activeEditor?.editor] is there. *)
Definition extractTextFromImage (picked : option File) (activeEditor : bool)
  : M unit :=
  do pluginLogger (lit "Command: extract text from image") in
  let* file := selectImageFile picked in
  match file with
  | None => pluginLog (lit "No file selected for OCR.") LvNotice true
  | Some f =>
      let* b64 := lift (arrayBufferToBase64 (f_bytes f)) in
      let* dims := getImageDimensionsFromArrayBuffer w (f_bytes f) in
      let* pv := theProvider in
      do emit (EvNotice (lit "Using " ++ display providerNameVal ++ lit " "
                           ++ display (friendlyModelName (modelOf pv))
                           ++ ellipsis)) in
      try_catch
        (let* c := callExtract pv b64 in
         do emit EvNoticeHide in
         match truthy c with
         | Some text =>
             let extension :=
               if includes_cu 46 (f_name f) then split_last 46 (f_name f) else [] in
             let ctx :=
               buildOCRContext pv (customPrompt settings)
                 (Some {| ic_name := replace_first false lastExtension [] (f_name f);
                          ic_extension := extension; ic_path := f_name f;
                          ic_size := f_size f;
                          ic_mime := or_else (f_type f) (getImageMimeType (f_name f));
                          ic_width := option_map (fun d => Z.of_N (fst d)) dims;
                          ic_height := option_map (fun d => Z.of_N (snd d)) dims;
                          ic_base64 := Some b64; ic_file := None |})
                 None in
             do handle (One text) activeEditor ctx in
             pluginLogger (lit "Finished processing selected image")
         | None => pluginLog (lit "No content returned from OCR.") LvNotice true
         end)
        ocrFailed
  end.

(* ------------------------------------------------------------------- *)
(** ** Command: extract text from embedded image                        *)

(** [/!\[\[.*?\]\]/] and [/!\[.*?\]\(.*?\)/] *)
Definition selInternal : regex := rseq [rstr "![["; RStarL dot; rstr "]]"].
Definition selMarkdown : regex :=
  rseq [rstr "!["; RStarL dot; rstr "]("; RStarL dot; rstr ")"].

Definition selectionEmbedMatch (sel : jsstr) : option rmatch_result :=
  match search false selInternal sel with
  | Some m => Some m
  | None => search false selMarkdown sel
  end.

(** The locator with its two fallbacks. *)
Definition locateEmbed (ed : Editor) (ctxFile : option jsstr)
  : M (option EmbedResult) :=
  match findRelevantImageEmbed ed with
  | Some e => ret (Some e)
  | None =>
      match findImageEmbedFromCache sv ctxFile with
      | Some e => ret (Some e)
      | None => lift (findImageEmbedInFileContent sv ctxFile)
      end
  end.

(** Reading the bytes of the located embed; [None] when the command has
    already reported why it stops. *)
Definition loadEmbed (e : EmbedResult) (ctxFile : option jsstr) : M (option bytes) :=
  let* read :=
    if Embed.isExternal e then
      let* ab :=
        try_catch
          (let* ab := fetchExternalImageAsArrayBuffer w (link e) in ret (Some ab))
          (fun err =>
             do pluginLog (lit "Failed to fetch external image.") LvNotice true in
             do pluginLog (lit "Failed to fetch external image: " ++ exn_to_string err)
                  LvError true in
             ret None) in
      ret ab
    else
      match getFirstLinkpathDest w (link e) (nullish ctxFile []) with
      | Some f => let* ab := lift (readBinary w f) in ret (Some (Some ab))
      | None =>
          do pluginLog (lit "Image file not found in vault.") LvNotice true in
          ret None
      end in
  match read with
  | None => ret None
  | Some None =>
      do pluginLog (lit "Could not read image data.") LvNotice true in ret None
  | Some (Some ab) => ret (Some ab)
  end.

Definition embeddedImageOcr (ed : Editor) (ctxFile : option jsstr)
    (e : EmbedResult) (buffer : bytes) : M unit :=
  let sel := getSelection ed in
  let embedMatch := selectionEmbedMatch sel in
  let* b64 := lift (arrayBufferToBase64 buffer) in
  let* dims := getImageDimensionsFromArrayBuffer w buffer in
  let* pv := theProvider in
  do emit (EvNotice (lit "Extracting from embed with " ++ display providerNameVal
                       ++ lit " " ++ display (friendlyModelName (modelOf pv))
                       ++ ellipsis)) in
  try_catch
    (let* c := callExtract pv b64 in
     do emit EvNoticeHide in
     match truthy c with
     | None => pluginLog (lit "No content returned.") LvNotice true
     | Some text =>
         let embedInfo := parseEmbedInfo (embedText e) (link e) in
         let ctx :=
           buildOCRContext pv (customPrompt settings)
             (Some {| ic_name := ei_name embedInfo;
                      ic_extension := ei_extension embedInfo;
                      ic_path := ei_path embedInfo; ic_size := byteLength buffer;
                      ic_mime := getImageMimeType (ei_path embedInfo);
                      ic_width := option_map (fun d => Z.of_N (fst d)) dims;
                      ic_height := option_map (fun d => Z.of_N (snd d)) dims;
                      ic_base64 := Some b64;
                      ic_file :=
                        if Embed.isExternal e then None
                        else getFirstLinkpathDest w (link e) (nullish ctxFile []) |})
             None in
         let ctx := withEmbed ctx embedInfo in
         (* the embed itself is selected: replace it directly *)
         match embedMatch with
         | Some m =>
             if str_eqb sel (r_text m) then emit (EvReplaceSelection text)
             else
               do handle (One text) true ctx in
               pluginLogger (lit "Finished processing embedded image")
         | None =>
             do handle (One text) true ctx in
             pluginLogger (lit "Finished processing embedded image")
         end
     end)
    ocrFailed.

Definition extractTextFromEmbeddedImage (ed : Editor) (ctxFile : option jsstr)
  : M unit :=
  do pluginLogger (lit "Command: extract text from embedded image") in
  let* located := locateEmbed ed ctxFile in
  match located with
  | None => pluginLog (lit "No image embed found.") LvNotice true
  | Some e =>
      let* loaded := loadEmbed e ctxFile in
      match loaded with
      | None => ret tt
      | Some buffer =>
          (* a PDF by its name or by its magic bytes *)
          if isPdfFile (link e) || isPdfBuffer buffer
          then processPdfFile buffer (link e)
          else embeddedImageOcr ed ctxFile e buffer
      end
  end.

(* ------------------------------------------------------------------- *)
(** ** Command: extract text from image folder                          *)

(** [/\.(png|jpe?g|webp|gif|bmp|svg)$/i] *)
Definition folderImageExt : regex :=
  rseq [RChar 46;
        RGroup 1 (ralts [rstr "png"; rseq [rstr "jp"; ropt (rstr "e"); rstr "g"];
                         rstr "webp"; rstr "gif"; rstr "bmp"]
                        (rstr "svg"));
        REnd].

Definition imageFiles (files : list File) : list File :=
  List.filter (fun f => test true folderImageExt (f_name f)) files.

Definition prepareFile (f : File) : M PreparedImage :=
  let* dims := getImageDimensionsFromArrayBuffer w (f_bytes f) in
  let* b64 := lift (arrayBufferToBase64 (f_bytes f)) in
  ret {| name := f_name f; base64 := b64; mime := f_type f; size := f_size f;
         width := option_map fst dims; height := option_map snd dims;
         psource := f_name f |}.

Fixpoint mapM {A B} (f : A -> M B) (l : list A) : M (list B) :=
  match l with
  | [] => ret []
  | x :: t => let* y := f x in let* ys := mapM f t in ret (y :: ys)
  end.

Definition batchFormatInstruction : jsstr := lit "
For each image, wrap the response using the following format:

--- BEGIN IMAGE: ---
<insert OCR text>
--- END IMAGE ---

Repeat this for each image.
".

Definition batchPrompt : jsstr :=
  or_else (trim (batchCustomPrompt settings)) DEFAULT_BATCH_PROMPT_TEXT
    ++ [10%N] ++ batchFormatInstruction.

(** [/--- BEGIN IMAGE: ---\s*([\s\S]*?)\s*--- END IMAGE ---/g] *)
Definition batchBlock : regex :=
  rseq [rstr "--- BEGIN IMAGE: ---"; RStarG is_space; RGroup 1 (RStarL any_char);
        RStarG is_space; rstr "--- END IMAGE ---"].

(** [Array.from(response.matchAll(...), m => m[1].trim())] *)
Definition batchMatches (response : jsstr) : list jsstr :=
  List.map (fun m => trim (cap 1 (r_caps m))) (matchAll false batchBlock response).

(** The content handed to formatting. *)
Definition contentForFormatting (response : jsstr) : content :=
  let matches := batchMatches response in
  if Nat.ltb 1 (List.length matches) then Many matches
  else
    match matches with
    | [one] => One one
    | _ => One (trim response)
    end.

Definition imageContextOf (img : PreparedImage) : ImageContext :=
  {| ic_name := replace_first false lastExtension [] (name img);
     ic_extension :=
       if includes_cu 46 (name img) then split_last 46 (name img) else [];
     ic_path := psource img; ic_size := size img;
     ic_mime := or_else (mime img) (getImageMimeType (name img));
     ic_width := option_map Z.of_N (width img);
     ic_height := option_map Z.of_N (height img);
     ic_base64 := None; ic_file := None |}.

(** The per-image notes: image [i] with block [i] of the content. *)
Fixpoint perImageNotes (ctx : OCRContext) (c : content) (images : list ImageContext)
    (i total : nat) : M unit :=
  match images with
  | [] => ret tt
  | img :: rest =>
      let imgContent :=
        match c with
        | Many l => match nth_error l i with Some s => One s | None => NoContent end
        | other => other
        end in
      do handle imgContent false
           (withImage ctx img (N.of_nat (S i)) (N.of_nat total)) in
      perImageNotes ctx c rest (S i) total
  end.

(** [picked] is what the folder input holds when it changes
    ([input.files]). *)
Definition extractTextFromImageFolder (picked : option (list File)) : M unit :=
  do pluginLogger (lit "Command: extract text from image folder") in
  let* folder := selectFolder picked in
  match folder with
  | None => ret tt
  | Some files =>
      let* prepared := mapM prepareFile (imageFiles files) in
      match prepared with
      | [] => pluginLog (lit "No valid images could be prepared.") LvNotice true
      | first :: _ =>
          let* pv := theProvider in
          do emit (EvNotice (lit "Extracting text from "
                               ++ num_to_str (N.of_nat (List.length prepared))
                               ++ lit " images using " ++ display providerNameVal
                               ++ lit " " ++ display (friendlyModelName (modelOf pv))
                               ++ ellipsis)) in
          try_catch
            (let* response :=
               match pv with
               | Instance p =>
                   if hasProcess sv p then lift (process sv p prepared batchPrompt)
                   else
                     let* r := callExtract pv (base64 first) in
                     ret (nullish r [])
               | _ => let* r := callExtract pv (base64 first) in ret (nullish r [])
               end in
             do emit EvNoticeHide in
             let c := contentForFormatting response in
             let ctx :=
               match c with
               | Many _ =>
                   buildOCRContext pv batchPrompt None
                     (Some (List.map imageContextOf prepared))
               | _ => buildOCRContext pv batchPrompt (Some (imageContextOf first)) None
               end in
             let noteNameTemplate :=
               or_else (batchNoteNameTemplate settings) (noteNameTemplate settings) in
             let noteFolderTemplate :=
               or_else (batchNoteFolderPath settings) (noteFolderPath settings) in
             do match c_images ctx with
                | Some images =>
                    if templateHasImagePlaceholder noteNameTemplate
                       || templateHasImagePlaceholder noteFolderTemplate
                    then perImageNotes ctx c images 0 (List.length images)
                    else handle c false ctx
                | None => handle c false ctx
                end in
             pluginLogger (lit "Finished processing image folder"))
            (fun e =>
               do emit EvNoticeHide in
               do pluginLog (lit "Failed to extract text from images.") LvNotice true in
               pluginLog
                 (match exn_message e with
                  | Some _ => exn_to_string e
                  | None => lit "OCR failed: " ++ exn_to_string e
                  end) LvError true)
      end
  end.
End Commands.

End Main.

(* ===================================================================== *)
(** * Concrete environments, for the examples                             *)
(* ===================================================================== *)

Module Demo.
Import JS Eff Host Image Pdf Embed Main.
Import Byte.

(** The first bytes of a PNG file. *)
Definition png_bytes : bytes := [x89; x50; x4e; x47; x0d; x0a; x1a; x0a].

(** [%PDF-1.7] *)
Definition pdf_bytes : bytes := [x25; x50; x44; x46; x2d; x31; x2e; x37].

(** [hello]: not a PDF. *)
Definition text_bytes : bytes := [x68; x65; x6c; x6c; x6f].

(** Three pages; the second fails to render. *)
Definition three_pages : PdfDocument :=
  {| numPages := 3;
     renderPage := fun p _ =>
       if (p =? 2)%Z then RenderThrows (Error (lit "render failed"))
       else Rendered {| pr_width := 1224; pr_height := 1584; pr_png := png_bytes |} |}.

(** A vault where [paper.pdf] is a PDF, [notes.pdf] is a text file with a
    wrong name, and every other file is a PNG image. *)
Definition world : World :=
  {| requestUrl := fun _ => Throw (Error (lit "offline"));
     readBinary := fun f =>
       if str_eqb (file_name f) (lit "paper.pdf") then Ret pdf_bytes
       else if str_eqb (file_name f) (lit "notes.pdf") then Ret text_bytes
       else Ret png_bytes;
     decodeImage := fun _ => Some (640%N, 480%N);
     decodeURIComponent := fun s => Ret s;
     getDocument := fun b =>
       if isPdfBuffer b then Ret three_pages
       else Throw (Error (lit "Invalid PDF structure."));
     getFirstLinkpathDest := fun l _ => Some {| file_name := l; file_path := l |} |}.

(** Providers that answer [Hello world]; a formatter that succeeds. *)
Definition services : Services :=
  {| friendlyProviderName := fun _ _ => Some (lit "OpenAI");
     getProviderType := fun _ => lit "openai";
     hasProcess := fun _ => true;
     process := fun _ _ _ => Ret (lit "Hello world");
     extractTextFromBase64 := fun _ _ => Ret (Some (lit "Hello world"));
     handleExtractedContent := fun _ _ _ _ => Ret tt;
     findImageEmbedFromCache := fun _ => None;
     findImageEmbedInFileContent := fun _ => Ret None |}.

Definition with_provider (id : jsstr) (s : Settings) : Settings :=
  {| provider := id;
     openaiApiKey := openaiApiKey s; geminiApiKey := geminiApiKey s;
     ollamaUrl := ollamaUrl s; ollamaModel := ollamaModel s;
     lmstudioUrl := lmstudioUrl s; lmstudioModel := lmstudioModel s;
     customApiUrl := customApiUrl s; customApiModel := customApiModel s;
     customApiKey := customApiKey s; customPrompt := customPrompt s;
     noteFolderPath := noteFolderPath s; noteNameTemplate := noteNameTemplate s;
     headerTemplate := headerTemplate s; footerTemplate := footerTemplate s;
     batchCustomPrompt := batchCustomPrompt s;
     batchNoteFolderPath := batchNoteFolderPath s;
     batchNoteNameTemplate := batchNoteNameTemplate s;
     pdfScale := pdfScale s; pdfMaxPages := pdfMaxPages s;
     ollamaModelFriendlyName := ollamaModelFriendlyName s;
     lmstudioModelFriendlyName := lmstudioModelFriendlyName s;
     customModelFriendlyName := customModelFriendlyName s |}.

Definition with_maxPages (n : Z) (s : Settings) : Settings :=
  {| provider := provider s;
     openaiApiKey := openaiApiKey s; geminiApiKey := geminiApiKey s;
     ollamaUrl := ollamaUrl s; ollamaModel := ollamaModel s;
     lmstudioUrl := lmstudioUrl s; lmstudioModel := lmstudioModel s;
     customApiUrl := customApiUrl s; customApiModel := customApiModel s;
     customApiKey := customApiKey s; customPrompt := customPrompt s;
     noteFolderPath := noteFolderPath s; noteNameTemplate := noteNameTemplate s;
     headerTemplate := headerTemplate s; footerTemplate := footerTemplate s;
     batchCustomPrompt := batchCustomPrompt s;
     batchNoteFolderPath := batchNoteFolderPath s;
     batchNoteNameTemplate := batchNoteNameTemplate s;
     pdfScale := pdfScale s; pdfMaxPages := Some n;
     ollamaModelFriendlyName := ollamaModelFriendlyName s;
     lmstudioModelFriendlyName := lmstudioModelFriendlyName s;
     customModelFriendlyName := customModelFriendlyName s |}.

(** An editor whose selection is [sel], on an empty document. *)
Definition editor_with (sel : string) : Editor :=
  {| getSelection := lit sel; cursorLine := 0; getLine := fun _ => [] |}.

(** The same vault, whose files cannot be read. *)
Definition unreadable_world : World :=
  {| requestUrl := requestUrl world;
     readBinary := fun _ => Throw (Error (lit "EACCES: permission denied"));
     decodeImage := decodeImage world;
     decodeURIComponent := decodeURIComponent world;
     getDocument := getDocument world;
     getFirstLinkpathDest := getFirstLinkpathDest world |}.

(** Providers that fail on every image. *)
Definition failing_services : Services :=
  {| friendlyProviderName := friendlyProviderName services;
     getProviderType := getProviderType services;
     hasProcess := hasProcess services;
     process := process services;
     extractTextFromBase64 := fun _ _ => Throw (Error (lit "rate limited"));
     handleExtractedContent := handleExtractedContent services;
     findImageEmbedFromCache := findImageEmbedFromCache services;
     findImageEmbedInFileContent := findImageEmbedInFileContent services |}.

(** A vault that holds a file at every path. *)
Definition vault : Vault :=
  {| normalizePath := fun p => Ret p;
     getAbstractFileByPath := fun p =>
       Ret (Some (AFile {| file_name := p; file_path := p |} (split_last 46 p))) |}.


End Demo.

(* ===================================================================== *)
(** * Specification vocabulary                                            *)
(* ===================================================================== *)

Module Spec.
Import JS Eff Host Image Pdf Embed Main.

(** ** Patterns *)

(** [Matches ic r pos s rest]: the pattern [r] can consume exactly [s] at
    index [pos] when [rest] follows.  This is the declarative reading of a
    pattern, without any order among the alternatives. *)
Fixpoint Matches (ic : bool) (r : regex) (pos : nat) (s rest : jsstr) : Prop :=
  match r with
  | RChar c => exists x, s = [x] /\ char_eq ic c x = true
  | RClass p => exists x, s = [x] /\ p x = true
  | REps => s = []
  | RSeq r1 r2 =>
      exists s1 s2, s = s1 ++ s2 /\ Matches ic r1 pos s1 (s2 ++ rest)
                    /\ Matches ic r2 (pos + List.length s1) s2 rest
  | RAlt r1 r2 => Matches ic r1 pos s rest \/ Matches ic r2 pos s rest
  | RStarG p | RStarL p => forallb p s = true
  | RGroup _ r1 => Matches ic r1 pos s rest
  | RBegin => s = [] /\ pos = 0
  | REnd => s = [] /\ rest = []
  end.

(** The pattern characters [a] agree with the text [s], one by one. *)
Definition lit_eq (ic : bool) (a s : jsstr) : Prop :=
  Forall2 (fun c x => char_eq ic c x = true) a s.

Definition is_upper (c : N) : bool := ((65 <=? c) && (c <=? 90))%N.

Definition no_upper (a : jsstr) : bool := forallb (fun c => negb (is_upper c)) a.

(** The finitely many words of a pattern without stars and anchors. *)
Fixpoint words (r : regex) : option (list jsstr) :=
  match r with
  | RChar c => Some [[c]]
  | REps => Some [[]]
  | RSeq r1 r2 =>
      match words r1, words r2 with
      | Some a, Some b => Some (flat_map (fun x => List.map (app x) b) a)
      | _, _ => None
      end
  | RAlt r1 r2 =>
      match words r1, words r2 with
      | Some a, Some b => Some (a ++ b)
      | _, _ => None
      end
  | RGroup _ r1 => words r1
  | _ => None
  end.

(** ** Extensions *)

(** The extension of a link or file name: what follows its last dot; a
    name without a dot has none. *)
Definition extension_of (s : jsstr) : option jsstr :=
  if includes_cu 46 s then Some (split_last 46 s) else None.

(** The extension of [s], in lower case, is one of [exts]. *)
Definition has_extension_in (exts : list jsstr) (s : jsstr) : Prop :=
  exists e, extension_of s = Some e /\ In (toLowerCase e) exts.

Definition image_extensions : list jsstr :=
  List.map lit ["png"; "jpg"; "jpeg"; "gif"; "webp"; "bmp"; "svg"; "pdf"]%string.

Definition folder_extensions : list jsstr :=
  List.map lit ["png"; "jpg"; "jpeg"; "webp"; "gif"; "bmp"; "svg"]%string.

(** ** Pages *)

(** The image of page [p], when the page renders. *)
Definition page_image (doc : PdfDocument) (scale : Q) (p : Z) : option PDFPageImage :=
  match renderPage doc p scale with
  | Rendered r =>
      Some {| pageNumber := p;
              pbase64 := b64_encode (List.map fromByte (pr_png r));
              pwidth := pr_width r; pheight := pr_height r |}
  | _ => None
  end.

Definition rendered (doc : PdfDocument) (scale : Q) (p : Z) : bool :=
  match renderPage doc p scale with Rendered _ => true | _ => false end.

(** [first], [first + 1], ...: [count] page numbers. *)
Fixpoint page_numbers (first : Z) (count : nat) : list Z :=
  match count with
  | O => []
  | S n => first :: page_numbers (first + 1)%Z n
  end.

Fixpoint keep_some {A B} (f : A -> option B) (l : list A) : list B :=
  match l with
  | [] => []
  | x :: t => match f x with Some y => y :: keep_some f t | None => keep_some f t end
  end.

(** ** Payloads *)

Definition octets (l : list N) : Prop := List.Forall (fun x => (x <= 255)%N) l.

(** The body of a successful fetch. *)
Definition fetched (w : World) (url : jsstr) : option bytes :=
  match requestUrl w url with
  | Ret resp => if (status resp =? 200)%N then arrayBuffer resp else None
  | Throw _ => None
  end.

(** What makes the preparation of an image fail. *)
Definition prepare_fails (w : World) (img : CollectedImage) : bool :=
  if Image.isExternal img then
    match fetched w (source img) with
    | None => true                          (* fetch failure *)
    | Some _ =>
        match decodeURIComponent w (split_last 47 (source img)) with
        | Ret _ => false
        | Throw _ => true                   (* malformed name *)
        end
    end
  else
    match file img with
    | None => true                          (* missing file handle *)
    | Some f =>
        match readBinary w f with
        | Ret _ => false
        | Throw _ => true                   (* read error *)
        end
    end.

(** The buffer that a successful preparation read. *)
Definition prepared_buffer (w : World) (img : CollectedImage) : option bytes :=
  if prepare_fails w img then None
  else if Image.isExternal img then fetched w (source img)
  else match file img with
       | Some f => match readBinary w f with Ret b => Some b | Throw _ => None end
       | None => None
       end.

(** The bytes that the embedded-image command reads for an embed: the
    body of a successful fetch of an external link; for an internal link
    the content of the vault file that the link resolves to. *)
Definition read_embed (w : World) (e : EmbedResult) (ctxFile : option jsstr)
  : option bytes :=
  if Embed.isExternal e then fetched w (link e)
  else
    match getFirstLinkpathDest w (link e) (nullish ctxFile []) with
    | Some f => match readBinary w f with Ret b => Some b | Throw _ => None end
    | None => None
    end.

(** ** Traces *)

(** Every event of the run satisfies [P]. *)
Definition only {A} (P : event -> Prop) (c : M A) : Prop := List.Forall P (trace c).

(** Any event, but a request to parse a PDF only for a buffer in [Q]. *)
Definition parses (Q : bytes -> Prop) (ev : event) : Prop :=
  match ev with
  | EvGetDocument b => Q b
  | _ => True
  end.

(** The buffers that a run handed to the PDF parser. *)
Fixpoint parsed_buffers (tr : list event) : list bytes :=
  match tr with
  | [] => []
  | EvGetDocument b :: t => b :: parsed_buffers t
  | _ :: t => parsed_buffers t
  end.

(** What a run did to the document: replaced the selection, or handed
    content to the formatter. *)
Fixpoint document_effects (tr : list event) : list event :=
  match tr with
  | [] => []
  | EvReplaceSelection s :: t => EvReplaceSelection s :: document_effects t
  | EvHandleExtracted c e :: t => EvHandleExtracted c e :: document_effects t
  | _ :: t => document_effects t
  end.

(** How many images a run sent to the provider. *)
Fixpoint provider_calls (tr : list event) : nat :=
  match tr with
  | [] => 0
  | EvProviderCall _ :: t => S (provider_calls t)
  | _ :: t => provider_calls t
  end.

(** ** Providers *)

(** The enumerated provider identifiers of the settings type. *)
Definition provider_ids : list jsstr :=
  List.map lit ["openai"; "openai-mini"; "openai-4.1"; "openai-4.1-mini";
                "openai-4.1-nano"; "gemini"; "gemini-lite"; "gemini-pro";
                "ollama"; "lmstudio"; "custom"]%string.

(** ** The selected embed of the end-to-end scenario *)

Definition diagram_selection (cursor : nat) (lines : nat -> jsstr) : Editor :=
  {| getSelection := lit "![[diagram.png]]"; cursorLine := cursor; getLine := lines |}.

Definition diagram_embed : EmbedResult :=
  {| link := lit "diagram.png"; Embed.isExternal := false; embedType := Internal;
     embedText := lit "![[diagram.png]]" |}.

(** ** Blocks of a batch response *)

(** The first occurrence of [p] in [s], as the text before it and the text
    after it. *)
Fixpoint find (p s : jsstr) : option (jsstr * jsstr) :=
  if startsWith p s then Some ([], skipn (List.length p) s)
  else
    match s with
    | [] => None
    | c :: t =>
        match find p t with
        | Some (a, b) => Some (c :: a, b)
        | None => None
        end
    end.

Definition BEGIN : jsstr := lit "--- BEGIN IMAGE: ---".
Definition END : jsstr := lit "--- END IMAGE ---".

(** The blocks of a response, left to right: the first [BEGIN], the first
    [END] after it, the trimmed text between them, and on with what follows
    that [END]. *)
Inductive blocks : jsstr -> list jsstr -> Prop :=
| blocks_no_begin s :
    find BEGIN s = None -> blocks s []
| blocks_no_end s pre rest :
    find BEGIN s = Some (pre, rest) -> find END rest = None -> blocks s []
| blocks_block s pre rest body post bs :
    find BEGIN s = Some (pre, rest) -> find END rest = Some (body, post) ->
    blocks post bs -> blocks s (trim body :: bs).

(** White space and [--- END IMAGE ---], the end of the block pattern. *)
Definition block_tail : regex := RSeq (RStarG is_space) (RSeq (rlit END) REps).

(** [END] does not begin inside [b] when [b ++ END ++ post] is read. *)
Definition no_end_inside (b post : jsstr) : Prop :=
  forall s1 post', b ++ END ++ post = s1 ++ END ++ post' ->
                   List.length b <= List.length s1.

(** ** Further vocabulary *)

(** The five bytes [%PDF-]. *)
Definition pdf_magic : bytes := [Byte.x25; Byte.x50; Byte.x44; Byte.x46; Byte.x2d].

(** The failure is an [Error] whose message contains [password]. *)
Definition mentions_password (e : exn) : bool :=
  match e with
  | Thrown _ => false
  | Error m | TypeError m | PDFEncryptedError m | PDFCorruptedError m =>
      includes (lit "password") m
  end.

(** [s] without one slash at its end. *)
Definition strip_slash (s : jsstr) : jsstr :=
  match rev s with
  | c :: t => if (c =? 47)%N then rev t else s
  | [] => s
  end.

(** The texts sent to the provider, in order. *)
Fixpoint provider_inputs (tr : list event) : list jsstr :=
  match tr with
  | [] => []
  | EvProviderCall b :: t => b :: provider_inputs t
  | _ :: t => provider_inputs t
  end.

(** What was handed to the formatter, in order. *)
Fixpoint handled (tr : list event) : list (content * bool) :=
  match tr with
  | [] => []
  | EvHandleExtracted c ed :: t => (c, ed) :: handled t
  | _ :: t => handled t
  end.

(** What the user is shown: the visible log lines, in order. *)
Fixpoint shown (tr : list event) : list (jsstr * level) :=
  match tr with
  | [] => []
  | EvLog msg lv true :: t => (msg, lv) :: shown t
  | _ :: t => shown t
  end.

(** An event that reaches neither the provider, nor the formatter, nor the
    document. *)
Definition quiet (ev : event) : Prop :=
  match ev with
  | EvProviderCall _ | EvHandleExtracted _ _ | EvReplaceSelection _ => False
  | _ => True
  end.

(** An event that is only a debug line. *)
Definition debug_only (ev : event) : Prop :=
  match ev with
  | EvDebug _ => True
  | _ => False
  end.

(** The texts that the page loop keeps: the truthy answers. *)
Definition kept_text (answer : option jsstr) : list jsstr :=
  match answer with
  | Some (c :: t) => [c :: t]
  | _ => []
  end.

(** The separator between the texts of the pages. *)
Definition page_separator : jsstr := [10; 10; 45; 45; 45; 10; 10]%N.

(** Any event, but a replacement of the selection only by a text in [R]. *)
Definition replaces (R : jsstr -> Prop) (ev : event) : Prop :=
  match ev with
  | EvReplaceSelection t => R t
  | _ => True
  end.

(** An editor that holds [text] as its selection, on an empty document. *)
Definition alone (text : jsstr) : Editor :=
  {| getSelection := text; cursorLine := 0; getLine := fun _ => [] |}.

(** [text] holds embed markup: [![[x]]] or [![alt](x)] with a non-empty
    [x], on one line. *)
Definition holds_markup (text : jsstr) : Prop :=
  exists pre x post,
    x <> [] /\ forallb dot x = true
    /\ (text = pre ++ lit "![[" ++ x ++ lit "]]" ++ post
        \/ exists alt,
             forallb dot alt = true
             /\ text = pre ++ lit "![" ++ alt ++ lit "](" ++ x ++ lit ")" ++ post).

(** The selection is exactly one embed, on one line: [![[mid]]], where
    the first []]] is the one that closes it; or, for a selection that
    holds no [![[...]]] at all, [![alt](target)], where the first [](] is
    the one after [alt] and the target holds no [)]. *)
Definition exactly_an_embed (sel : jsstr) : Prop :=
  (exists mid,
      forallb dot mid = true /\ sel = lit "![[" ++ mid ++ lit "]]"
      /\ find (lit "]]") (mid ++ lit "]]") = Some (mid, []))
  \/ (exists alt target,
        forallb dot alt = true /\ forallb dot target = true
        /\ sel = lit "![" ++ alt ++ lit "](" ++ target ++ lit ")"
        /\ find (lit "](") (alt ++ lit "](") = Some (alt, [])
        /\ includes_cu 41 target = false
        /\ forall pre mid post,
             forallb dot mid = true ->
             sel <> pre ++ lit "![[" ++ mid ++ lit "]]" ++ post).

(** Any event, but a call of the formatter only with the editor flag
    [b]. *)
Definition formats_with (b : bool) (ev : event) : Prop :=
  match ev with
  | EvHandleExtracted _ ed => ed = b
  | _ => True
  end.

(** [Array.isArray(content) ? content[i] : content] *)
Definition content_at (c : content) (i : nat) : content :=
  match c with
  | Many l => match nth_error l i with Some s => One s | None => NoContent end
  | other => other
  end.

(** What one round of the reference collector pushes. *)
Definition collected_of (v : Vault) (l : jsstr) : option CollectedImage :=
  match result (collectOne v l) with
  | Ret r => r
  | Throw _ => None
  end.

(** [ext] holds one of the eight extension words, in any letter case. *)
Definition holds_extension_word (ext : jsstr) : Prop :=
  exists pre w0 post, ext = pre ++ w0 ++ post /\ In (toLowerCase w0) image_extensions.

(** A collected reference is external, with a scheme and no file, or local,
    with the vault file that was found for its normalized path. *)
Definition well_collected (v : Vault) (img : CollectedImage) : Prop :=
  if Image.isExternal img then
    file img = None
    /\ (startsWith (lit "http:") (source img) = true
        \/ startsWith (lit "https:") (source img) = true
        \/ startsWith (lit "data:") (source img) = true)
  else
    exists path f ext,
      normalizePath v (source img) = Ret path
      /\ getAbstractFileByPath v path = Ret (Some (AFile f ext))
      /\ file img = Some f /\ holds_extension_word ext.

(** One image's text in the format that the batch prompt asks for. *)
Definition wrap_block (t : jsstr) : jsstr :=
  BEGIN ++ [10%N] ++ t ++ [10%N] ++ END ++ [10%N].

(** The first end delimiter of the wrapped text is the one that closes it:
    none begins inside the text. *)
Definition delimiter_free (t : jsstr) : Prop :=
  find END ([10%N] ++ t ++ [10%N] ++ END) = Some ([10%N] ++ t ++ [10%N], []).

End Spec.

Import JS Eff Host Image Pdf Embed Main Spec.

(* ===================================================================== *)
(** * The matcher against the declarative reading of patterns            *)
(* ===================================================================== *)

Section MatcherFacts.
Context {A : Type}.
Variable ic : bool.

Lemma advance_zero (st : mstate) : advance st 0 (m_rest st) = st.
Proof. destruct st as [p r c]. unfold advance. simpl. f_equal. lia. Qed.

Lemma advance_advance (st : mstate) a b r1 r2 :
  advance (advance st a r1) b r2 = advance st (a + b) r2.
Proof. unfold advance. simpl. f_equal. lia. Qed.

Lemma star_greedy_sound p st (k : mstate -> option A) a :
  forall s n, star_greedy p st n s k = Some a ->
  exists s1 rest, s = s1 ++ rest /\ forallb p s1 = true
                  /\ k (advance st (n + List.length s1) rest) = Some a.
Proof.
  induction s as [|c t IH]; intros n H; simpl in H.
  - exists [], []. simpl. rewrite Nat.add_0_r. auto.
  - destruct (p c) eqn:Hp.
    + destruct (star_greedy p st (S n) t k) eqn:Hg.
      * inversion H; subst. destruct (IH _ Hg) as (s1 & rest & -> & Hall & Hk).
        exists (c :: s1), rest. simpl. rewrite Hp, Hall.
        replace (n + S (List.length s1)) with (S n + List.length s1) by lia. auto.
      * exists [], (c :: t). simpl. rewrite Nat.add_0_r. auto.
    + exists [], (c :: t). simpl. rewrite Nat.add_0_r. auto.
Qed.

Lemma star_lazy_sound p st (k : mstate -> option A) a :
  forall s n, star_lazy p st n s k = Some a ->
  exists s1 rest, s = s1 ++ rest /\ forallb p s1 = true
                  /\ k (advance st (n + List.length s1) rest) = Some a.
Proof.
  induction s as [|c t IH]; intros n H; simpl in H.
  - destruct (k (advance st n [])) eqn:Hk; [|discriminate].
    inversion H; subst. exists [], []. simpl. rewrite Nat.add_0_r. auto.
  - destruct (k (advance st n (c :: t))) eqn:Hk.
    + inversion H; subst. exists [], (c :: t). simpl. rewrite Nat.add_0_r. auto.
    + destruct (p c) eqn:Hp; [|discriminate].
      destruct (IH _ H) as (s1 & rest & -> & Hall & Hk').
      exists (c :: s1), rest. simpl. rewrite Hp, Hall.
      replace (n + S (List.length s1)) with (S n + List.length s1) by lia. auto.
Qed.

Lemma star_greedy_complete p st (k : mstate -> option A) rest :
  forall s1 n, forallb p s1 = true ->
  k (advance st (n + List.length s1) rest) <> None ->
  star_greedy p st n (s1 ++ rest) k <> None.
Proof.
  induction s1 as [|c t IH]; intros n Hall Hk; simpl in *.
  - rewrite Nat.add_0_r in Hk. destruct rest as [|c t]; simpl; auto.
    destruct (p c); auto.
    destruct (star_greedy p st (S n) t k); auto; discriminate.
  - apply andb_prop in Hall. destruct Hall as [Hc Ht]. rewrite Hc.
    specialize (IH (S n) Ht).
    replace (S n + List.length t) with (n + S (List.length t)) in IH by lia.
    specialize (IH Hk).
    destruct (star_greedy p st (S n) (t ++ rest) k); auto; discriminate.
Qed.

Lemma star_lazy_complete p st (k : mstate -> option A) rest :
  forall s1 n, forallb p s1 = true ->
  k (advance st (n + List.length s1) rest) <> None ->
  star_lazy p st n (s1 ++ rest) k <> None.
Proof.
  induction s1 as [|c t IH]; intros n Hall Hk; simpl in *.
  - rewrite Nat.add_0_r in Hk. destruct rest as [|c t]; simpl.
    + destruct (k (advance st n [])); auto; discriminate.
    + destruct (k (advance st n (c :: t))); auto; try discriminate; congruence.
  - apply andb_prop in Hall. destruct Hall as [Hc Ht]. rewrite Hc.
    destruct (k (advance st n (c :: t ++ rest))); [discriminate|].
    apply IH; auto.
    replace (S n + List.length t) with (n + S (List.length t)) by lia. auto.
Qed.

(** Soundness: a result of the matcher comes from a declarative match. *)
Lemma rmatch_sound (r : regex) :
  forall st (k : mstate -> option A) a,
    rmatch ic r st k = Some a ->
    exists s rest st',
      m_rest st = s ++ rest /\ Matches ic r (m_pos st) s rest
      /\ m_pos st' = m_pos st + List.length s /\ m_rest st' = rest
      /\ k st' = Some a.
Proof.
  induction r; intros st k a H; simpl in H.
  - destruct (m_rest st) as [|x t] eqn:Hr; [discriminate|].
    destruct (char_eq ic c x) eqn:Hc; [|discriminate].
    exists [x], t, (advance st 1 t). simpl. repeat split; eauto.
  - destruct (m_rest st) as [|x t] eqn:Hr; [discriminate|].
    destruct (p x) eqn:Hc; [|discriminate].
    exists [x], t, (advance st 1 t). simpl. repeat split; eauto.
  - exists [], (m_rest st), st. simpl. repeat split; auto.
  - destruct (IHr1 _ _ _ H) as (s1 & rest1 & st1 & Hr1 & Hm1 & Hp1 & Hrest1 & Hk1).
    destruct (IHr2 _ _ _ Hk1) as (s2 & rest2 & st2 & Hr2 & Hm2 & Hp2 & Hrest2 & Hk2).
    exists (s1 ++ s2), rest2, st2. simpl. subst rest1. rewrite Hr2 in Hm1, Hr1.
    repeat split; auto.
    + rewrite Hr1. now rewrite List.app_assoc.
    + exists s1, s2. repeat split; auto. now rewrite <- Hp1.
    + rewrite Hp2, Hp1, List.length_app. lia.
  - destruct (rmatch ic r1 st k) eqn:H1.
    + inversion H; subst. destruct (IHr1 _ _ _ H1) as (s & rest & st' & ? & ? & ? & ? & ?).
      exists s, rest, st'. simpl. repeat split; auto.
    + destruct (IHr2 _ _ _ H) as (s & rest & st' & ? & ? & ? & ? & ?).
      exists s, rest, st'. simpl. repeat split; auto.
  - destruct (star_greedy_sound _ _ _ _ _ _ H) as (s1 & rest & Hs & Hall & Hk).
    exists s1, rest, (advance st (0 + List.length s1) rest). simpl. repeat split; auto.
  - destruct (star_lazy_sound _ _ _ _ _ _ H) as (s1 & rest & Hs & Hall & Hk).
    exists s1, rest, (advance st (0 + List.length s1) rest). simpl. repeat split; auto.
  - destruct (IHr _ _ _ H) as (s & rest & st' & Hr & Hm & Hp & Hrest & Hk).
    exists s, rest,
      (MState (m_pos st') (m_rest st')
         ((i, firstn (m_pos st' - m_pos st) (m_rest st)) :: m_caps st')).
    simpl. repeat split; auto.
  - destruct (Nat.eqb (m_pos st) 0) eqn:Hz; [|discriminate].
    apply Nat.eqb_eq in Hz.
    exists [], (m_rest st), st. simpl. repeat split; auto.
  - destruct (m_rest st) eqn:Hr; [|discriminate].
    exists [], [], st. simpl. repeat split; auto.
Qed.

(** Completeness: where a declarative match exists whose continuation
    succeeds, the matcher succeeds. *)
Lemma rmatch_complete (r : regex) :
  forall st (k : mstate -> option A) s rest,
    m_rest st = s ++ rest -> Matches ic r (m_pos st) s rest ->
    (forall st', m_pos st' = m_pos st + List.length s -> m_rest st' = rest ->
                 k st' <> None) ->
    rmatch ic r st k <> None.
Proof.
  induction r; intros st k s rest Hr Hm Hk; simpl in *.
  - destruct Hm as (x & -> & Hc). simpl in Hr. rewrite Hr, Hc. apply Hk; auto.
  - destruct Hm as (x & -> & Hc). simpl in Hr. rewrite Hr, Hc. apply Hk; auto.
  - subst s. apply Hk; auto.
  - destruct Hm as (s1 & s2 & -> & Hm1 & Hm2).
    apply (IHr1 st _ s1 (s2 ++ rest)); auto.
    + now rewrite Hr, List.app_assoc.
    + intros st1 Hp1 Hrest1. apply (IHr2 st1 _ s2 rest); auto.
      * now rewrite Hp1.
      * intros st2 Hp2 Hrest2. apply Hk; auto. rewrite Hp2, Hp1, List.length_app. lia.
  - destruct (rmatch ic r1 st k) eqn:H1; [discriminate|].
    destruct Hm as [Hm|Hm].
    + exfalso. apply (IHr1 st k s rest); auto.
    + apply (IHr2 st k s rest); auto.
  - rewrite Hr. apply star_greedy_complete; auto.
  - rewrite Hr. apply star_lazy_complete; auto.
  - apply (IHr st _ s rest); auto.
  - destruct Hm as [-> ->]. simpl. apply Hk; simpl; auto.
  - destruct Hm as [-> ->]. simpl in Hr. rewrite Hr. apply Hk; simpl; auto.
Qed.
End MatcherFacts.

(* ===================================================================== *)
(** * Finding a match                                                     *)
(* ===================================================================== *)

Lemma match_at_spec ic r pos s :
  match_at ic r pos s <> None <->
  exists s1 rest, s = s1 ++ rest /\ Matches ic r pos s1 rest.
Proof.
  unfold match_at. split.
  - destruct (rmatch ic r (MState pos s []) Some) as [st|] eqn:H; [intros _|congruence].
    destruct (rmatch_sound ic r _ _ _ H) as (s1 & rest & st' & Hr & Hm & _).
    simpl in *. eauto.
  - intros (s1 & rest & Hs & Hm).
    assert (Hc : rmatch ic r (MState pos s []) Some <> None).
    { apply (rmatch_complete ic r _ _ s1 rest); simpl; auto; discriminate. }
    destruct (rmatch ic r (MState pos s []) Some); congruence.
Qed.

Lemma search_from_spec ic r :
  forall s pos,
    search_from ic r pos s <> None <->
    exists pre s1 rest, s = pre ++ s1 ++ rest
                        /\ Matches ic r (pos + List.length pre) s1 rest.
Proof.
  induction s as [|c t IH]; intros pos; simpl.
  - destruct (match_at ic r pos []) eqn:Hm.
    + split; [intros _|discriminate].
      assert (Hn : match_at ic r pos [] <> None) by congruence.
      apply match_at_spec in Hn. destruct Hn as (s1 & rest & Hs & HM).
      exists [], s1, rest. simpl. rewrite Nat.add_0_r. auto.
    + split; [congruence|]. intros (pre & s1 & rest & Hs & HM).
      destruct pre; [|discriminate]. simpl in *. rewrite Nat.add_0_r in HM.
      exfalso. assert (Hn : match_at ic r pos [] <> None) by (apply match_at_spec; eauto).
      congruence.
  - destruct (match_at ic r pos (c :: t)) eqn:Hm.
    + split; [intros _|discriminate].
      assert (Hn : match_at ic r pos (c :: t) <> None) by congruence.
      apply match_at_spec in Hn. destruct Hn as (s1 & rest & Hs & HM).
      exists [], s1, rest. simpl. rewrite Nat.add_0_r. auto.
    + rewrite IH. split.
      * intros (pre & s1 & rest & Hs & HM). exists (c :: pre), s1, rest. simpl.
        subst t. split; auto. now replace (pos + S (List.length pre)) with (S pos + List.length pre) by lia.
      * intros (pre & s1 & rest & Hs & HM). destruct pre as [|c' pre].
        -- simpl in *. rewrite Nat.add_0_r in HM. exfalso.
           assert (Hn : match_at ic r pos (c :: t) <> None) by (apply match_at_spec; eauto).
           congruence.
        -- simpl in Hs. inversion Hs; subst. exists pre, s1, rest. split; auto.
           simpl in HM. now replace (S pos + List.length pre) with (pos + S (List.length pre)) by lia.
Qed.

(** [r.test(s)] holds exactly when the pattern matches somewhere in [s]. *)
Lemma test_spec ic r s :
  test ic r s = true <->
  exists pre s1 rest, s = pre ++ s1 ++ rest /\ Matches ic r (List.length pre) s1 rest.
Proof.
  unfold test, search. rewrite <- (search_from_spec ic r s 0).
  destruct (search_from ic r 0 s); split; congruence.
Qed.

(* ===================================================================== *)
(** * Literal patterns and letter case                                    *)
(* ===================================================================== *)

Lemma Matches_rlit ic a : forall pos s rest,
  Matches ic (rlit a) pos s rest <-> lit_eq ic a s.
Proof.
  unfold lit_eq. induction a as [|c a IH]; intros pos s rest; simpl.
  - split; [intros ->; constructor | intros H; now inversion H].
  - split.
    + intros (s1 & s2 & -> & (x & -> & Hc) & Hm). simpl. constructor; auto.
      eapply IH; eauto.
    + intros H. inversion H as [|c' x a' s' Hc Hr]; subst.
      exists [x], s'. repeat split; eauto. eapply IH; eauto.
Qed.

(** Against a pattern character that is not an upper-case letter, matching
    with the [i] flag is comparing the lowered text character. *)
Lemma char_eq_lower c x :
  is_upper c = false -> char_eq true c x = (to_lower_cu x =? c)%N.
Proof.
  unfold is_upper, char_eq, canonicalize, to_lower_cu. intros H.
  destruct (N.leb_spec 65 c), (N.leb_spec c 90); simpl in H; try discriminate;
    repeat match goal with
           | |- context [(?a <=? ?b)%N] => destruct (N.leb_spec a b); simpl
           end;
    repeat match goal with
           | |- context [(?a =? ?b)%N] => destruct (N.eqb_spec a b)
           end; try reflexivity; try lia.
Qed.

Lemma lit_eq_app ic a b s t : lit_eq ic a s -> lit_eq ic b t -> lit_eq ic (a ++ b) (s ++ t).
Proof. unfold lit_eq. apply List.Forall2_app. Qed.

Lemma lit_eq_app_inv ic a b s :
  lit_eq ic (a ++ b) s -> exists s1 s2, s = s1 ++ s2 /\ lit_eq ic a s1 /\ lit_eq ic b s2.
Proof.
  unfold lit_eq. intros H. apply List.Forall2_app_inv_l in H.
  destruct H as (s1 & s2 & H1 & H2 & ->). eauto.
Qed.

(** A pattern without stars and anchors matches exactly its words. *)
Lemma Matches_words ic (r : regex) :
  forall ws pos s rest,
    words r = Some ws ->
    (Matches ic r pos s rest <-> exists w0, In w0 ws /\ lit_eq ic w0 s).
Proof.
  induction r; intros ws pos s rest Hw; simpl in Hw; try discriminate.
  - inversion Hw; subst. simpl. split.
    + intros (x & -> & Hc). exists [c]. split; auto. repeat constructor. auto.
    + intros (w0 & [<-|[]] & H). inversion H as [|? x ? s' Hc Hr]; subst.
      inversion Hr; subst. eauto.
  - inversion Hw; subst. simpl. split.
    + intros ->. exists []. split; auto. constructor.
    + intros (w0 & [<-|[]] & H). now inversion H.
  - destruct (words r1) as [a|] eqn:H1; [|discriminate].
    destruct (words r2) as [b|] eqn:H2; [|discriminate].
    inversion Hw; subst. simpl. split.
    + intros (s1 & s2 & -> & Hm1 & Hm2).
      apply (IHr1 a) in Hm1; auto. apply (IHr2 b) in Hm2; auto.
      destruct Hm1 as (w1 & Hin1 & Hl1). destruct Hm2 as (w2 & Hin2 & Hl2).
      exists (w1 ++ w2). split; [|now apply lit_eq_app].
      apply List.in_flat_map. exists w1. split; auto. apply List.in_map. auto.
    + intros (w0 & Hin & Hl). apply List.in_flat_map in Hin.
      destruct Hin as (w1 & Hin1 & Hin). apply List.in_map_iff in Hin.
      destruct Hin as (w2 & <- & Hin2).
      apply lit_eq_app_inv in Hl. destruct Hl as (s1 & s2 & -> & Hl1 & Hl2).
      exists s1, s2. split; auto. split.
      * apply (IHr1 a); eauto.
      * apply (IHr2 b); eauto.
  - destruct (words r1) as [a|] eqn:H1; [|discriminate].
    destruct (words r2) as [b|] eqn:H2; [|discriminate].
    inversion Hw; subst. simpl. rewrite (IHr1 a), (IHr2 b); auto. split.
    + intros [(w0 & Hin & Hl)|(w0 & Hin & Hl)]; exists w0; split; auto;
        apply List.in_or_app; auto.
    + intros (w0 & Hin & Hl). apply List.in_app_or in Hin. destruct Hin; eauto.
  - simpl. apply IHr. auto.
Qed.

Lemma lit_eq_lower a : forall s,
  no_upper a = true -> (lit_eq true a s <-> toLowerCase s = a).
Proof.
  unfold lit_eq, no_upper, toLowerCase.
  induction a as [|c a IH]; intros s Hn; cbn [forallb] in Hn.
  - split.
    + intros H. inversion H. reflexivity.
    + destruct s; [constructor|discriminate].
  - apply andb_prop in Hn. destruct Hn as [Hc Ha].
    apply negb_true_iff in Hc. split.
    + intros H. inversion H as [|? x ? s' Hx Hr]; subst. simpl.
      rewrite char_eq_lower in Hx by auto. apply N.eqb_eq in Hx.
      f_equal; auto. now apply IH.
    + destruct s as [|x s']; [discriminate|]. cbn [List.map]. intros Heq.
      inversion Heq; subst. constructor.
      * rewrite char_eq_lower by auto. apply N.eqb_refl.
      * apply IH; auto.
Qed.

Lemma to_lower_dot x : to_lower_cu x = 46%N <-> x = 46%N.
Proof.
  unfold to_lower_cu.
  destruct (N.leb_spec 65 x), (N.leb_spec x 90); simpl; lia.
Qed.

(** A test for [.] followed by one of finitely many lower-case words at the
    end of the input. *)
Lemma dot_words_test (r : regex) (ws : list jsstr) (l : jsstr) :
  words r = Some ws -> forallb no_upper ws = true ->
  (test true (rseq [RChar 46; r; REnd]) l = true <->
   exists stem e, l = stem ++ 46%N :: e /\ In (toLowerCase e) ws).
Proof.
  intros Hw Hlow. rewrite test_spec. unfold rseq. simpl fold_right. split.
  - intros (pre & s1 & rest & -> & Hm). cbn [Matches] in Hm.
    destruct Hm as (sa & sb & -> & (x & -> & Hx) & sc & sd & -> & Hr & se & sf
                    & -> & (-> & Hrest) & ->).
    simpl in Hrest. subst rest.
    rewrite char_eq_lower in Hx by reflexivity. apply N.eqb_eq in Hx.
    apply (proj1 (to_lower_dot x)) in Hx. subst x.
    apply (Matches_words true r ws) in Hr; auto.
    destruct Hr as (w0 & Hin & Hl).
    apply lit_eq_lower in Hl.
    + exists pre, sc. split.
      * simpl. now rewrite !List.app_nil_r.
      * now rewrite Hl.
    + rewrite forallb_forall in Hlow. auto.
  - intros (stem & e & -> & Hin).
    exists stem, (46%N :: e), []. split; [now rewrite List.app_nil_r|].
    cbn [Matches]. exists [46%N], e. repeat split.
    + exists 46%N. auto.
    + exists e, []. split; [now rewrite List.app_nil_r|]. split.
      * apply (Matches_words true r ws); auto. exists (toLowerCase e). split; auto.
        apply lit_eq_lower; auto. rewrite forallb_forall in Hlow. auto.
      * exists [], []. auto.
Qed.

(* ===================================================================== *)
(** * Extensions                                                          *)
(* ===================================================================== *)

Lemma split_last_app sep stem e :
  existsb (N.eqb sep) e = false -> split_last sep (stem ++ sep :: e) = e.
Proof.
  intros He. induction stem as [|c stem IH]; simpl.
  - rewrite He, N.eqb_refl. reflexivity.
  - rewrite existsb_app. simpl. rewrite N.eqb_refl, orb_true_r. simpl. exact IH.
Qed.

Lemma split_last_decomp sep l :
  existsb (N.eqb sep) l = true ->
  exists stem, l = stem ++ sep :: split_last sep l
               /\ existsb (N.eqb sep) (split_last sep l) = false.
Proof.
  induction l as [|c t IH]; simpl; [discriminate|]. intros H.
  destruct (existsb (N.eqb sep) t) eqn:Ht.
  - destruct (IH eq_refl) as (stem & Heq & Hno). exists (c :: stem). split; auto.
    simpl. now rewrite <- Heq.
  - rewrite orb_false_r in H. apply N.eqb_eq in H. subst c.
    rewrite N.eqb_refl. exists []. auto.
Qed.

Lemma existsb_dot_lower e :
  existsb (N.eqb 46) (toLowerCase e) = existsb (N.eqb 46) e.
Proof.
  unfold toLowerCase. induction e as [|x e IH]; cbn [List.map existsb]; auto.
  rewrite IH. f_equal.
  destruct (N.eqb_spec 46 (to_lower_cu x)) as [E|E], (N.eqb_spec 46 x) as [E'|E']; auto.
  - symmetry in E. apply (proj1 (to_lower_dot x)) in E. congruence.
  - exfalso. apply E. symmetry. apply (proj2 (to_lower_dot x)). auto.
Qed.

(** Ending with a dot and a dot-free word is having that word as the
    extension. *)
Lemma dot_suffix_extension (ws : list jsstr) (l : jsstr) :
  forallb (fun w0 => negb (includes_cu 46 w0)) ws = true ->
  ((exists stem e, l = stem ++ 46%N :: e /\ In (toLowerCase e) ws)
   <-> has_extension_in ws l).
Proof.
  intros Hnd. rewrite forallb_forall in Hnd. unfold has_extension_in, extension_of.
  split.
  - intros (stem & e & -> & Hin). exists e. split; auto.
    assert (He : existsb (N.eqb 46) e = false).
    { rewrite <- existsb_dot_lower. specialize (Hnd _ Hin).
      apply negb_true_iff in Hnd. exact Hnd. }
    unfold includes_cu. rewrite existsb_app. simpl. rewrite orb_true_r.
    now rewrite split_last_app.
  - intros (e & He & Hin). unfold includes_cu in He.
    destruct (existsb (N.eqb 46) l) eqn:Hd; [|discriminate].
    inversion He; subst. destruct (split_last_decomp _ _ Hd) as (stem & Heq & _).
    eauto.
Qed.

Lemma isImage_spec l : isImage l = true <-> has_extension_in image_extensions l.
Proof.
  unfold isImage, imageExt.
  match goal with
  | |- test true (rseq [RChar 46; ?r; REnd]) l = true <-> _ =>
      pose proof (dot_words_test r
        (List.map lit ["png"; "jpeg"; "jpg"; "gif"; "webp"; "bmp"; "svg"; "pdf"]%string)
        l eq_refl eq_refl) as H
  end.
  rewrite H. rewrite <- dot_suffix_extension by reflexivity.
  split; intros (stem & e & Hl & Hin); exists stem, e; split; auto;
    simpl in Hin |- *; tauto.
Qed.

Lemma check_internal_image t r : check_internal t = Some r -> isImage (link r) = true.
Proof.
  unfold check_internal. destruct (search false internalEmbed t); [|discriminate].
  destruct (isImage _) eqn:Hi; [|discriminate]. intros H. inversion H; subst. exact Hi.
Qed.

Lemma check_markdown_image t r : check_markdown t = Some r -> isImage (link r) = true.
Proof.
  unfold check_markdown. destruct (search false markdownEmbed t); [|discriminate].
  destruct (isImage _) eqn:Hi; [|discriminate]. intros H. inversion H; subst. exact Hi.
Qed.

Lemma check_text_image t r : check_text t = Some r -> isImage (link r) = true.
Proof.
  unfold check_text. destruct (check_internal t) eqn:H1.
  - intros H. inversion H; subst. eapply check_internal_image; eauto.
  - apply check_markdown_image.
Qed.

Lemma scan_lines_image ed : forall i r, scan_lines ed i = Some r -> isImage (link r) = true.
Proof.
  induction i as [|i IH]; intros r; simpl.
  - destruct (check_text (getLine ed 0)) eqn:H1; intros H;
      [inversion H; subst; eapply check_text_image; eauto | discriminate].
  - destruct (check_text (getLine ed (S i))) eqn:H1; intros H;
      [inversion H; subst; eapply check_text_image; eauto | eauto].
Qed.

Lemma findRelevantImageEmbed_image ed r :
  findRelevantImageEmbed ed = Some r -> isImage (link r) = true.
Proof.
  unfold findRelevantImageEmbed. destruct (check_text (getSelection ed)) eqn:H1.
  - intros H. inversion H; subst. eapply check_text_image; eauto.
  - apply scan_lines_image.
Qed.

(** C9.  [isImage] holds of a link exactly when the link has an extension
    and that extension, compared without regard to letter case, is one of
    png, jpg, jpeg, gif, webp, bmp, svg, pdf; and whatever
    [findRelevantImageEmbed] returns has a link that satisfies [isImage], so
    a link with any other extension is never returned. *)
Theorem locator_image_filter (l : jsstr) (ed : Editor) :
  (isImage l = true <-> has_extension_in image_extensions l)
  /\ match findRelevantImageEmbed ed with
     | Some r => isImage (link r) = true
     | None => True
     end.
Proof.
  split; [apply isImage_spec|].
  destruct (findRelevantImageEmbed ed) eqn:H; auto.
  eapply findRelevantImageEmbed_image; eauto.
Qed.

Lemma locator_image_filter_witness :
  let ed := Demo.editor_with "see ![[notes.txt]] and ![shot](pics/shot.webp 'x')" in
  isImage (lit "scan.JPeG") = true
  /\ has_extension_in image_extensions (lit "scan.JPeG")
  /\ match findRelevantImageEmbed ed with
     | Some r => isImage (link r) = true
     | None => True
     end.
Proof.
  intros ed. destruct (locator_image_filter (lit "scan.JPeG") ed) as [H1 H2].
  split; [reflexivity|]. split; [apply H1; reflexivity | exact H2].
Defined.

Lemma folderImage_spec l :
  test true folderImageExt l = true <-> has_extension_in folder_extensions l.
Proof.
  unfold folderImageExt.
  match goal with
  | |- test true (rseq [RChar 46; ?r; REnd]) l = true <-> _ =>
      pose proof (dot_words_test r
        (List.map lit ["png"; "jpeg"; "jpg"; "webp"; "gif"; "bmp"; "svg"]%string)
        l eq_refl eq_refl) as H
  end.
  rewrite H. rewrite <- dot_suffix_extension by reflexivity.
  split; intros (stem & e & Hl & Hin); exists stem, e; split; auto;
    simpl in Hin |- *; tauto.
Qed.



(* ===================================================================== *)
(** * Running computations                                                *)
(* ===================================================================== *)

Lemma result_bind_ret {A B} (c : M A) (f : A -> M B) a :
  result c = Ret a -> result (bind c f) = result (f a).
Proof.
  destruct c as [tr o]. simpl. intros ->. simpl. destruct (f a). reflexivity.
Qed.

Lemma result_bind_throw {A B} (c : M A) (f : A -> M B) e :
  result c = Throw e -> result (bind c f) = Throw e.
Proof. destruct c as [tr o]. simpl. intros ->. reflexivity. Qed.

Lemma result_try_ret {A} (c : M A) h a :
  result c = Ret a -> result (try_catch c h) = Ret a.
Proof. destruct c as [tr o]. simpl. intros ->. reflexivity. Qed.

Lemma result_try_throw {A} (c : M A) h e :
  result c = Throw e -> result (try_catch c h) = result (h e).
Proof. destruct c as [tr o]. simpl. intros ->. simpl. destruct (h e). reflexivity. Qed.

Lemma trace_bind {A B} (c : M A) (f : A -> M B) :
  trace (bind c f) =
  trace c ++ match result c with Ret a => trace (f a) | Throw _ => [] end.
Proof.
  destruct c as [tr [a|e]]; simpl.
  - destruct (f a). reflexivity.
  - now rewrite List.app_nil_r.
Qed.

Lemma trace_try {A} (c : M A) h :
  trace (try_catch c h) =
  trace c ++ match result c with Ret _ => [] | Throw e => trace (h e) end.
Proof.
  destruct c as [tr [a|e]]; simpl.
  - now rewrite List.app_nil_r.
  - destruct (h e). reflexivity.
Qed.

(* ===================================================================== *)
(** * The PDF rasterizer                                                  *)
(* ===================================================================== *)

Lemma strip_png_prefix (b : jsstr) :
  replace_first false pngDataUrlPrefix [] (lit "data:image/png;base64," ++ b) = b.
Proof. reflexivity. Qed.

Lemma renderOne_result doc scale ptp p :
  result (renderOne doc scale ptp p) = Ret (page_image doc scale p).
Proof.
  unfold renderOne, page_image. destruct (renderPage doc p scale); reflexivity.
Qed.

Lemma renderLoop_result doc scale ptp :
  forall count p acc,
    result (renderLoop doc scale ptp count p acc)
    = Ret (acc ++ keep_some (page_image doc scale) (page_numbers p count)).
Proof.
  induction count as [|n IH]; intros p acc; simpl.
  - now rewrite List.app_nil_r.
  - rewrite (result_bind_ret _ _ _ (renderOne_result doc scale ptp p)).
    rewrite IH. destruct (page_image doc scale p); auto.
    now rewrite <- List.app_assoc.
Qed.

Lemma convertPdfToImages_result w buffer scale maxPages doc :
  getDocument w buffer = Ret doc ->
  result (convertPdfToImages w buffer scale maxPages)
  = Ret (keep_some (page_image doc scale)
           (page_numbers 1 (Z.to_nat (Z.min (Z.of_N (numPages doc)) maxPages)))).
Proof.
  intros Hd. unfold convertPdfToImages. unfold bind at 1. simpl.
  rewrite Hd. simpl.
  match goal with
  | |- context [renderLoop ?d ?s ?ptp ?c ?p ?acc] =>
      pose proof (renderLoop_result d s ptp c p acc) as H;
      destruct (renderLoop d s ptp c p acc) as [tr o]
  end.
  simpl in *. exact H.
Qed.

Lemma keep_some_length {A B} (f : A -> option B) l :
  List.length (keep_some f l) <= List.length l.
Proof. induction l as [|x t IH]; simpl; auto. destruct (f x); simpl; lia. Qed.

Lemma page_numbers_length p n : List.length (page_numbers p n) = n.
Proof. revert p. induction n; intros p; simpl; auto. Qed.

Lemma page_numbers_In n : forall p q,
  In q (page_numbers p n) <-> (p <= q < p + Z.of_nat n)%Z.
Proof.
  induction n as [|n IH]; intros p q; simpl page_numbers.
  - simpl. lia.
  - simpl In. rewrite IH. lia.
Qed.

Lemma page_numbers_sorted n : forall p, StronglySorted Z.lt (page_numbers p n).
Proof.
  induction n as [|n IH]; intros p; simpl; constructor; auto.
  apply List.Forall_forall. intros q Hq. apply page_numbers_In in Hq. lia.
Qed.

Lemma kept_page_numbers doc scale l :
  List.map pageNumber (keep_some (page_image doc scale) l)
  = List.filter (rendered doc scale) l.
Proof.
  induction l as [|p t IH]; simpl; auto.
  unfold page_image, rendered in *. destruct (renderPage doc p scale); simpl; auto.
  now rewrite IH.
Qed.

Lemma filter_sorted {A} (R : A -> A -> Prop) (f : A -> bool) l :
  StronglySorted R l -> StronglySorted R (List.filter f l).
Proof.
  induction 1 as [|x t Hs IH Hall]; simpl; [constructor|].
  destruct (f x); auto. constructor; auto.
  rewrite List.Forall_forall in *. intros y Hy. apply List.filter_In in Hy. apply Hall, Hy.
Qed.

(** C4.  For a document that loads and a positive [maxPages],
    [convertPdfToImages] returns a list of at most
    [min(totalPages, maxPages)] page images whose page numbers are strictly
    increasing; the numbers returned are exactly those pages of
    [1..min(totalPages, maxPages)] that rendered, so a page that fails is
    left out alone: the pages after it are still rendered and keep their
    own numbers. *)
Theorem rasterizer_page_bound (w : World) (buffer : bytes) (scale : Q)
    (maxPages : Z) (doc : PdfDocument) :
  (0 < maxPages)%Z ->
  getDocument w buffer = Ret doc ->
  let bound := Z.min (Z.of_N (numPages doc)) maxPages in
  exists images,
    result (convertPdfToImages w buffer scale maxPages) = Ret images
    /\ (Z.of_nat (List.length images) <= bound)%Z
    /\ StronglySorted Z.lt (List.map pageNumber images)
    /\ (forall p, In p (List.map pageNumber images)
                  <-> (1 <= p <= bound)%Z /\ rendered doc scale p = true).
Proof.
  intros Hpos Hdoc bound. eexists. split.
  - apply convertPdfToImages_result. exact Hdoc.
  - fold bound. repeat split.
    + pose proof (keep_some_length (page_image doc scale)
                    (page_numbers 1 (Z.to_nat bound))) as Hl.
      rewrite page_numbers_length in Hl. subst bound. lia.
    + rewrite kept_page_numbers. apply filter_sorted, page_numbers_sorted.
    + rewrite kept_page_numbers in H. apply List.filter_In in H.
      destruct H as [H _]. apply page_numbers_In in H. lia.
    + rewrite kept_page_numbers in H. apply List.filter_In in H.
      destruct H as [H _]. apply page_numbers_In in H. subst bound. lia.
    + rewrite kept_page_numbers in H. apply List.filter_In in H. tauto.
    + intros [Hr Hp]. rewrite kept_page_numbers. apply List.filter_In. split; auto.
      apply page_numbers_In. subst bound. lia.
Qed.

(* ===================================================================== *)
(** * Base64                                                              *)
(* ===================================================================== *)

(** Decide every comparison of the goal that linear arithmetic settles. *)
Ltac decide_cmp :=
  repeat (first
    [ match goal with
      | |- context [(?a <=? ?b)%N] =>
          first [ rewrite (proj2 (N.leb_le a b)) by lia
                | rewrite (proj2 (N.leb_gt a b)) by lia ]
      | |- context [(?a <? ?b)%N] =>
          first [ rewrite (proj2 (N.ltb_lt a b)) by lia
                | rewrite (proj2 (N.ltb_ge a b)) by lia ]
      | |- context [(?a =? ?b)%N] =>
          first [ rewrite (proj2 (N.eqb_eq a b)) by lia
                | rewrite (proj2 (N.eqb_neq a b)) by lia ]
      end
    | progress cbn [andb orb negb]
    | progress cbv iota ]).

Ltac split_sextet n :=
  destruct (N.ltb_spec n 26);
  [| destruct (N.ltb_spec n 52);
     [| destruct (N.ltb_spec n 62); [| destruct (N.eqb_spec n 62)]]].

Lemma b64_val_char n : (n < 64)%N -> b64_val (b64_char n) = Some n.
Proof.
  intros Hn. unfold b64_val, b64_char. split_sextet n; decide_cmp; f_equal; lia.
Qed.

Lemma b64_char_alphabet n :
  ((65 <= b64_char n <= 90) \/ (97 <= b64_char n <= 122)
   \/ (48 <= b64_char n <= 57) \/ b64_char n = 43 \/ b64_char n = 47)%N.
Proof. unfold b64_char. split_sextet n; decide_cmp; lia. Qed.

Lemma b64_char_not_pad n : (b64_char n =? pad)%N = false.
Proof.
  apply N.eqb_neq. pose proof (b64_char_alphabet n) as H. unfold pad. lia.
Qed.

(** Arithmetic on [N] with division and remainder by constants. *)
Ltac n_arith :=
  zify;
  repeat match goal with
         | |- context [Z.rem ?x ?y] =>
             rewrite (Z.rem_mod_nonneg x y) by (Z.div_mod_to_equations; lia)
         | H : context [Z.rem ?x ?y] |- _ =>
             rewrite (Z.rem_mod_nonneg x y) in H by (Z.div_mod_to_equations; lia)
         end;
  Z.div_mod_to_equations; lia.

Lemma sextets a b c :
  (a <= 255 -> b <= 255 -> c <= 255 ->
   a / 4 < 64 /\ a mod 4 * 16 + b / 16 < 64 /\ b mod 16 * 4 + c / 64 < 64
   /\ c mod 64 < 64 /\ a mod 4 * 16 < 64 /\ b mod 16 * 4 < 64
   /\ a / 4 * 4 + (a mod 4 * 16 + b / 16) / 16 = a
   /\ (a mod 4 * 16 + b / 16) mod 16 * 16 + (b mod 16 * 4 + c / 64) / 4 = b
   /\ (b mod 16 * 4 + c / 64) mod 4 * 64 + c mod 64 = c
   /\ a / 4 * 4 + (a mod 4 * 16) / 16 = a
   /\ (a mod 4 * 16 + b / 16) mod 16 * 16 + (b mod 16 * 4) / 4 = b)%N.
Proof. intros Ha Hb Hc. repeat split; n_arith. Qed.

Lemma list_ind3 {A} (P : list A -> Prop) :
  P [] -> (forall a, P [a]) -> (forall a b, P [a; b]) ->
  (forall a b c t, P t -> P (a :: b :: c :: t)) ->
  forall l, P l.
Proof.
  intros H0 H1 H2 H3.
  refine (fix go l := match l with
                      | [] => H0
                      | [a] => H1 a
                      | [a; b] => H2 a b
                      | a :: b :: c :: t => H3 a b c t (go t)
                      end).
Qed.

Lemma b64_encode_nil l : b64_encode l = [] -> l = [].
Proof. destruct l as [|a [|b [|c t]]]; simpl; congruence. Qed.

(** Decoding what was encoded gives the octets back. *)
Lemma b64_roundtrip : forall l, octets l -> b64_decode (b64_encode l) = Some l.
Proof.
  unfold octets. induction l as [| a | a b | a b c t IH] using list_ind3; intros Hl.
  - reflexivity.
  - inversion Hl as [|? ? Ha _]; subst.
    destruct (sextets a 0 0 Ha ltac:(lia) ltac:(lia))
      as (S1 & _ & _ & _ & S5 & _ & _ & _ & _ & E1 & _).
    cbn [b64_encode b64_decode]. rewrite !b64_val_char by assumption.
    rewrite !N.eqb_refl. now rewrite E1.
  - inversion Hl as [|? ? Ha Hl']; subst. inversion Hl' as [|? ? Hb _]; subst.
    destruct (sextets a b 0 Ha Hb ltac:(lia))
      as (S1 & S2 & _ & _ & _ & S6 & E1 & _ & _ & _ & E2).
    cbn [b64_encode b64_decode]. rewrite !b64_val_char by assumption.
    rewrite b64_char_not_pad, N.eqb_refl. now rewrite E1, E2.
  - inversion Hl as [|? ? Ha Hl1]; subst. inversion Hl1 as [|? ? Hb Hl2]; subst.
    inversion Hl2 as [|? ? Hc Hl3]; subst. specialize (IH Hl3).
    destruct (sextets a b c Ha Hb Hc)
      as (S1 & S2 & S3 & S4 & _ & _ & E1 & E2 & E3 & _ & _).
    cbn [b64_encode app].
    destruct (b64_encode t) as [|x rest] eqn:Ht.
    + apply b64_encode_nil in Ht. subst t.
      cbn [b64_decode]. rewrite !b64_val_char by assumption.
      rewrite !b64_char_not_pad. now rewrite E1, E2, E3.
    + cbn [b64_decode]. rewrite !b64_val_char by assumption.
      cbn [b64_decode] in IH. rewrite IH. cbn [app]. now rewrite E1, E2, E3.
Qed.

Lemma b64_encode_alphabet l x :
  In x (b64_encode l) ->
  ((65 <= x <= 90) \/ (97 <= x <= 122) \/ (48 <= x <= 57) \/ x = 43 \/ x = 47
   \/ x = 61)%N.
Proof.
  revert x. induction l as [| a | a b | a b c t IH] using list_ind3; intros x Hx.
  - destruct Hx.
  - cbn [b64_encode In] in Hx.
    repeat (destruct Hx as [<-|Hx];
            [first [pose proof (b64_char_alphabet (a / 4)); lia
                   | pose proof (b64_char_alphabet (a mod 4 * 16)); lia
                   | unfold pad; lia ]|]).
    destruct Hx.
  - cbn [b64_encode In] in Hx.
    repeat (destruct Hx as [<-|Hx];
            [first [pose proof (b64_char_alphabet (a / 4)); lia
                   | pose proof (b64_char_alphabet (a mod 4 * 16 + b / 16)); lia
                   | pose proof (b64_char_alphabet (b mod 16 * 4)); lia
                   | unfold pad; lia ]|]).
    destruct Hx.
  - cbn [b64_encode app In] in Hx.
    repeat (destruct Hx as [<-|Hx];
            [first [pose proof (b64_char_alphabet (a / 4)); lia
                   | pose proof (b64_char_alphabet (a mod 4 * 16 + b / 16)); lia
                   | pose proof (b64_char_alphabet (b mod 16 * 4 + c / 64)); lia
                   | pose proof (b64_char_alphabet (c mod 64)); lia ]|]).
    auto.
Qed.

Lemma startsWith_In p : forall s c, startsWith p s = true -> In c p -> In c s.
Proof.
  induction p as [|x p IH]; intros s c H Hc; [destruct Hc|].
  destruct s as [|y s]; simpl in H; [discriminate|].
  apply andb_prop in H. destruct H as [Hxy Hp]. apply N.eqb_eq in Hxy. subst y.
  destruct Hc as [<-|Hc]; [left; auto | right; eauto].
Qed.

Lemma includes_In p : forall s c, includes p s = true -> In c p -> In c s.
Proof.
  induction s as [|y s IH]; intros c H Hc; simpl in H.
  - rewrite orb_false_r in H. eapply startsWith_In; eauto.
  - apply orb_prop in H. destruct H as [H|H].
    + eapply startsWith_In; eauto.
    + right. eauto.
Qed.

(** Base64 text has no data-URL prefix: it holds no colon and no
    semicolon. *)
Lemma b64_no_data_url_prefix l :
  startsWith (lit "data:") (b64_encode l) = false
  /\ includes (lit ";base64,") (b64_encode l) = false.
Proof.
  split.
  - destruct (startsWith (lit "data:") (b64_encode l)) eqn:H; auto.
    assert (Hc : In 58%N (b64_encode l)).
    { eapply startsWith_In; eauto. simpl. tauto. }
    apply b64_encode_alphabet in Hc. lia.
  - destruct (includes (lit ";base64,") (b64_encode l)) eqn:H; auto.
    assert (Hc : In 59%N (b64_encode l)).
    { eapply includes_In; eauto. simpl. tauto. }
    apply b64_encode_alphabet in Hc. lia.
Qed.

Lemma binary_string (buffer : bytes) : forall acc,
  fold_left (fun acc b => acc ++ [fromByte b]) buffer acc
  = acc ++ List.map fromByte buffer.
Proof.
  induction buffer as [|b t IH]; intros acc; simpl.
  - now rewrite List.app_nil_r.
  - rewrite IH, <- List.app_assoc. reflexivity.
Qed.

Lemma bytes_are_octets (buffer : bytes) : octets (List.map fromByte buffer).
Proof.
  unfold octets. apply List.Forall_forall. intros x Hx.
  apply List.in_map_iff in Hx. destruct Hx as (b & <- & _).
  apply Byte.to_N_bounded.
Qed.

(** The reduce and [btoa] never throw on the bytes of a buffer. *)
Lemma arrayBufferToBase64_ret (buffer : bytes) :
  arrayBufferToBase64 buffer = Ret (b64_encode (List.map fromByte buffer)).
Proof.
  unfold arrayBufferToBase64, btoa. rewrite binary_string. simpl app.
  replace (forallb (fun c => (c <=? 255)%N) (List.map fromByte buffer)) with true; auto.
  symmetry. apply forallb_forall. intros x Hx. apply N.leb_le.
  pose proof (bytes_are_octets buffer) as H. unfold octets in H.
  rewrite List.Forall_forall in H. auto.
Qed.

Lemma fetch_result w url :
  result (fetchExternalImageAsArrayBuffer w url) = Ret (fetched w url).
Proof.
  unfold fetchExternalImageAsArrayBuffer, fetched.
  destruct (requestUrl w url) as [resp|e]; simpl; auto.
  destruct (arrayBuffer resp) as [body|]; simpl.
  - destruct (status resp =? 200)%N; reflexivity.
  - destruct (status resp =? 200)%N; reflexivity.
Qed.

Lemma prepare_result w img :
  exists r,
    result (prepareImagePayload w img) = Ret r
    /\ match r, prepared_buffer w img with
       | None, None => True
       | Some p, Some buffer =>
           base64 p = b64_encode (List.map fromByte buffer)
           /\ size p = byteLength buffer
       | _, _ => False
       end.
Proof.
  unfold prepareImagePayload, prepared_buffer, prepare_fails.
  destruct (Image.isExternal img).
  - pose proof (fetch_result w (source img)) as Hf.
    destruct (fetchExternalImageAsArrayBuffer w (source img)) as [tr o].
    simpl in Hf. subst o.
    destruct (fetched w (source img)) as [buffer|]; simpl.
    + destruct (decodeURIComponent w (split_last 47 (source img))) as [d|e]; simpl.
      * rewrite arrayBufferToBase64_ret. simpl. eexists. split; [reflexivity|].
        simpl. auto.
      * eexists. split; [reflexivity|]. simpl. auto.
    + eexists. split; [reflexivity|]. simpl. auto.
  - destruct (file img) as [f|]; simpl.
    + destruct (readBinary w f) as [buffer|e]; simpl.
      * rewrite arrayBufferToBase64_ret. simpl. eexists. split; [reflexivity|].
        simpl. auto.
      * eexists. split; [reflexivity|]. simpl. auto.
    + eexists. split; [reflexivity|]. simpl. auto.
Qed.

(** C6.  [prepareImagePayload] never throws, for a local and for an
    external reference alike: it always returns, and it returns null exactly
    when the preparation failed (the fetch failed, the file handle is
    missing, the read failed, the name could not be decoded). *)
Theorem prepare_never_throws (w : World) (img : CollectedImage) :
  exists r,
    result (prepareImagePayload w img) = Ret r
    /\ (r = None <-> prepare_fails w img = true).
Proof.
  destruct (prepare_result w img) as (r & Hr & Hm). exists r. split; auto.
  unfold prepared_buffer in Hm.
  destruct (prepare_fails w img) eqn:Hf.
  - destruct r; [destruct Hm | tauto].
  - destruct r as [p|]; [split; congruence|].
    exfalso. unfold prepare_fails in Hf.
    destruct (Image.isExternal img).
    + destruct (fetched w (source img)); [destruct Hm | discriminate].
    + destruct (file img) as [f|]; [|discriminate].
      destruct (readBinary w f); [destruct Hm | discriminate].
Qed.

Lemma prepare_never_throws_witness :
  let img := {| source := lit "https://example.org/a%20b.png"; file := None;
                Image.isExternal := true |} in
  exists r,
    result (prepareImagePayload Demo.world img) = Ret r
    /\ (r = None <-> prepare_fails Demo.world img = true).
Proof. intros img. exact (prepare_never_throws Demo.world img). Defined.

Lemma keep_some_In {A B} (f : A -> option B) l y :
  In y (keep_some f l) -> exists x, In x l /\ f x = Some y.
Proof.
  induction l as [|x t IH]; simpl; [tauto|].
  destruct (f x) eqn:Hf.
  - intros [<-|H]; eauto. destruct (IH H) as (x' & ? & ?). eauto.
  - intros H. destruct (IH H) as (x' & ? & ?). eauto.
Qed.

Lemma convertPdfToImages_load_failure w buffer scale maxPages e :
  getDocument w buffer = Throw e ->
  exists e', result (convertPdfToImages w buffer scale maxPages) = Throw e'.
Proof.
  intros Hd. unfold convertPdfToImages. simpl. rewrite Hd. simpl.
  destruct (exn_message e) as [m|]; simpl.
  - destruct (includes (lit "password") m); simpl; eauto.
  - eauto.
Qed.

(** C7.  The [size] of a prepared image is the length in bytes of what its
    [base64] text decodes to, and that text has no data-URL prefix; the
    [base64] text of a rasterized page is the canvas data URL with its
    prefix removed, and has no data-URL prefix either. *)
Theorem prepared_image_size_and_base64 :
  (forall (w : World) (img : CollectedImage) (p : PreparedImage),
      result (prepareImagePayload w img) = Ret (Some p) ->
      exists decoded,
        b64_decode (base64 p) = Some decoded
        /\ size p = N.of_nat (List.length decoded)
        /\ startsWith (lit "data:") (base64 p) = false
        /\ includes (lit ";base64,") (base64 p) = false)
  /\ (forall (w : World) (buffer : bytes) (scale : Q) (maxPages : Z)
             (images : list PDFPageImage) (page : PDFPageImage),
         result (convertPdfToImages w buffer scale maxPages) = Ret images ->
         In page images ->
         exists png,
           toDataURL png = lit "data:image/png;base64," ++ pbase64 page
           /\ startsWith (lit "data:") (pbase64 page) = false
           /\ includes (lit ";base64,") (pbase64 page) = false).
Proof.
  split.
  - intros w img p Hp.
    destruct (prepare_result w img) as (r & Hr & Hm).
    rewrite Hp in Hr. inversion Hr; subst r.
    destruct (prepared_buffer w img) as [buffer|]; [|destruct Hm].
    destruct Hm as [Hb Hs]. exists (List.map fromByte buffer).
    rewrite Hb, Hs. repeat split.
    + apply b64_roundtrip, bytes_are_octets.
    + unfold byteLength. now rewrite List.length_map.
    + apply b64_no_data_url_prefix.
    + apply b64_no_data_url_prefix.
  - intros w buffer scale maxPages images page Hres Hin.
    destruct (getDocument w buffer) as [doc|e] eqn:Hd.
    + rewrite (convertPdfToImages_result _ _ _ _ _ Hd) in Hres.
      inversion Hres; subst images. apply keep_some_In in Hin.
      destruct Hin as (n & _ & Hn). unfold page_image in Hn.
      destruct (renderPage doc n scale) as [| | |r]; try discriminate.
      inversion Hn; subst page. simpl. exists (pr_png r). repeat split.
      * apply b64_no_data_url_prefix.
      * apply b64_no_data_url_prefix.
    + destruct (convertPdfToImages_load_failure w buffer scale maxPages e Hd) as (e' & He).
      rewrite He in Hres. discriminate.
Qed.

(* ===================================================================== *)
(** * Which events a computation can emit                                 *)
(* ===================================================================== *)

Section Only.
Context {A B : Type}.
Variable P : event -> Prop.

Lemma only_ret (a : A) : only P (ret a).
Proof. constructor. Qed.

Lemma only_throw e : only P (@throw A e).
Proof. constructor. Qed.

Lemma only_lift (o : outcome A) : only P (lift o).
Proof. constructor. Qed.

Lemma only_emit ev : P ev -> only P (emit ev).
Proof. intros H. repeat constructor. exact H. Qed.

Lemma only_bind (c : M A) (f : A -> M B) :
  only P c -> (forall a, result c = Ret a -> only P (f a)) -> only P (bind c f).
Proof.
  unfold only. rewrite trace_bind. intros Hc Hf. apply List.Forall_app. split; auto.
  destruct (result c) eqn:Hr; [apply Hf; reflexivity | constructor].
Qed.

Lemma only_try (c : M A) (h : exn -> M A) :
  only P c -> (forall e, only P (h e)) -> only P (try_catch c h).
Proof.
  unfold only. rewrite trace_try. intros Hc Hh. apply List.Forall_app. split; auto.
  destruct (result c); [constructor | apply Hh].
Qed.
End Only.

Lemma only_weaken {A} (P Q : event -> Prop) (c : M A) :
  (forall ev, P ev -> Q ev) -> only P c -> only Q c.
Proof. unfold only. intros H. apply List.Forall_impl. exact H. Qed.

(** Break a computation into its steps; what remains are the steps that
    matter. *)
Ltac only_step :=
  match goal with
  | |- only _ (ret _) => apply only_ret
  | |- only _ (throw _) => apply only_throw
  | |- only _ (lift _) => apply only_lift
  | |- only _ (pluginLog _ _ _) => apply only_emit; exact I
  | |- only _ (pluginLogger _) => apply only_emit; exact I
  | |- only _ (emit (EvGetDocument _)) => apply only_emit; simpl
  | |- only _ (emit _) => apply only_emit; exact I
  | |- only _ (bind _ _) => apply only_bind; [| intros ? ?]
  | |- only _ (try_catch _ _) => apply only_try; [| intros ?]
  | |- only _ (match ?x with _ => _ end) => destruct x
  | |- only _ (let (_, _) := ?x in _) => destruct x
  end.

Ltac only_steps := repeat only_step.

Section NoParse.
Variable Q : bytes -> Prop.
Variables (w : World) (sv : Services) (settings : Settings).

Lemma fetch_only url : only (parses Q) (fetchExternalImageAsArrayBuffer w url).
Proof. unfold fetchExternalImageAsArrayBuffer. only_steps. Qed.

Lemma theProvider_only : only (parses Q) (theProvider sv settings).
Proof. unfold theProvider, getProvider. only_steps. Qed.

Lemma callExtract_only pv b64 : only (parses Q) (callExtract sv pv b64).
Proof. unfold callExtract. only_steps. Qed.

Lemma handle_only c ed ctx : only (parses Q) (handle sv settings c ed ctx).
Proof. unfold handle. only_steps. Qed.

Lemma ocrFailed_only e : only (parses Q) (ocrFailed e).
Proof. unfold ocrFailed. only_steps. Qed.

Lemma extractPages_only pv pages : forall i total acc,
  only (parses Q) (extractPages sv pv pages i total acc).
Proof.
  induction pages as [|page rest IH]; intros i total acc; cbn [extractPages].
  - only_steps.
  - only_step; [only_steps|]. only_step; [apply callExtract_only|]. apply IH.
Qed.

Lemma renderOne_only doc scale ptp p : only (parses Q) (renderOne doc scale ptp p).
Proof. unfold renderOne. only_steps. Qed.

Lemma renderLoop_only doc scale ptp : forall count p acc,
  only (parses Q) (renderLoop doc scale ptp count p acc).
Proof.
  induction count as [|n IH]; intros p acc; cbn [renderLoop].
  - only_steps.
  - only_step; [apply renderOne_only | apply IH].
Qed.

(** The rasterizer asks PDF.js to parse its own buffer, nothing else. *)
Lemma convertPdfToImages_only buffer scale maxPages :
  Q buffer -> only (parses Q) (convertPdfToImages w buffer scale maxPages).
Proof.
  intros HQ. unfold convertPdfToImages.
  only_step; [only_steps|]. only_step.
  - only_steps. exact HQ.
  - only_step; [only_steps|]. apply renderLoop_only.
Qed.

Lemma processPdfFile_only buffer l :
  Q buffer -> only (parses Q) (processPdfFile w sv settings buffer l).
Proof.
  intros HQ. unfold processPdfFile.
  only_step; [only_steps|]. only_step; [only_steps|]. only_step.
  - only_step; [apply convertPdfToImages_only; exact HQ|].
    only_step; [only_steps|].
    only_step; [apply theProvider_only|].
    only_step; [only_steps|].
    only_step; [apply extractPages_only|].
    only_step; [only_steps|].
    only_step; [only_steps|].
    only_step; [apply handle_only|]. only_steps.
  - only_steps.
Qed.

Lemma embeddedImageOcr_only ed ctxFile e buffer :
  only (parses Q) (embeddedImageOcr w sv settings ed ctxFile e buffer).
Proof.
  unfold embeddedImageOcr, getImageDimensionsFromArrayBuffer.
  only_step; [only_steps|]. only_step; [only_steps|].
  only_step; [apply theProvider_only|]. only_step; [only_steps|].
  only_step; [|apply ocrFailed_only].
  only_step; [apply callExtract_only|]. only_step; [only_steps|].
  destruct (truthy _); [|only_steps].
  destruct (selectionEmbedMatch _).
  - destruct (str_eqb _ _); [only_steps|].
    only_step; [apply handle_only|only_steps].
  - only_step; [apply handle_only|only_steps].
Qed.

Lemma loadEmbed_only e ctxFile : only (parses Q) (loadEmbed w e ctxFile).
Proof.
  unfold loadEmbed. only_step.
  - destruct (Embed.isExternal e).
    + only_step; [|only_steps]. only_step.
      * only_step; [apply fetch_only|only_steps].
      * only_steps.
    + only_steps.
  - only_steps.
Qed.

Lemma locateEmbed_only ed ctxFile : only (parses Q) (locateEmbed sv ed ctxFile).
Proof. unfold locateEmbed. only_steps. Qed.
End NoParse.

Lemma parsed_buffers_only {A} (Q : bytes -> Prop) (c : M A) b :
  only (parses Q) c -> In b (parsed_buffers (trace c)) -> Q b.
Proof.
  unfold only. induction (trace c) as [|ev t IH]; simpl; [tauto|].
  intros H. inversion H as [|? ? Hev Ht]; subst.
  destruct ev; simpl; auto. intros [<-|Hin]; auto.
Qed.

Lemma parsed_buffers_app a b :
  parsed_buffers (a ++ b) = parsed_buffers a ++ parsed_buffers b.
Proof.
  induction a as [|ev a IH]; simpl; auto. destruct ev; simpl; auto. now rewrite IH.
Qed.

Lemma parsed_bind {A B} (c : M A) (f : A -> M B) :
  parsed_buffers (trace (bind c f))
  = parsed_buffers (trace c)
    ++ match result c with Ret a => parsed_buffers (trace (f a)) | Throw _ => [] end.
Proof. rewrite trace_bind, parsed_buffers_app. destruct (result c); reflexivity. Qed.

Lemma parsed_try {A} (c : M A) h :
  parsed_buffers (trace (try_catch c h))
  = parsed_buffers (trace c)
    ++ match result c with Ret _ => [] | Throw e => parsed_buffers (trace (h e)) end.
Proof. rewrite trace_try, parsed_buffers_app. destruct (result c); reflexivity. Qed.

(** A run that asks for no parse at all. *)
Lemma parsed_none {A} (c : M A) :
  only (parses (fun _ => False)) c -> parsed_buffers (trace c) = [].
Proof.
  intros Hc. destruct (parsed_buffers (trace c)) as [|b t] eqn:Hb; auto.
  exfalso. apply (parsed_buffers_only _ c b Hc). rewrite Hb. left. reflexivity.
Qed.

(** The rasterizer asks PDF.js to parse its buffer once, whether the
    document loads or not. *)
Lemma convertPdfToImages_parses w buffer scale maxPages :
  parsed_buffers (trace (convertPdfToImages w buffer scale maxPages)) = [buffer].
Proof.
  unfold convertPdfToImages.
  rewrite parsed_bind. cbn [pluginLogger emit trace result fst snd parsed_buffers app].
  rewrite parsed_bind, parsed_try, parsed_bind.
  cbn [emit lift trace result fst snd parsed_buffers app].
  f_equal.
  assert (Hload : result (bind (emit (EvGetDocument buffer))
                            (fun _ => lift (getDocument w buffer)))
                  = getDocument w buffer).
  { rewrite (result_bind_ret _ _ tt) by reflexivity. reflexivity. }
  destruct (getDocument w buffer) as [doc|e].
  - rewrite Hload.
    match goal with
    | |- context [result (try_catch ?c ?h)] => rewrite (result_try_ret c h doc Hload)
    end.
    cbn [app]. apply parsed_none.
    only_step; [only_steps|]. apply renderLoop_only.
  - rewrite Hload.
    match goal with
    | |- context [result (try_catch ?c ?h)] => rewrite (result_try_throw c h e Hload)
    end.
    destruct (exn_message e) as [m|]; [destruct (includes _ m)|]; reflexivity.
Qed.

(** The PDF path asks for one parse, of its buffer. *)
Lemma processPdfFile_parses w sv settings buffer l :
  parsed_buffers (trace (processPdfFile w sv settings buffer l)) = [buffer].
Proof.
  unfold processPdfFile.
  rewrite parsed_bind. cbn [pluginLogger emit trace result fst snd parsed_buffers app].
  rewrite parsed_bind. cbn [emit trace result fst snd parsed_buffers app].
  rewrite parsed_try, parsed_bind, convertPdfToImages_parses.
  cbn [app]. f_equal.
  match goal with
  | |- ?a ++ ?b = [] => assert (Ha : a = []); [|assert (Hb : b = []); [|now rewrite Ha, Hb]]
  end.
  - destruct (result (convertPdfToImages w buffer _ _)) as [pageImages|e]; [|reflexivity].
    apply parsed_none. destruct pageImages as [|first rest]; [only_steps|].
    only_step; [apply theProvider_only|].
    only_step; [only_steps|].
    only_step; [apply extractPages_only|].
    only_step; [only_steps|].
    only_step; [only_steps|].
    only_step; [apply handle_only|]. only_steps.
  - match goal with |- match ?r with _ => _ end = [] => destruct r as [u|e] end;
      [reflexivity|].
    apply parsed_none. only_steps.
Qed.

(** Reading the embed gives the bytes of [read_embed] and asks for no
    parse. *)
Lemma loadEmbed_reads w e ctxFile buffer :
  read_embed w e ctxFile = Some buffer ->
  result (loadEmbed w e ctxFile) = Ret (Some buffer).
Proof.
  unfold read_embed, loadEmbed. destruct (Embed.isExternal e).
  - intros Hf. pose proof (fetch_result w (link e)) as Hr. rewrite Hf in Hr.
    destruct (fetchExternalImageAsArrayBuffer w (link e)) as [tr o].
    cbn [result snd] in Hr. subst o. reflexivity.
  - destruct (getFirstLinkpathDest w (link e) (nullish ctxFile [])) as [f|]; [|discriminate].
    unfold lift. destruct (readBinary w f) as [b|err]; [|discriminate].
    intros H. inversion H; subst. reflexivity.
Qed.

(** C2, as amended.  A buffer whose first five bytes are not [%PDF-] is
    handed to the PDF parser only when the located link itself ends in
    [.pdf]: for such a buffer under any other link no parse is attempted.
    And under a located link that ends in [.pdf] the bytes read for the
    embed are handed to the parser, once, whatever they begin with. *)
Theorem pdf_parse_gate (w : World) (sv : Services) (settings : Settings)
    (ed : Editor) (ctxFile : option jsstr) :
  let run := extractTextFromEmbeddedImage w sv settings ed ctxFile in
  (forall b,
     In b (parsed_buffers (trace run)) -> isPdfBuffer b = false ->
     exists e, result (locateEmbed sv ed ctxFile) = Ret (Some e)
               /\ isPdfFile (link e) = true)
  /\ (forall e buffer,
        result (locateEmbed sv ed ctxFile) = Ret (Some e) ->
        isPdfFile (link e) = true ->
        read_embed w e ctxFile = Some buffer ->
        parsed_buffers (trace run) = [buffer]).
Proof.
  intros run. subst run. split.
  - intros b Hin Hmagic.
    set (Q := fun b : bytes =>
                isPdfBuffer b = true
                \/ exists e, result (locateEmbed sv ed ctxFile) = Ret (Some e)
                             /\ isPdfFile (link e) = true).
    assert (Hall : only (parses Q) (extractTextFromEmbeddedImage w sv settings ed ctxFile)).
    { unfold extractTextFromEmbeddedImage.
      only_step; [only_steps|].
      apply only_bind; [apply locateEmbed_only|]. intros [e|] He; [|only_steps].
      apply only_bind; [apply loadEmbed_only|]. intros [buffer|] Hb; [|only_steps].
      destruct (isPdfFile (link e) || isPdfBuffer buffer) eqn:Hc.
      - apply processPdfFile_only. unfold Q. apply orb_prop in Hc.
        destruct Hc as [Hc|Hc]; [right; eauto | left; auto].
      - apply embeddedImageOcr_only. }
    destruct (parsed_buffers_only Q _ b Hall Hin) as [Hm|He]; [congruence | exact He].
  - intros e buffer Hloc Hpdf Hread. unfold extractTextFromEmbeddedImage.
    rewrite parsed_bind. cbn [pluginLogger emit trace result fst snd parsed_buffers app].
    rewrite parsed_bind, Hloc.
    rewrite (parsed_none (locateEmbed sv ed ctxFile)) by apply locateEmbed_only.
    rewrite parsed_bind, (loadEmbed_reads _ _ _ _ Hread).
    rewrite (parsed_none (loadEmbed w e ctxFile)) by apply loadEmbed_only.
    rewrite Hpdf. cbn [orb app]. apply processPdfFile_parses.
Qed.

(* ===================================================================== *)
(** * Provider selection                                                  *)
(* ===================================================================== *)

Lemma factory_keys settings fpn :
  (factory_table settings fpn).*1
  = List.map lit ["gemini"; "gemini-lite"; "gemini-pro"; "openai-mini"; "openai";
                  "openai-4.1"; "openai-4.1-mini"; "openai-4.1-nano"; "ollama";
                  "lmstudio"; "custom"]%string.
Proof. reflexivity. Qed.

Lemma factory_keys_NoDup settings fpn : NoDup (factory_table settings fpn).*1.
Proof.
  rewrite factory_keys. apply (@bool_decide_unpack _ (NoDup_dec _)). vm_compute. exact I.
Qed.

Lemma factories_lookup settings fpn id p :
  In (id, p) (factory_table settings fpn) -> factories settings fpn !! id = Some p.
Proof.
  intros Hin. unfold factories. apply elem_of_list_to_map_1.
  - apply factory_keys_NoDup.
  - apply list_elem_of_In. exact Hin.
Qed.

Lemma factories_unknown settings fpn id :
  ~ In id provider_ids -> factories settings fpn !! id = None.
Proof.
  intros Hn. unfold factories. apply not_elem_of_list_to_map_1.
  rewrite factory_keys. intros Hin. apply list_elem_of_In in Hin. apply Hn.
  unfold provider_ids. simpl in Hin |- *. tauto.
Qed.

Lemma or_else_nonempty a b : b <> [] -> or_else a b <> [].
Proof. destruct a; simpl; auto; discriminate. Qed.

Lemma factory_table_sound settings fpn :
  List.Forall
    (fun kp => p_prompt (snd kp) = providerPrompt settings
               /\ p_name (snd kp) = fpn settings (provider settings)
               /\ p_model (snd kp) <> [])
    (factory_table settings fpn).
Proof.
  unfold factory_table.
  repeat (apply List.Forall_cons;
          [cbn [snd p_prompt p_name p_model openAiFactory geminiFactory localFactory];
           repeat split; try (apply or_else_nonempty); discriminate |]).
  constructor.
Qed.

(** Every enumerated identifier selects a constructed provider. *)
Lemma getProvider_enumerated (settings : Settings) fpn :
  In (provider settings) provider_ids ->
  exists p, result (getProvider settings fpn) = Ret (Instance p)
            /\ p_prompt p = providerPrompt settings
            /\ p_name p = fpn settings (provider settings)
            /\ p_model p <> [].
Proof.
  intros Hin.
  assert (Hk : In (provider settings) (factory_table settings fpn).*1).
  { rewrite factory_keys. unfold provider_ids in Hin. simpl in Hin |- *. tauto. }
  apply List.in_map_iff in Hk. destruct Hk as ([k p] & Hfst & Hp). simpl in Hfst. subst k.
  exists p. split.
  - unfold getProvider, js_get. rewrite (factories_lookup _ _ _ _ Hp). reflexivity.
  - pose proof (factory_table_sound settings fpn) as Hs.
    rewrite List.Forall_forall in Hs. apply (Hs _ Hp).
Qed.

(** An identifier that is neither enumerated nor the name of a property of
    [Object.prototype] is rejected. *)
Lemma getProvider_unrecognised (settings : Settings) fpn :
  ~ In (provider settings) provider_ids ->
  object_prototype !! provider settings = None ->
  result (getProvider settings fpn) = Throw (Error (lit "Unknown provider")).
Proof.
  intros Hn Hp. unfold getProvider, js_get.
  rewrite (factories_unknown _ _ _ Hn), Hp. reflexivity.
Qed.

(** C5: at the identifier [constructor], which is not enumerated, the lookup
    finds the property inherited from [Object.prototype]; nothing is
    thrown and the result is not a provider. *)
Theorem getProvider_inherited_property :
  ~ In (lit "constructor") provider_ids
  /\ result (getProvider (Demo.with_provider (lit "constructor") DEFAULT_SETTINGS)
               (friendlyProviderName Demo.services))
     = Ret PlainObject.
Proof.
  split; [|reflexivity].
  unfold provider_ids. simpl. intros H.
  repeat (destruct H as [H|H]; [discriminate H|]). exact H.
Qed.

(* ===================================================================== *)
(** * The embedded-image command on a selected embed                      *)
(* ===================================================================== *)

Lemma document_effects_app a b :
  document_effects (a ++ b) = document_effects a ++ document_effects b.
Proof.
  induction a as [|ev a IH]; simpl; auto. destruct ev; simpl; rewrite ?IH; auto.
Qed.

Lemma theProvider_no_effect sv settings :
  document_effects (trace (theProvider sv settings)) = [].
Proof.
  unfold theProvider, getProvider. destruct (js_get _ _); reflexivity.
Qed.

Lemma diagram_located cursor lines :
  findRelevantImageEmbed (diagram_selection cursor lines) = Some diagram_embed.
Proof. reflexivity. Qed.

(** C8.  The selection is exactly [![[diagram.png]]], the file exists and
    is read, it is an image (its bytes do not begin with the PDF magic), the
    configured provider is constructed and answers [Hello world]: the
    command replaces the selection by exactly [Hello world] and does
    nothing else to the document.  This holds whatever the header and
    footer templates are, in particular for empty ones. *)
Theorem embedded_selection_replaced (w : World) (sv : Services) (settings : Settings)
    (cursor : nat) (lines : nat -> jsstr) (ctxFile : option jsstr)
    (f : TFile) (buffer : bytes) (p : Provider) :
  getFirstLinkpathDest w (lit "diagram.png") (nullish ctxFile []) = Some f ->
  readBinary w f = Ret buffer ->
  isPdfBuffer buffer = false ->
  result (theProvider sv settings) = Ret (Instance p) ->
  extractTextFromBase64 sv p (b64_encode (List.map fromByte buffer))
    = Ret (Some (lit "Hello world")) ->
  let run := extractTextFromEmbeddedImage w sv settings
               (diagram_selection cursor lines) ctxFile in
  result run = Ret tt
  /\ document_effects (trace run) = [EvReplaceSelection (lit "Hello world")].
Proof.
  intros Hfile Hread Hmagic Hprov Hocr run. subst run.
  unfold extractTextFromEmbeddedImage, locateEmbed, loadEmbed.
  rewrite diagram_located.
  cbv beta iota delta [bind ret lift emit pluginLogger pluginLog try_catch throw
                       diagram_embed link Embed.isExternal embedText].
  rewrite Hfile. cbv beta iota. rewrite Hread. cbv beta iota.
  change (isPdfFile (lit "diagram.png")) with false. rewrite Hmagic.
  cbv beta iota delta [orb].
  unfold embeddedImageOcr, getImageDimensionsFromArrayBuffer, callExtract.
  rewrite arrayBufferToBase64_ret.
  pose proof (theProvider_no_effect sv settings) as Hq.
  destruct (theProvider sv settings) as [tr o]. simpl in Hprov, Hq. subst o.
  cbv beta iota delta [bind ret lift emit pluginLogger pluginLog try_catch throw
                       getSelection diagram_selection link embedText].
  rewrite Hocr.
  change (selectionEmbedMatch (lit "![[diagram.png]]"))
    with (Some (RMatch 0 (lit "![[diagram.png]]") [] [])).
  cbv beta iota delta [truthy lit List.map list_ascii_of_string str_eqb r_text
                       N_of_ascii N_of_digits N.eqb Pos.eqb andb N.add N.mul
                       Pos.add Pos.mul Pos.succ].
  cbv beta iota delta [result trace fst snd].
  split; [reflexivity|].
  rewrite !document_effects_app, Hq. reflexivity.
Qed.

Lemma embedded_selection_replaced_witness :
  let run := extractTextFromEmbeddedImage Demo.world Demo.services DEFAULT_SETTINGS
               (diagram_selection 0 (fun _ => [])) None in
  isPdfBuffer Demo.png_bytes = false
  /\ result run = Ret tt
  /\ document_effects (trace run) = [EvReplaceSelection (lit "Hello world")].
Proof.
  split; [reflexivity|].
  apply (embedded_selection_replaced Demo.world Demo.services DEFAULT_SETTINGS 0
           (fun _ => []) None
           {| file_name := lit "diagram.png"; file_path := lit "diagram.png" |}
           Demo.png_bytes
           (openAiFactory DEFAULT_SETTINGS (friendlyProviderName Demo.services)
              (lit "gpt-4o")));
    reflexivity.
Defined.

(* ===================================================================== *)
(** * The PDF path of the embedded-image command                          *)
(* ===================================================================== *)

(** C2, as stated: refuted by a text file named [notes.pdf]. *)
Lemma parse_without_magic_bytes :
  ~ (forall (w : World) (sv : Services) (settings : Settings) (ed : Editor)
            (ctxFile : option jsstr) (b : bytes),
        In b (parsed_buffers
                (trace (extractTextFromEmbeddedImage w sv settings ed ctxFile))) ->
        isPdfBuffer b = true).
Proof.
  intros H.
  specialize (H Demo.world Demo.services DEFAULT_SETTINGS
                (Demo.editor_with "![[notes.pdf]]") None Demo.text_bytes).
  assert (Hin : In Demo.text_bytes
                  (parsed_buffers
                     (trace (extractTextFromEmbeddedImage Demo.world Demo.services
                               DEFAULT_SETTINGS (Demo.editor_with "![[notes.pdf]]")
                               None)))).
  { vm_compute. left. reflexivity. }
  specialize (H Hin). vm_compute in H. discriminate H.
Qed.

Lemma pdf_parse_gate_witness :
  let run := extractTextFromEmbeddedImage Demo.world Demo.services DEFAULT_SETTINGS
               (Demo.editor_with "![[notes.pdf]]") None in
  isPdfBuffer Demo.text_bytes = false
  /\ parsed_buffers (trace run) = [Demo.text_bytes]
  /\ exists e, result (locateEmbed Demo.services (Demo.editor_with "![[notes.pdf]]") None)
               = Ret (Some e)
               /\ isPdfFile (link e) = true.
Proof.
  intros run.
  destruct (pdf_parse_gate Demo.world Demo.services DEFAULT_SETTINGS
              (Demo.editor_with "![[notes.pdf]]") None) as [Honly Hpdf].
  assert (Hparsed : parsed_buffers (trace run) = [Demo.text_bytes]).
  { apply (Hpdf {| link := lit "notes.pdf"; Embed.isExternal := false;
                   embedType := Internal; embedText := lit "![[notes.pdf]]" |});
      reflexivity. }
  split; [reflexivity|]. split; [exact Hparsed|].
  apply (Honly Demo.text_bytes); [|reflexivity].
  fold run. rewrite Hparsed. left. reflexivity.
Defined.

(** The other two commands never ask for a PDF to be parsed. *)
Lemma prepareFile_only Q w f : only (parses Q) (prepareFile w f).
Proof. unfold prepareFile, getImageDimensionsFromArrayBuffer. only_steps. Qed.

Lemma mapM_only {A B} Q (f : A -> M B) l :
  (forall x, only (parses Q) (f x)) -> only (parses Q) (mapM f l).
Proof.
  intros Hf. induction l as [|x t IH]; cbn [mapM]; [only_steps|].
  only_step; [apply Hf|]. only_step; [apply IH|only_steps].
Qed.

Lemma perImageNotes_only Q sv settings ctx c images : forall i total,
  only (parses Q) (perImageNotes sv settings ctx c images i total).
Proof.
  induction images as [|img rest IH]; intros i total; cbn [perImageNotes].
  - only_steps.
  - only_step; [apply handle_only | apply IH].
Qed.

Lemma other_commands_never_parse (w : World) (sv : Services) (settings : Settings)
    (picked : option File) (activeEditor : bool) (folder : option (list File)) :
  parsed_buffers (trace (extractTextFromImage w sv settings picked activeEditor)) = []
  /\ parsed_buffers (trace (extractTextFromImageFolder w sv settings folder)) = [].
Proof.
  assert (Hnone : forall A (c : M A), only (parses (fun _ => False)) c ->
                                      parsed_buffers (trace c) = []).
  { intros A c Hc. destruct (parsed_buffers (trace c)) as [|b t] eqn:Hb; auto.
    exfalso. apply (parsed_buffers_only _ c b Hc). rewrite Hb. left. reflexivity. }
  split; apply Hnone.
  - unfold extractTextFromImage, selectImageFile, getImageDimensionsFromArrayBuffer.
    only_step; [only_steps|].
    apply only_bind; [only_steps|]. intros [f|] _; [|only_steps].
    only_step; [only_steps|]. only_step; [only_steps|].
    only_step; [apply theProvider_only|]. only_step; [only_steps|].
    only_step; [|apply ocrFailed_only].
    only_step; [apply callExtract_only|]. only_step; [only_steps|].
    destruct (truthy _); [|only_steps].
    only_step; [apply handle_only|only_steps].
  - unfold extractTextFromImageFolder, selectFolder.
    only_step; [only_steps|].
    apply only_bind; [only_steps|]. intros [files|] _; [|only_steps].
    apply only_bind; [apply mapM_only; intros; apply prepareFile_only|].
    intros [|first rest] _; [only_steps|].
    apply only_bind; [apply theProvider_only|]. intros pv _.
    only_step; [only_steps|].
    only_step; [|only_steps].
    only_step.
    + destruct pv as [p0| | |]; try (only_step; [apply callExtract_only|only_steps]).
      destruct (hasProcess sv p0); [only_steps|].
      only_step; [apply callExtract_only|only_steps].
    + only_step; [only_steps|]. only_step; [|only_steps].
      destruct (c_images _); [|apply handle_only].
      destruct (_ || _); [apply perImageNotes_only | apply handle_only].
Qed.

Lemma rasterizer_page_bound_witness :
  (0 < 2)%Z
  /\ exists images,
       result (convertPdfToImages Demo.world Demo.pdf_bytes 2%Q 2%Z) = Ret images
       /\ (Z.of_nat (List.length images) <= 2)%Z
       /\ StronglySorted Z.lt (List.map pageNumber images)
       /\ (forall p, In p (List.map pageNumber images)
                     <-> (1 <= p <= 2)%Z /\ rendered Demo.three_pages 2%Q p = true).
Proof.
  split; [lia|].
  apply (rasterizer_page_bound Demo.world Demo.pdf_bytes 2%Q 2%Z Demo.three_pages);
    [lia | reflexivity].
Defined.

Lemma prepared_image_size_and_base64_witness :
  let img := {| source := lit "diagram.png";
                file := Some {| file_name := lit "diagram.png";
                                file_path := lit "diagram.png" |};
                Image.isExternal := false |} in
  let p := {| name := lit "diagram.png"; base64 := lit "iVBORw0KGgo=";
              mime := lit "image/png"; size := 8; width := Some 640%N;
              height := Some 480%N; psource := lit "diagram.png" |} in
  result (prepareImagePayload Demo.world img) = Ret (Some p)
  /\ (exists decoded,
         b64_decode (base64 p) = Some decoded
         /\ size p = N.of_nat (List.length decoded)
         /\ startsWith (lit "data:") (base64 p) = false
         /\ includes (lit ";base64,") (base64 p) = false)
  /\ (forall page,
         In page [{| pageNumber := 1; pbase64 := lit "iVBORw0KGgo=";
                     pwidth := 1224; pheight := 1584 |}] ->
         exists png,
           toDataURL png = lit "data:image/png;base64," ++ pbase64 page
           /\ startsWith (lit "data:") (pbase64 page) = false
           /\ includes (lit ";base64,") (pbase64 page) = false).
Proof.
  intros img p. split; [reflexivity|]. split.
  - apply (proj1 prepared_image_size_and_base64 Demo.world img p). reflexivity.
  - intros page Hin.
    apply (proj2 prepared_image_size_and_base64 Demo.world Demo.pdf_bytes 2%Q 1%Z
             [{| pageNumber := 1; pbase64 := lit "iVBORw0KGgo=";
                 pwidth := 1224; pheight := 1584 |}] page);
      [reflexivity | exact Hin].
Defined.

(** With a non-positive bound the page loop does not run. *)
Lemma nonpositive_page_limit w buffer scale maxPages doc :
  (maxPages <= 0)%Z -> getDocument w buffer = Ret doc ->
  result (convertPdfToImages w buffer scale maxPages) = Ret [].
Proof.
  intros Hle Hdoc. rewrite (convertPdfToImages_result _ _ _ _ _ Hdoc).
  replace (Z.to_nat (Z.min (Z.of_N (numPages doc)) maxPages)) with 0 by lia.
  reflexivity.
Qed.

(** C1: with the page limit that the settings field stores for the input
    0 (which its description calls unlimited) and a three-page document, no
    page is rasterized and none is sent to the provider; with the default
    bound the same document has all three pages tried. *)
Theorem zero_page_limit_processes_nothing :
  let unlimited :=
    Demo.with_maxPages (pdfMaxPagesOnChange (Some 0%Z)) DEFAULT_SETTINGS in
  let run := processPdfFile Demo.world Demo.services unlimited Demo.pdf_bytes
               (lit "paper.pdf") in
  let usual := processPdfFile Demo.world Demo.services DEFAULT_SETTINGS Demo.pdf_bytes
                 (lit "paper.pdf") in
  numPages Demo.three_pages = 3%N
  /\ result (convertPdfToImages Demo.world Demo.pdf_bytes
               (nullish (pdfScale unlimited) 2%Q) (nullish (pdfMaxPages unlimited) 50%Z))
     = Ret []
  /\ provider_calls (trace run) = 0
  /\ In (EvLog (lit "Could not extract any pages from PDF.") LvNotice true) (trace run)
  /\ provider_calls (trace usual) = 2.
Proof.
  intros unlimited run usual.
  split; [reflexivity|]. split; [reflexivity|]. split; [reflexivity|].
  split; [|reflexivity].
  vm_compute. repeat (first [left; reflexivity | right]).
Qed.

(* ===================================================================== *)
(** * First occurrences                                                   *)
(* ===================================================================== *)

Lemma startsWith_app p s : startsWith p (p ++ s) = true.
Proof. induction p as [|x p IH]; simpl; auto. now rewrite N.eqb_refl. Qed.

Lemma startsWith_split p : forall s,
  startsWith p s = true -> s = p ++ skipn (List.length p) s.
Proof.
  induction p as [|x p IH]; intros s H; simpl; auto.
  destruct s as [|y s]; simpl in H; [discriminate|].
  apply andb_prop in H. destruct H as [Hxy Hp]. apply N.eqb_eq in Hxy. subst y.
  f_equal. auto.
Qed.

Lemma find_sound p : forall s a b, find p s = Some (a, b) -> s = a ++ p ++ b.
Proof.
  induction s as [|c t IH]; intros a b H; simpl in H.
  - destruct (startsWith p []) eqn:Hs; [|discriminate].
    inversion H; subst. now apply startsWith_split in Hs.
  - destruct (startsWith p (c :: t)) eqn:Hs.
    + inversion H; subst. now apply startsWith_split in Hs.
    + destruct (find p t) as [[a' b']|] eqn:Hf; [|discriminate].
      inversion H; subst. simpl. f_equal. auto.
Qed.

(** No occurrence starts before the one that [find] returns. *)
Lemma find_first p : forall s a b a' b',
  find p s = Some (a, b) -> s = a' ++ p ++ b' -> List.length a <= List.length a'.
Proof.
  induction s as [|c t IH]; intros a b a' b' H Hs; simpl in H.
  - destruct (startsWith p []); [|discriminate]. inversion H; subst. simpl. lia.
  - destruct (startsWith p (c :: t)) eqn:Hw.
    + inversion H; subst. simpl. lia.
    + destruct (find p t) as [[a0 b0]|] eqn:Hf; [|discriminate].
      inversion H; subst. destruct a' as [|c' a'].
      * simpl in Hs. rewrite Hs, startsWith_app in Hw. discriminate.
      * simpl in Hs. inversion Hs; subst. simpl.
        specialize (IH a0 b a' b' eq_refl eq_refl). lia.
Qed.

Lemma find_none p : forall s a b, find p s = None -> s <> a ++ p ++ b.
Proof.
  induction s as [|c t IH]; intros a b H Hs; simpl in H.
  - destruct (startsWith p []) eqn:Hw; [discriminate|].
    destruct a; simpl in Hs.
    + rewrite Hs, startsWith_app in Hw. discriminate.
    + discriminate.
  - destruct (startsWith p (c :: t)) eqn:Hw; [discriminate|].
    destruct (find p t) as [[a0 b0]|] eqn:Hf; [discriminate|].
    destruct a as [|c' a]; simpl in Hs.
    + rewrite Hs, startsWith_app in Hw. discriminate.
    + inversion Hs; subst. eapply IH; eauto.
Qed.

(* ===================================================================== *)
(** * Literal patterns, exactly                                           *)
(* ===================================================================== *)

Lemma rmatch_rlit {A} (l : jsstr) : forall st (k : mstate -> option A),
  rmatch false (rlit l) st k
  = if startsWith l (m_rest st)
    then k (advance st (List.length l) (skipn (List.length l) (m_rest st)))
    else None.
Proof.
  induction l as [|c l IH]; intros st k; simpl.
  - now rewrite advance_zero.
  - destruct (m_rest st) as [|x t] eqn:Hr; auto.
    unfold char_eq. destruct (N.eqb_spec c x); simpl; auto.
    rewrite IH. simpl. destruct (startsWith l t); auto.
    now rewrite advance_advance.
Qed.

(** Leading white space is what a greedy [\s*] takes first. *)
Lemma greedy_space_first {A} st (k : mstate -> option A) a : forall s n,
  k (advance st (n + (List.length s - List.length (trimStart s))) (trimStart s)) = Some a ->
  star_greedy is_space st n s k = Some a.
Proof.
  induction s as [|c t IH]; intros n H; simpl in *.
  - now rewrite Nat.add_0_r in H.
  - destruct (is_space c) eqn:Hc.
    + assert (Hlen : List.length (trimStart t) <= List.length t).
      { clear. induction t as [|x t IH]; simpl; auto. destruct (is_space x); simpl; lia. }
      rewrite (IH (S n)); auto.
      replace (S n + (List.length t - List.length (trimStart t)))
        with (n + (S (List.length t) - List.length (trimStart t))) by lia.
      exact H.
    + simpl in H. replace (n + (List.length t - List.length t)) with n in H by lia.
      exact H.
Qed.

(* ===================================================================== *)
(** * Trimming                                                            *)
(* ===================================================================== *)

Lemma trimStart_app a z :
  trimStart (a ++ z) = if forallb is_space a then trimStart z else trimStart a ++ z.
Proof.
  induction a as [|x a IH]; simpl; auto.
  destruct (is_space x); simpl; auto.
Qed.

Lemma trimStart_length s : List.length (trimStart s) <= List.length s.
Proof. induction s as [|x t IH]; simpl; auto. destruct (is_space x); simpl; lia. Qed.

(** A string is its leading white space followed by the rest. *)
Lemma trimStart_decomp s :
  exists w1, s = w1 ++ trimStart s /\ forallb is_space w1 = true.
Proof.
  induction s as [|x t IH]; simpl.
  - exists []. auto.
  - destruct (is_space x) eqn:Hx.
    + destruct IH as (w1 & Ht & Hw). exists (x :: w1). simpl. rewrite Hx, Hw.
      split; auto. now rewrite <- Ht.
    + exists []. auto.
Qed.

Lemma forallb_rev {A} (f : A -> bool) l : forallb f (rev l) = forallb f l.
Proof.
  induction l as [|x t IH]; simpl; auto.
  rewrite forallb_app, IH. simpl. rewrite andb_true_r. apply andb_comm.
Qed.

Lemma trimEnd_space_suffix a w2 :
  forallb is_space w2 = true -> trimEnd (a ++ w2) = trimEnd a.
Proof.
  intros Hw. unfold trimEnd. rewrite rev_app_distr, trimStart_app.
  now rewrite forallb_rev, Hw.
Qed.

Lemma trim_spaces w1 c w2 :
  forallb is_space w1 = true -> forallb is_space w2 = true ->
  trim (w1 ++ c ++ w2) = trim c.
Proof.
  intros H1 H2. unfold trim. rewrite trimStart_app, H1, trimStart_app.
  destruct (forallb is_space c) eqn:Hc.
  - assert (E1 : trimStart w2 = []).
    { clear -H2. induction w2 as [|x t IH]; simpl in *; auto.
      apply andb_prop in H2. destruct H2 as [Hx Ht]. rewrite Hx. auto. }
    assert (E2 : trimStart c = []).
    { clear -Hc. induction c as [|x t IH]; simpl in *; auto.
      apply andb_prop in Hc. destruct Hc as [Hx Ht]. rewrite Hx. auto. }
    now rewrite E1, E2.
  - now apply trimEnd_space_suffix.
Qed.

(* ===================================================================== *)
(** * One block                                                           *)
(* ===================================================================== *)

Lemma block_tail_accepts st b post :
  m_rest st = b ++ END ++ post -> forallb is_space b = true ->
  rmatch false block_tail st Some
  = Some (advance st (List.length b + List.length END) post).
Proof.
  intros Hr Hb. unfold block_tail. cbn [rmatch].
  apply greedy_space_first. rewrite Hr.
  rewrite trimStart_app, Hb.
  change (trimStart (END ++ post)) with (END ++ post).
  rewrite rmatch_rlit. cbn [m_rest advance].
  rewrite startsWith_app. rewrite List.skipn_app, List.skipn_all, Nat.sub_diag.
  cbn [skipn app]. rewrite advance_advance. f_equal. f_equal.
  rewrite !List.length_app. lia.
Qed.

Lemma block_tail_needs st a :
  rmatch false block_tail st Some = Some a ->
  exists s1 post, m_rest st = s1 ++ END ++ post /\ forallb is_space s1 = true.
Proof.
  unfold block_tail. cbn [rmatch]. intros H.
  destruct (star_greedy_sound _ _ _ _ _ _ H) as (s1 & rest & Hs & Hall & Hk).
  rewrite rmatch_rlit in Hk. cbn [m_rest advance] in Hk.
  destruct (startsWith END rest) eqn:Hw; [|discriminate].
  apply startsWith_split in Hw. exists s1, (skipn (List.length END) rest).
  split; auto. now rewrite Hs, Hw at 1.
Qed.

Lemma no_end_inside_tail x b post : no_end_inside (x :: b) post -> no_end_inside b post.
Proof.
  intros H s1 post' Heq. apply (f_equal (cons x)) in Heq.
  specialize (H (x :: s1) post' Heq). simpl in H. lia.
Qed.

Lemma no_end_inside_suffix a b post : no_end_inside (a ++ b) post -> no_end_inside b post.
Proof. induction a as [|x a IH]; simpl; auto. intros H. apply IH. eapply no_end_inside_tail; eauto. Qed.

Lemma prefix_of_longer {A} (a u s1 v : list A) :
  a ++ u = s1 ++ v -> List.length a <= List.length s1 -> exists d, s1 = a ++ d.
Proof.
  revert s1. induction a as [|x a IH]; intros s1 Heq Hlen; simpl in *.
  - eauto.
  - destruct s1 as [|y s1]; simpl in *; [lia|]. inversion Heq; subst.
    destruct (IH s1 H1 ltac:(lia)) as (d & ->). eauto.
Qed.

(** Two matcher states that differ only in how their numbers are written. *)
Ltac state_eq :=
  match goal with
  | |- Some (MState ?a _ ((_, firstn ?b _) :: _))
       = Some (MState ?a' _ ((_, firstn ?b' _) :: _)) =>
      replace a with a' by lia; replace b with b' by lia; reflexivity
  end.

Lemma star_lazy_unfold {A} p st n s (k : mstate -> option A) :
  star_lazy p st n s k
  = match k (advance st n s) with
    | Some a => Some a
    | None =>
        match s with
        | c :: t => if p c then star_lazy p st (S n) t k else None
        | [] => None
        end
    end.
Proof. destruct s; reflexivity. Qed.

(** The lazy group followed by the tail: the group stops at the first
    place from which only white space separates it from [END]. *)
Lemma lazy_body st0 : forall body1 n post,
  no_end_inside body1 post ->
  exists c w2,
    body1 = c ++ w2 /\ forallb is_space w2 = true
    /\ star_lazy any_char st0 n (body1 ++ END ++ post)
         (fun st' =>
            rmatch false block_tail
              (MState (m_pos st') (m_rest st')
                 ((1, firstn (m_pos st' - m_pos st0) (m_rest st0)) :: m_caps st'))
              Some)
       = Some (MState (m_pos st0 + (n + List.length body1 + List.length END)) post
                 ((1, firstn (n + List.length c) (m_rest st0)) :: m_caps st0)).
Proof.
  induction body1 as [|x b' IH]; intros n post Hno.
  - exists [], []. repeat split. rewrite star_lazy_unfold.
    rewrite (block_tail_accepts _ [] post); [|reflexivity|reflexivity].
    unfold advance. cbn [m_pos m_rest m_caps List.length app].
    state_eq.
  - destruct (forallb is_space (x :: b')) eqn:Hall.
    + exists [], (x :: b'). repeat split; auto. rewrite star_lazy_unfold.
      rewrite (block_tail_accepts _ (x :: b') post); [|reflexivity|exact Hall].
      unfold advance. cbn [m_pos m_rest m_caps List.length app].
      state_eq.
    + destruct (IH (S n) post (no_end_inside_tail _ _ _ Hno)) as (c & w2 & Hb & Hw & Hrun).
      exists (x :: c), w2. split; [simpl; now rewrite Hb|]. split; auto.
      rewrite star_lazy_unfold.
      match goal with
      | |- match ?t with _ => _ end = _ => destruct t as [a|] eqn:Htail
      end.
      * exfalso. apply block_tail_needs in Htail.
        destruct Htail as (s1 & post' & Hs & Hs1). cbn [m_rest advance] in Hs.
        pose proof (Hno s1 post' Hs) as Hlen.
        destruct (prefix_of_longer _ _ _ _ Hs Hlen) as (d & ->).
        rewrite forallb_app in Hs1. apply andb_prop in Hs1. destruct Hs1 as [Hx _].
        congruence.
      * cbn [app]. unfold any_char at 1. rewrite Hrun.
        cbn [List.length]. state_eq.
Qed.

Lemma batchBlock_shape :
  batchBlock
  = RSeq (rlit BEGIN)
      (RSeq (RStarG is_space) (RSeq (RGroup 1 (RStarL any_char)) block_tail)).
Proof. reflexivity. Qed.

Lemma trimStart_before_end body post :
  trimStart (body ++ END ++ post) = trimStart body ++ END ++ post.
Proof.
  rewrite trimStart_app. destruct (forallb is_space body) eqn:Hb; auto.
  assert (E : trimStart body = []).
  { clear -Hb. induction body as [|x t IH]; simpl in *; auto.
    apply andb_prop in Hb. destruct Hb as [Hx Ht]. rewrite Hx. auto. }
  rewrite E. reflexivity.
Qed.

Lemma rmatch_seq {A} ic r1 r2 st (k : mstate -> option A) :
  rmatch ic (RSeq r1 r2) st k = rmatch ic r1 st (fun st' => rmatch ic r2 st' k).
Proof. reflexivity. Qed.

Lemma rmatch_after_space {A} st (k : mstate -> option A) :
  rmatch false (RSeq (RStarG is_space) (RSeq (RGroup 1 (RStarL any_char)) block_tail)) st k
  = star_greedy is_space st 0 (m_rest st)
      (fun st0 =>
         star_lazy any_char st0 0 (m_rest st0)
           (fun st' =>
              rmatch false block_tail
                (MState (m_pos st') (m_rest st')
                   ((1, firstn (m_pos st' - m_pos st0) (m_rest st0)) :: m_caps st'))
                k)).
Proof. reflexivity. Qed.

(** After [BEGIN]: leading white space, then the lazy group and the tail. *)
Lemma batch_after_begin pos rest :
  rmatch false batchBlock (MState pos (BEGIN ++ rest) []) Some
  = star_greedy is_space
      (advance (MState pos (BEGIN ++ rest) []) (List.length BEGIN) rest) 0 rest
      (fun st0 =>
         star_lazy any_char st0 0 (m_rest st0)
           (fun st' =>
              rmatch false block_tail
                (MState (m_pos st') (m_rest st')
                   ((1, firstn (m_pos st' - m_pos st0) (m_rest st0)) :: m_caps st'))
                Some)).
Proof.
  rewrite batchBlock_shape, rmatch_seq, rmatch_rlit. cbn [m_rest].
  rewrite startsWith_app, List.skipn_app, List.skipn_all, Nat.sub_diag.
  rewrite rmatch_after_space. reflexivity.
Qed.

(** At a [BEGIN] that an [END] follows, the pattern matches up to the
    first such [END]; its group holds the text between, up to white
    space at both ends. *)
Lemma batch_match_at pos rest body post :
  find END rest = Some (body, post) ->
  exists m,
    match_at false batchBlock pos (BEGIN ++ rest) = Some m
    /\ r_after m = post /\ r_text m <> []
    /\ trim (cap 1 (r_caps m)) = trim body.
Proof.
  intros Hfind.
  pose proof (find_sound _ _ _ _ Hfind) as Hrest.
  assert (Hno : no_end_inside body post).
  { intros s1 post' Heq. rewrite <- Hrest in Heq. eapply find_first; eauto. }
  destruct (trimStart_decomp body) as (w1 & Hbody & Hw1).
  assert (Hno1 : no_end_inside (trimStart body) post).
  { apply (no_end_inside_suffix w1). now rewrite <- Hbody. }
  unfold match_at. rewrite batch_after_begin.
  set (st1 := advance (MState pos (BEGIN ++ rest) []) (List.length BEGIN) rest).
  set (cnt := List.length rest - List.length (trimStart rest)).
  set (st0 := advance st1 (0 + cnt) (trimStart rest)).
  destruct (lazy_body st0 (trimStart body) 0 post Hno1) as (c & w2 & Hc & Hw2 & Hrun).
  assert (Hst0 : m_rest st0 = trimStart body ++ END ++ post).
  { unfold st0. cbn [m_rest advance]. rewrite Hrest. apply trimStart_before_end. }
  rewrite <- Hst0 in Hrun.
  erewrite greedy_space_first; [|cbn [m_rest advance]; fold cnt; fold st0; exact Hrun].
  eexists. split; [reflexivity|]. cbn [r_after r_text r_caps m_rest m_pos m_caps].
  split; [reflexivity|]. split.
  - assert (Hp : exists k, m_pos st0 + (0 + List.length (trimStart body) + List.length END) - pos
                          = S k).
    { unfold st0, st1. cbn [m_pos advance]. change (List.length END) with 17.
      exists (List.length BEGIN + cnt + List.length (trimStart body) + 16). lia. }
    destruct Hp as (k & ->). discriminate.
  - unfold cap. cbn [group Nat.eqb]. rewrite Hst0, Hc. cbn [Nat.add].
    rewrite <- List.app_assoc, List.firstn_app, Nat.sub_diag, List.firstn_all.
    cbn [firstn]. rewrite List.app_nil_r.
    rewrite Hbody, Hc. symmetry. now apply trim_spaces.
Qed.

(* ===================================================================== *)
(** * The scan over the response                                          *)
(* ===================================================================== *)

Lemma lit_eq_exact a : forall s, lit_eq false a s <-> s = a.
Proof.
  unfold lit_eq. induction a as [|c a IH]; intros s; split; intros H.
  - now inversion H.
  - subst. constructor.
  - inversion H as [|? x ? s' Hc Hr]; subst. unfold char_eq in Hc.
    apply N.eqb_eq in Hc. subst. f_equal. now apply IH.
  - subst. constructor; [apply N.eqb_refl | now apply IH].
Qed.

(** The pattern matches only text that begins with [BEGIN] and ends with
    [END]. *)
Lemma batchBlock_Matches pos s1 rest :
  Matches false batchBlock pos s1 rest -> exists mid, s1 = BEGIN ++ mid ++ END.
Proof.
  rewrite batchBlock_shape. unfold block_tail. cbn [Matches].
  intros (a & b & -> & Ha & c & d & -> & _ & e & f & -> & _ & g & h & -> & _
          & i & j & -> & Hi & ->).
  apply Matches_rlit, lit_eq_exact in Ha. apply Matches_rlit, lit_eq_exact in Hi.
  subst. exists (c ++ e ++ g). now rewrite List.app_nil_r, <- !List.app_assoc.
Qed.

Lemma search_fail s pos :
  (forall pre rest, s = pre ++ BEGIN ++ rest -> find END rest = None) ->
  search_from false batchBlock pos s = None.
Proof.
  intros H. destruct (search_from false batchBlock pos s) eqn:Hs; auto. exfalso.
  assert (Hn : search_from false batchBlock pos s <> None) by congruence.
  apply search_from_spec in Hn. destruct Hn as (pre & s1 & rest & Heq & Hm).
  apply batchBlock_Matches in Hm. destruct Hm as (mid & ->).
  specialize (H pre (mid ++ END ++ rest)).
  rewrite <- !List.app_assoc in Heq. specialize (H Heq).
  eapply find_none; eauto.
Qed.

Lemma match_at_not_begin pos s :
  startsWith BEGIN s = false -> match_at false batchBlock pos s = None.
Proof.
  intros H. unfold match_at. rewrite batchBlock_shape, rmatch_seq, rmatch_rlit.
  cbn [m_rest]. now rewrite H.
Qed.

Lemma search_hit : forall s pos pre rest body post,
  find BEGIN s = Some (pre, rest) -> find END rest = Some (body, post) ->
  exists m,
    search_from false batchBlock pos s = Some m
    /\ r_after m = post /\ r_text m <> []
    /\ trim (cap 1 (r_caps m)) = trim body.
Proof.
  induction s as [|c t IH]; intros pos pre rest body post Hb He.
  - discriminate.
  - cbn [find] in Hb. destruct (startsWith BEGIN (c :: t)) eqn:Hw.
    + apply startsWith_split in Hw.
      remember (skipn (List.length BEGIN) (c :: t)) as rest0 eqn:Hr0.
      inversion Hb; subst pre rest.
      destruct (batch_match_at pos _ _ _ He) as (m & Hm & Hprops).
      exists m. split; auto. rewrite Hw. destruct (BEGIN ++ rest0); cbn [search_from];
        now rewrite Hm.
    + destruct (find BEGIN t) as [[a b]|] eqn:Hf; [|discriminate].
      inversion Hb; subst.
      destruct (IH (S pos) a rest body post eq_refl He) as (m & Hm & Hprops).
      exists m. split; auto. cbn [search_from].
      now rewrite (match_at_not_begin _ _ Hw).
Qed.

Lemma suffix_of_shorter {A} (a u b v : list A) :
  a ++ u = b ++ v -> List.length a <= List.length b -> exists d, u = d ++ v.
Proof.
  revert b. induction a as [|x a IH]; intros b Heq Hlen; simpl in *.
  - eauto.
  - destruct b as [|y b]; simpl in *; [lia|]. inversion Heq; subst.
    apply (IH b); auto. lia.
Qed.

Lemma blocks_matchAll : forall s bs,
  blocks s bs ->
  forall fuel pos, List.length s < fuel ->
    List.map (fun m => trim (cap 1 (r_caps m)))
      (matchAll_from fuel false batchBlock pos s) = bs.
Proof.
  induction 1 as [s Hb | s pre rest Hb He | s pre rest body post bs Hb He Hbl IH];
    intros fuel pos Hfuel; destruct fuel as [|fuel]; try lia; cbn [matchAll_from].
  - rewrite search_fail; auto. intros pre rest Hs. exfalso. eapply find_none; eauto.
  - rewrite search_fail; auto. intros pre' rest' Hs.
    pose proof (find_first _ _ _ _ _ _ Hb Hs) as Hlen.
    pose proof (find_sound _ _ _ _ Hb) as Hs0. rewrite Hs in Hs0.
    rewrite !List.app_assoc in Hs0.
    destruct (suffix_of_shorter _ _ _ _ (eq_sym Hs0)) as (d & Hd).
    { rewrite !List.length_app. lia. }
    destruct (find END rest') as [[x y]|] eqn:Hf; auto. exfalso.
    apply find_sound in Hf. rewrite Hf, List.app_assoc in Hd.
    eapply find_none; eauto.
  - destruct (search_hit s pos _ _ _ _ Hb He) as (m & Hm & Hafter & Htext & Hcap).
    rewrite Hm. cbn [List.map]. rewrite Hcap. f_equal.
    destruct (r_text m) as [|x tx] eqn:Ht; [congruence|].
    rewrite Hafter. apply IH.
    pose proof (find_sound _ _ _ _ Hb) as Hs. pose proof (find_sound _ _ _ _ He) as Hr.
    rewrite Hs, Hr, !List.length_app in Hfuel.
    change (List.length END) with 17 in Hfuel. lia.
Qed.





(** Two well-formed blocks give a two-element array, in order. *)
Example two_blocks :
  contentForFormatting
    (lit "--- BEGIN IMAGE: --- first --- END IMAGE --- --- BEGIN IMAGE: ---second--- END IMAGE ---")
  = Many [lit "first"; lit "second"].
Proof. vm_compute. reflexivity. Qed.

Example one_block :
  contentForFormatting (lit "  --- BEGIN IMAGE: --- only one --- END IMAGE --- tail ")
  = One (lit "only one").
Proof. vm_compute. reflexivity. Qed.

Example no_block :
  contentForFormatting (lit "  plain text --- BEGIN IMAGE: --- unfinished ")
  = One (lit "plain text --- BEGIN IMAGE: --- unfinished").
Proof. vm_compute. reflexivity. Qed.

(** [parseEmbedInfo] on an embed with a folder, an upper-case extension and
    an alias. *)
Example parseEmbedInfo_alias :
  parseEmbedInfo (lit "![[folder/photo.PNG|caption]]") (lit "folder/photo.PNG")
  = {| ei_name := lit "photo"; ei_extension := lit "PNG";
       ei_path := lit "folder/photo.PNG"; ei_altText := lit "caption" |}.
Proof. vm_compute. reflexivity. Qed.

(* ===================================================================== *)
(** * Strings                                                             *)
(* ===================================================================== *)

Lemma str_eqb_eq a : forall b, str_eqb a b = true <-> a = b.
Proof.
  induction a as [|x a IH]; intros [|y b]; simpl; split; try congruence; auto.
  - intros H. apply andb_prop in H. destruct H as [Hx Ha].
    apply N.eqb_eq in Hx. apply IH in Ha. congruence.
  - intros H. inversion H; subst. rewrite N.eqb_refl. simpl. now apply IH.
Qed.

Lemma fromByte_inj a b : fromByte a = fromByte b -> a = b.
Proof.
  unfold fromByte. intros H.
  assert (Ha : Byte.of_N (Byte.to_N a) = Some a) by apply Byte.of_to_N.
  assert (Hb : Byte.of_N (Byte.to_N b) = Some b) by apply Byte.of_to_N.
  rewrite H in Ha. congruence.
Qed.

Lemma map_fromByte_inj a : forall b,
  List.map fromByte a = List.map fromByte b -> a = b.
Proof.
  induction a as [|x a IH]; intros [|y b] H; simpl in H; try discriminate; auto.
  inversion H. f_equal; auto using fromByte_inj.
Qed.

(* ===================================================================== *)
(** * The magic bytes                                                     *)
(* ===================================================================== *)

(** X1.  [isPdfBuffer] holds of a buffer exactly when the buffer begins
    with the five bytes of [%PDF-]; a shorter buffer is never a PDF. *)
Theorem isPdfBuffer_magic (buffer : bytes) :
  (isPdfBuffer buffer = true <-> exists rest, buffer = pdf_magic ++ rest)
  /\ (List.length buffer < 5 -> isPdfBuffer buffer = false).
Proof.
  assert (Hiff : isPdfBuffer buffer = true <-> exists rest, buffer = pdf_magic ++ rest).
  { unfold isPdfBuffer. rewrite str_eqb_eq. split.
    - intros H. exists (skipn 5 buffer).
      change (lit "%PDF-") with (List.map fromByte pdf_magic) in H.
      apply map_fromByte_inj in H. rewrite <- H. symmetry. apply List.firstn_skipn.
    - intros (rest & ->). reflexivity. }
  split; [exact Hiff|].
  intros Hlen. destruct (isPdfBuffer buffer); auto.
  destruct (proj1 Hiff eq_refl) as (rest & ->).
  rewrite List.length_app in Hlen. simpl in Hlen. lia.
Qed.

Lemma isPdfBuffer_magic_witness :
  isPdfBuffer Demo.pdf_bytes = true /\ isPdfBuffer [Byte.x25; Byte.x50; Byte.x44] = false.
Proof.
  split.
  - apply (proj2 (proj1 (isPdfBuffer_magic Demo.pdf_bytes))).
    exists [Byte.x31; Byte.x2e; Byte.x37]. reflexivity.
  - apply (proj2 (isPdfBuffer_magic [Byte.x25; Byte.x50; Byte.x44])). simpl. lia.
Defined.

(* ===================================================================== *)
(** * Base64 text                                                         *)
(* ===================================================================== *)

Lemma b64_encode_length : forall l,
  List.length (b64_encode l) = 4 * ((List.length l + 2) / 3).
Proof.
  induction l as [| a | a b | a b c t IH] using list_ind3; try reflexivity.
  cbn [b64_encode]. rewrite List.length_app, IH. cbn [List.length].
  replace (S (S (S (List.length t))) + 2) with (1 * 3 + (List.length t + 2)) by lia.
  rewrite Nat.div_add_l by lia. lia.
Qed.

(** X2.  [arrayBufferToBase64] never throws; its text has four characters
    for every three bytes, rounded up; it decodes back to the bytes; so two
    buffers with the same text are the same buffer. *)
Theorem arrayBufferToBase64_text (buffer other : bytes) :
  exists b64,
    arrayBufferToBase64 buffer = Ret b64
    /\ List.length b64 = 4 * ((List.length buffer + 2) / 3)
    /\ b64_decode b64 = Some (List.map fromByte buffer)
    /\ (arrayBufferToBase64 other = Ret b64 <-> other = buffer).
Proof.
  exists (b64_encode (List.map fromByte buffer)).
  split; [apply arrayBufferToBase64_ret|].
  split; [rewrite b64_encode_length, List.length_map; reflexivity|].
  split; [apply b64_roundtrip, bytes_are_octets|].
  split.
  - rewrite arrayBufferToBase64_ret. intros H. inversion H as [He].
    apply map_fromByte_inj.
    assert (Hd : b64_decode (b64_encode (List.map fromByte other))
                 = b64_decode (b64_encode (List.map fromByte buffer))) by congruence.
    rewrite !b64_roundtrip in Hd by apply bytes_are_octets. congruence.
  - intros ->. apply arrayBufferToBase64_ret.
Qed.

(* ===================================================================== *)
(** * Reading traces                                                      *)
(* ===================================================================== *)

Lemma run_eta {A} (c : M A) : c = (trace c, result c).
Proof. destruct c. reflexivity. Qed.

Lemma provider_inputs_app a b :
  provider_inputs (a ++ b) = provider_inputs a ++ provider_inputs b.
Proof.
  induction a as [|ev a IH]; simpl; auto. destruct ev; simpl; auto. now rewrite IH.
Qed.

Lemma handled_app a b : handled (a ++ b) = handled a ++ handled b.
Proof.
  induction a as [|ev a IH]; simpl; auto. destruct ev; simpl; auto. now rewrite IH.
Qed.

Lemma shown_app a b : shown (a ++ b) = shown a ++ shown b.
Proof.
  induction a as [|ev a IH]; simpl; auto.
  destruct ev as [| msg lv [|] | | | | | |]; simpl; auto. now rewrite IH.
Qed.

Lemma provider_calls_inputs tr : provider_calls tr = List.length (provider_inputs tr).
Proof. induction tr as [|ev tr IH]; simpl; auto. destruct ev; simpl; auto. Qed.

Lemma quiet_trace tr :
  List.Forall quiet tr ->
  provider_inputs tr = [] /\ handled tr = [] /\ document_effects tr = [].
Proof.
  induction 1 as [|ev tr Hev Htr IH]; simpl; auto.
  destruct ev; simpl in *; auto; contradiction.
Qed.

Lemma debug_only_quiet ev : debug_only ev -> quiet ev.
Proof. destruct ev; simpl; auto. Qed.

Lemma debug_only_shown tr : List.Forall debug_only tr -> shown tr = [].
Proof.
  induction 1 as [|ev tr Hev Htr IH]; simpl; auto.
  destruct ev; simpl in *; auto; contradiction.
Qed.

(* ===================================================================== *)
(** * Fetching                                                            *)
(* ===================================================================== *)

(** X3.  [fetchExternalImageAsArrayBuffer] never throws.  It returns the
    body exactly when the request succeeds with status 200 and a body;
    otherwise it returns null, and the user is shown the error (the
    request's own, or [HTTP] and the status) and then the notice. *)
Theorem fetch_never_throws (w : World) (url : jsstr) :
  let run := fetchExternalImageAsArrayBuffer w url in
  result run = Ret (fetched w url)
  /\ match fetched w url with
     | Some _ => shown (trace run) = []
     | None =>
         exists e,
           shown (trace run)
           = [(lit "Failed to fetch image: " ++ exn_to_string e, LvError);
              (lit "Failed to fetch image.", LvNotice)]
           /\ match requestUrl w url with
              | Throw e' => e = e'
              | Ret resp => e = Error (lit "HTTP " ++ num_to_str (status resp))
              end
     end.
Proof.
  intros run. split; [apply fetch_result|].
  unfold run, fetchExternalImageAsArrayBuffer, fetched.
  unfold pluginLogger, pluginLog, emit, lift, throw, ret, bind, try_catch, trace.
  destruct (requestUrl w url) as [resp|e]; cbn [fst snd app shown].
  - destruct (arrayBuffer resp) as [body|]; destruct (status resp =? 200)%N;
      cbn [fst snd app shown]; eauto.
  - eauto.
Qed.

(* ===================================================================== *)
(** * Loading a PDF                                                       *)
(* ===================================================================== *)

(** The rasterizer on a buffer that PDF.js cannot load. *)
Lemma convert_load_failure w buffer scale maxPages e :
  getDocument w buffer = Throw e ->
  let run := convertPdfToImages w buffer scale maxPages in
  result run
  = Throw (if mentions_password e
           then PDFEncryptedError (lit "PDF is password protected")
           else PDFCorruptedError (lit "Failed to load PDF: " ++ exn_to_string e))
  /\ shown (trace run) = []
  /\ parsed_buffers (trace run) = [buffer].
Proof.
  intros Hd run. unfold run, convertPdfToImages.
  unfold pluginLogger, pluginLog, emit, lift, throw, bind, try_catch. rewrite Hd.
  destruct e as [m|m|m|m|v]; cbn [exn_message mentions_password fst snd];
    try destruct (includes (lit "password") m); simpl; auto.
Qed.

(** X4.  [convertPdfToImages] throws exactly when PDF.js cannot load the
    buffer, and then one of its two errors: [PDFEncryptedError] when the
    failure is an [Error] whose message contains [password],
    [PDFCorruptedError] with the text of the failure otherwise.  The
    rasterizer itself logs no line that is visible to the user, and the
    buffer was handed to the parser once. *)
Theorem rasterizer_load_errors (w : World) (buffer : bytes) (scale : Q) (maxPages : Z) :
  let run := convertPdfToImages w buffer scale maxPages in
  match getDocument w buffer with
  | Ret doc => exists images, result run = Ret images
  | Throw e =>
      result run
      = Throw (if mentions_password e
               then PDFEncryptedError (lit "PDF is password protected")
               else PDFCorruptedError (lit "Failed to load PDF: " ++ exn_to_string e))
      /\ shown (trace run) = []
      /\ parsed_buffers (trace run) = [buffer]
  end.
Proof.
  intros run. destruct (getDocument w buffer) as [doc|e] eqn:Hd.
  - eexists. apply convertPdfToImages_result. exact Hd.
  - apply convert_load_failure. exact Hd.
Qed.

(** X5.  [getPdfInfo] reports the page count of the loaded document and
    never reports it as encrypted; when PDF.js cannot load the buffer its
    error is passed on as it is.  Whatever the page limit, the rasterizer
    returns no more images than that page count. *)
Theorem getPdfInfo_page_count (w : World) (buffer : bytes) (scale : Q) (maxPages : Z) :
  match getDocument w buffer with
  | Ret doc =>
      result (getPdfInfo w buffer)
      = Ret {| pageCount := numPages doc; isEncrypted := false |}
      /\ exists images,
           result (convertPdfToImages w buffer scale maxPages) = Ret images
           /\ (N.of_nat (List.length images) <= numPages doc)%N
  | Throw e => result (getPdfInfo w buffer) = Throw e
  end.
Proof.
  unfold getPdfInfo, pluginLogger, emit, lift, ret, bind.
  destruct (getDocument w buffer) as [doc|e] eqn:Hd; simpl; auto.
  split; auto. eexists. split; [apply convertPdfToImages_result; exact Hd|].
  pose proof (keep_some_length (page_image doc scale)
                (page_numbers 1 (Z.to_nat (Z.min (Z.of_N (numPages doc)) maxPages)))) as Hk.
  rewrite page_numbers_length in Hk. lia.
Qed.

(* ===================================================================== *)
(** * The PDF command                                                     *)
(* ===================================================================== *)

(** Break a run into its steps; an event that is not singled out by the
    predicate is accepted. *)
Ltac quiet_step :=
  match goal with
  | |- only _ (ret _) => apply only_ret
  | |- only _ (throw _) => apply only_throw
  | |- only _ (lift _) => apply only_lift
  | |- only _ (pluginLog _ _ _) => apply only_emit; exact I
  | |- only _ (pluginLogger _) => apply only_emit; exact I
  | |- only _ (emit _) => apply only_emit; exact I
  | |- only _ (bind _ _) => apply only_bind; [| intros ? ?]
  | |- only _ (try_catch _ _) => apply only_try; [| intros ?]
  | |- only _ (match ?x with _ => _ end) => destruct x
  | |- only _ (let (_, _) := ?x in _) => destruct x
  end.

Ltac quiet_steps := repeat quiet_step.

Lemma renderLoop_quiet doc scale ptp : forall count p acc,
  only quiet (renderLoop doc scale ptp count p acc).
Proof.
  induction count as [|n IH]; intros p acc; cbn [renderLoop].
  - quiet_steps.
  - quiet_step; [unfold renderOne; quiet_steps | apply IH].
Qed.

Lemma convertPdfToImages_quiet w buffer scale maxPages :
  only quiet (convertPdfToImages w buffer scale maxPages).
Proof.
  unfold convertPdfToImages.
  quiet_step; [quiet_steps|]. quiet_step.
  - quiet_steps.
  - quiet_step; [quiet_steps|]. apply renderLoop_quiet.
Qed.

Lemma theProvider_quiet sv settings : only quiet (theProvider sv settings).
Proof. unfold theProvider, getProvider. quiet_steps. Qed.

(** The page loop, when the provider answers every page. *)
Lemma extractPages_answers sv p answer :
  (forall b, extractTextFromBase64 sv p b = Ret (answer b)) ->
  forall pages i total acc,
    let run := extractPages sv (Instance p) pages i total acc in
    result run = Ret (acc ++ flat_map (fun pg => kept_text (answer (pbase64 pg))) pages)
    /\ provider_inputs (trace run) = List.map pbase64 pages
    /\ handled (trace run) = []
    /\ shown (trace run) = [].
Proof.
  intros Hans. induction pages as [|pg rest IH]; intros i total acc run.
  - subst run. simpl. now rewrite List.app_nil_r.
  - subst run. cbn [extractPages callExtract].
    unfold emit, lift. rewrite Hans. cbv beta iota delta [bind].
    specialize (IH (S i) total
                  (match answer (pbase64 pg) with
                   | Some (c :: t) => acc ++ [c :: t]
                   | _ => acc
                   end)).
    cbv zeta in IH.
    destruct (extractPages sv (Instance p) rest (S i) total _) as [tr o].
    cbn [trace result fst snd] in *. destruct IH as (Hr & Hi & Hh & Hs).
    cbn [app provider_inputs handled shown]. rewrite Hi, Hh, Hs, Hr.
    repeat split; auto. f_equal. cbn [flat_map].
    destruct (answer (pbase64 pg)) as [[|c t]|]; cbn [kept_text app]; auto.
    now rewrite <- List.app_assoc.
Qed.

(** Unfold the operations of a run whose parts are explicit pairs. *)
Ltac run_pairs :=
  cbv beta iota delta [bind ret lift emit pluginLogger pluginLog try_catch throw
                       trace result fst snd].

Ltac read_trace :=
  repeat (progress (rewrite ?provider_inputs_app, ?handled_app, ?shown_app;
                    cbn [app provider_inputs handled shown])).

Lemma join_cons sep one more :
  match more with [] => one | _ :: _ => join sep (one :: more) end
  = join sep (one :: more).
Proof. destruct more; reflexivity. Qed.

(** X6.  [processPdfFile], when the rasterizer returns and the provider is
    constructed and answers every page: every page image is sent to the
    provider exactly once, in page order; the formatter is called once,
    with the editor, on the non-empty answers joined by the page separator,
    and not at all when no answer has text. *)
Theorem pdf_pages_sent_in_order (w : World) (sv : Services) (settings : Settings)
    (buffer : bytes) (l : jsstr) (images : list PDFPageImage) (p : Provider)
    (answer : jsstr -> option jsstr) :
  result (convertPdfToImages w buffer (nullish (pdfScale settings) 2%Q)
            (nullish (pdfMaxPages settings) 50%Z)) = Ret images ->
  result (theProvider sv settings) = Ret (Instance p) ->
  (forall b, extractTextFromBase64 sv p b = Ret (answer b)) ->
  let run := processPdfFile w sv settings buffer l in
  let texts := flat_map (fun pg => kept_text (answer (pbase64 pg))) images in
  provider_inputs (trace run) = List.map pbase64 images
  /\ handled (trace run)
     = match texts with
       | [] => []
       | _ :: _ => [(One (join page_separator texts), true)]
       end.
Proof.
  intros Hconv Hprov Hans run texts. subst run texts.
  unfold processPdfFile. cbv zeta.
  pose proof (convertPdfToImages_quiet w buffer (nullish (pdfScale settings) 2%Q)
                (nullish (pdfMaxPages settings) 50%Z)) as Hq.
  apply quiet_trace in Hq. destruct Hq as (Hqi & Hqh & _).
  destruct (convertPdfToImages w buffer _ _) as [trc oc].
  cbn [trace result fst snd] in Hconv, Hqi, Hqh. subst oc.
  destruct images as [|first rest].
  - run_pairs. read_trace. rewrite Hqi, Hqh. auto.
  - pose proof (theProvider_quiet sv settings) as Hp.
    apply quiet_trace in Hp. destruct Hp as (Hpi & Hph & _).
    destruct (theProvider sv settings) as [trp op].
    cbn [trace result fst snd] in Hprov, Hpi, Hph. subst op.
    pose proof (extractPages_answers sv p answer Hans (first :: rest) 0
                  (List.length (first :: rest)) []) as He.
    cbv zeta in He. destruct He as (Her & Hei & Heh & _).
    run_pairs.
    destruct (extractPages sv (Instance p) (first :: rest) 0 _ []) as [tre oe].
    cbn [trace result fst snd] in Her, Hei, Heh. subst oe.
    cbn [app] in *.
    set (texts := flat_map (fun pg => kept_text (answer (pbase64 pg))) (first :: rest)).
    destruct texts as [|one more] eqn:Ht.
    + run_pairs. read_trace. rewrite Hqi, Hqh, Hpi, Hph, Hei, Heh.
      cbn [app]. rewrite ?List.app_nil_r. auto.
    + unfold handle.
      destruct (handleExtractedContent sv settings _ true _) as [[]|e] eqn:Hh.
      * run_pairs. read_trace. rewrite Hqi, Hqh, Hpi, Hph, Hei, Heh.
        cbn [app]. rewrite ?List.app_nil_r. split; auto. rewrite join_cons. reflexivity.
      * run_pairs. destruct e; read_trace; rewrite Hqi, Hqh, Hpi, Hph, Hei, Heh;
          cbn [app]; rewrite ?List.app_nil_r; (split; auto; rewrite join_cons; reflexivity).
Qed.

Lemma pdf_pages_sent_in_order_witness :
  let run := processPdfFile Demo.world Demo.services DEFAULT_SETTINGS Demo.pdf_bytes
               (lit "paper.pdf") in
  provider_inputs (trace run) = [lit "iVBORw0KGgo="; lit "iVBORw0KGgo="]
  /\ handled (trace run)
     = [(One (lit "Hello world" ++ page_separator ++ lit "Hello world"), true)].
Proof.
  apply (pdf_pages_sent_in_order Demo.world Demo.services DEFAULT_SETTINGS Demo.pdf_bytes
           (lit "paper.pdf")
           [ {| pageNumber := 1; pbase64 := lit "iVBORw0KGgo=";
                pwidth := 1224; pheight := 1584 |};
             {| pageNumber := 3; pbase64 := lit "iVBORw0KGgo=";
                pwidth := 1224; pheight := 1584 |} ]
           (openAiFactory DEFAULT_SETTINGS (friendlyProviderName Demo.services)
              (lit "gpt-4o"))
           (fun _ => Some (lit "Hello world")));
    reflexivity.
Defined.

Lemma try_catch_unit (c : M unit) (h : exn -> M unit) :
  (forall e, result (h e) = Ret tt) -> result (try_catch c h) = Ret tt.
Proof.
  intros Hh. destruct c as [tr [[]|e]]; simpl; auto.
  specialize (Hh e). destruct (h e) as [tr' r]. exact Hh.
Qed.

(** X7.  [processPdfFile] never throws: whatever the rasterizer, the
    provider construction, the provider and the formatter do, the failure is
    caught and the command returns. *)
Theorem processPdfFile_never_throws (w : World) (sv : Services) (settings : Settings)
    (buffer : bytes) (l : jsstr) :
  result (processPdfFile w sv settings buffer l) = Ret tt.
Proof.
  unfold processPdfFile.
  rewrite (result_bind_ret _ _ tt) by reflexivity.
  rewrite (result_bind_ret _ _ tt) by reflexivity.
  apply try_catch_unit. intros e.
  rewrite (result_bind_ret _ _ tt) by reflexivity.
  destruct e; try reflexivity.
Qed.

(** X8.  When PDF.js cannot load the buffer, [processPdfFile] sends
    nothing to the provider and nothing to the formatter, and the only log
    line that is visible to the user is one notice: the password notice
    when the failure is an [Error] whose message contains [password], the
    corrupted-file notice otherwise. *)
Theorem pdf_load_failure_reported (w : World) (sv : Services) (settings : Settings)
    (buffer : bytes) (l : jsstr) (e : exn) :
  getDocument w buffer = Throw e ->
  let run := processPdfFile w sv settings buffer l in
  shown (trace run)
  = [(if mentions_password e
      then lit "Cannot process password-protected PDF."
      else lit "PDF appears to be corrupted or invalid.", LvNotice)]
  /\ provider_inputs (trace run) = []
  /\ handled (trace run) = [].
Proof.
  intros Hd run. subst run. unfold processPdfFile. cbv zeta.
  pose proof (convert_load_failure w buffer (nullish (pdfScale settings) 2%Q)
                (nullish (pdfMaxPages settings) 50%Z) e Hd) as Hc.
  cbv zeta in Hc. destruct Hc as (Hr & Hs & _).
  pose proof (convertPdfToImages_quiet w buffer (nullish (pdfScale settings) 2%Q)
                (nullish (pdfMaxPages settings) 50%Z)) as Hq.
  apply quiet_trace in Hq. destruct Hq as (Hqi & Hqh & _).
  destruct (convertPdfToImages w buffer _ _) as [trc oc].
  cbn [trace result fst snd] in Hr, Hs, Hqi, Hqh. subst oc.
  destruct (mentions_password e);
    run_pairs; read_trace; rewrite Hs, Hqi, Hqh; auto.
Qed.

Lemma pdf_load_failure_reported_witness :
  let run := processPdfFile Demo.world Demo.services DEFAULT_SETTINGS Demo.text_bytes
               (lit "notes.pdf") in
  shown (trace run) = [(lit "PDF appears to be corrupted or invalid.", LvNotice)]
  /\ provider_inputs (trace run) = []
  /\ handled (trace run) = [].
Proof.
  apply (pdf_load_failure_reported Demo.world Demo.services DEFAULT_SETTINGS
           Demo.text_bytes (lit "notes.pdf") (Error (lit "Invalid PDF structure."))).
  reflexivity.
Defined.

(** The page loop, when the provider fails on a page. *)
Lemma extractPages_fails sv p pg after e :
  extractTextFromBase64 sv p (pbase64 pg) = Throw e ->
  forall before i total acc,
    (forall q, In q before -> exists t, extractTextFromBase64 sv p (pbase64 q) = Ret t) ->
    let run := extractPages sv (Instance p) (before ++ pg :: after) i total acc in
    result run = Throw e
    /\ provider_inputs (trace run) = List.map pbase64 (before ++ [pg])
    /\ handled (trace run) = []
    /\ shown (trace run) = [].
Proof.
  intros Hfail. induction before as [|q before IH]; intros i total acc Hans run.
  - subst run. cbn [app extractPages callExtract]. unfold emit, lift.
    rewrite Hfail. cbv beta iota delta [bind]. cbn. auto.
  - subst run. cbn [app extractPages callExtract]. unfold emit, lift.
    destruct (Hans q (or_introl eq_refl)) as (t & Ht). rewrite Ht.
    cbv beta iota delta [bind].
    specialize (IH (S i) total
                  (match t with
                   | Some (c :: t0) => acc ++ [c :: t0]
                   | _ => acc
                   end)
                  (fun q' Hq' => Hans q' (or_intror Hq'))).
    cbv zeta in IH.
    destruct (extractPages sv (Instance p) (before ++ pg :: after) (S i) total _)
      as [tr o].
    cbn [trace result fst snd] in *. destruct IH as (Hr & Hi & Hh & Hs).
    cbn [app provider_inputs handled shown List.map]. rewrite Hi, Hh, Hs, Hr. auto.
Qed.

(** X9.  When the provider throws on a page, [processPdfFile] stops there:
    the pages before it and that page are the only ones sent, nothing is
    handed to the formatter, and after what the rasterizer showed the user
    is shown the failure. *)
Theorem pdf_provider_failure_aborts (w : World) (sv : Services) (settings : Settings)
    (buffer : bytes) (l : jsstr) (before after : list PDFPageImage)
    (pg : PDFPageImage) (p : Provider) (e : exn) :
  result (convertPdfToImages w buffer (nullish (pdfScale settings) 2%Q)
            (nullish (pdfMaxPages settings) 50%Z)) = Ret (before ++ pg :: after) ->
  result (theProvider sv settings) = Ret (Instance p) ->
  (forall q, In q before -> exists t, extractTextFromBase64 sv p (pbase64 q) = Ret t) ->
  extractTextFromBase64 sv p (pbase64 pg) = Throw e ->
  let run := processPdfFile w sv settings buffer l in
  provider_inputs (trace run) = List.map pbase64 (before ++ [pg])
  /\ handled (trace run) = []
  /\ shown (trace run)
     = shown (trace (convertPdfToImages w buffer (nullish (pdfScale settings) 2%Q)
                       (nullish (pdfMaxPages settings) 50%Z)))
         ++ match e with
            | PDFEncryptedError _ =>
                [(lit "Cannot process password-protected PDF.", LvNotice)]
            | PDFCorruptedError _ =>
                [(lit "PDF appears to be corrupted or invalid.", LvNotice)]
            | _ =>
                [(lit "Failed to process PDF: " ++ exn_to_string e, LvError);
                 (lit "Failed to process PDF.", LvNotice)]
            end.
Proof.
  intros Hconv Hprov Hans Hfail run. subst run.
  unfold processPdfFile. cbv zeta.
  pose proof (convertPdfToImages_quiet w buffer (nullish (pdfScale settings) 2%Q)
                (nullish (pdfMaxPages settings) 50%Z)) as Hq.
  apply quiet_trace in Hq. destruct Hq as (Hqi & Hqh & _).
  destruct (convertPdfToImages w buffer _ _) as [trc oc].
  cbn [trace result fst snd] in Hconv, Hqi, Hqh. subst oc.
  pose proof (theProvider_quiet sv settings) as Hp.
  pose proof Hp as Hps. apply quiet_trace in Hp. destruct Hp as (Hpi & Hph & _).
  assert (Hpshown : shown (trace (theProvider sv settings)) = []).
  { unfold theProvider, getProvider. destruct (js_get _ _); reflexivity. }
  destruct (theProvider sv settings) as [trp op].
  cbn [trace result fst snd] in Hprov, Hpi, Hph, Hpshown. subst op.
  pose proof (extractPages_fails sv p pg after e Hfail before 0
                (List.length (before ++ pg :: after)) [] Hans) as He.
  cbv zeta in He. destruct He as (Her & Hei & Heh & Hes).
  destruct (before ++ pg :: after) as [|first rest] eqn:Hpages.
  { destruct before; discriminate. }
  run_pairs.
  destruct (extractPages sv (Instance p) (first :: rest) 0 _ []) as [tre oe].
  cbn [trace result fst snd] in Her, Hei, Heh, Hes. subst oe.
  run_pairs.
  destruct e; read_trace; rewrite Hqi, Hqh, Hpi, Hph, Hei, Heh, Hpshown, Hes;
    cbn [app]; rewrite ?List.app_nil_r; auto.
Qed.

Lemma pdf_provider_failure_aborts_witness :
  let run := processPdfFile Demo.world Demo.failing_services DEFAULT_SETTINGS
               Demo.pdf_bytes (lit "paper.pdf") in
  provider_inputs (trace run) = [lit "iVBORw0KGgo="]
  /\ handled (trace run) = []
  /\ shown (trace run)
     = [(lit "Failed to render page 2: Error: render failed", LvWarn);
        (lit "Failed to process PDF: Error: rate limited", LvError);
        (lit "Failed to process PDF.", LvNotice)].
Proof.
  apply (pdf_provider_failure_aborts Demo.world Demo.failing_services DEFAULT_SETTINGS
           Demo.pdf_bytes (lit "paper.pdf") []
           [ {| pageNumber := 3; pbase64 := lit "iVBORw0KGgo=";
                pwidth := 1224; pheight := 1584 |} ]
           {| pageNumber := 1; pbase64 := lit "iVBORw0KGgo=";
              pwidth := 1224; pheight := 1584 |}
           (openAiFactory DEFAULT_SETTINGS (friendlyProviderName Demo.failing_services)
              (lit "gpt-4o"))
           (Error (lit "rate limited")));
    try reflexivity.
  intros q [].
Defined.

(* ===================================================================== *)
(** * Extensions, filters and MIME types                                  *)
(* ===================================================================== *)

Lemma has_extension_in_iff ws l :
  has_extension_in ws l
  <-> includes_cu 46 l = true /\ In (toLowerCase (split_last 46 l)) ws.
Proof.
  unfold has_extension_in, extension_of. destruct (includes_cu 46 l); split.
  - intros (e & He & Hin). inversion He; subst. auto.
  - intros [_ Hin]. eauto.
  - intros (e & He & _). discriminate.
  - intros [H _]. discriminate.
Qed.

Lemma isPdfFile_spec l : isPdfFile l = true <-> has_extension_in [lit "pdf"] l.
Proof.
  unfold isPdfFile, pdfExt.
  pose proof (dot_words_test (rstr "pdf") [lit "pdf"] l eq_refl eq_refl) as H.
  rewrite H. apply dot_suffix_extension. reflexivity.
Qed.

Lemma bool_eq_iff (a b : bool) : (a = true <-> b = true) -> a = b.
Proof.
  destruct a, b; intros [H1 H2]; auto;
    try (symmetry; now apply H1); try (now apply H2).
Qed.

(** X10.  The folder filter is the locator's filter without PDFs: a file
    name passes the folder filter exactly when the locator would accept it
    as a link and it is not a PDF name; and every PDF name is accepted by
    the locator. *)
Theorem folder_filter_is_locator_filter_without_pdf (l : jsstr) :
  test true folderImageExt l = isImage l && negb (isPdfFile l)
  /\ (isPdfFile l = true -> isImage l = true).
Proof.
  assert (Hpdf : isPdfFile l = true -> isImage l = true).
  { rewrite isPdfFile_spec, isImage_spec, !has_extension_in_iff.
    intros [Hd [<-|[]]]. split; auto. simpl. tauto. }
  split; [|exact Hpdf].
  apply bool_eq_iff. rewrite andb_true_iff, negb_true_iff.
  rewrite folderImage_spec, isImage_spec, !has_extension_in_iff. split.
  - intros [Hd Hin]. split.
    + split; auto. simpl in Hin |- *. tauto.
    + destruct (isPdfFile l) eqn:Hp; auto.
      apply isPdfFile_spec, has_extension_in_iff in Hp. destruct Hp as [_ [Hp|[]]].
      rewrite <- Hp in Hin. simpl in Hin.
      repeat (destruct Hin as [Hin|Hin]; [discriminate Hin|]). destruct Hin.
  - intros [[Hd Hin] Hp]. split; auto.
    simpl in Hin.
    destruct Hin as [H|[H|[H|[H|[H|[H|[H|[H|[]]]]]]]]]; simpl; try tauto.
    exfalso. assert (Ht : isPdfFile l = true).
    { apply isPdfFile_spec, has_extension_in_iff. split; auto. simpl. auto. }
    congruence.
Qed.

Lemma folder_filter_is_locator_filter_without_pdf_witness :
  test true folderImageExt (lit "paper.PDF") = false /\ isImage (lit "paper.PDF") = true.
Proof.
  destruct (folder_filter_is_locator_filter_without_pdf (lit "paper.PDF")) as [Hf Hp].
  split; [rewrite Hf; reflexivity | apply Hp; reflexivity].
Defined.

Lemma mime_known l :
  getImageMimeType l <> lit "application/octet-stream"
  <-> In (toLowerCase (split_last 46 l)) image_extensions.
Proof.
  unfold getImageMimeType.
  set (ext := toLowerCase (split_last 46 l)). split.
  - intros H.
    destruct (str_eqb ext (lit "png")) eqn:E1;
      [apply str_eqb_eq in E1; rewrite E1; simpl; tauto|].
    destruct (str_eqb ext (lit "jpg")) eqn:E2;
      [apply str_eqb_eq in E2; rewrite E2; simpl; tauto|].
    destruct (str_eqb ext (lit "jpeg")) eqn:E3;
      [apply str_eqb_eq in E3; rewrite E3; simpl; tauto|].
    destruct (str_eqb ext (lit "webp")) eqn:E4;
      [apply str_eqb_eq in E4; rewrite E4; simpl; tauto|].
    destruct (str_eqb ext (lit "gif")) eqn:E5;
      [apply str_eqb_eq in E5; rewrite E5; simpl; tauto|].
    destruct (str_eqb ext (lit "bmp")) eqn:E6;
      [apply str_eqb_eq in E6; rewrite E6; simpl; tauto|].
    destruct (str_eqb ext (lit "svg")) eqn:E7;
      [apply str_eqb_eq in E7; rewrite E7; simpl; tauto|].
    destruct (str_eqb ext (lit "pdf")) eqn:E8;
      [apply str_eqb_eq in E8; rewrite E8; simpl; tauto|].
    simpl in H. congruence.
  - intros Hin. simpl in Hin.
    destruct Hin as [H|[H|[H|[H|[H|[H|[H|[H|[]]]]]]]]]; rewrite <- H;
      vm_compute; discriminate.
Qed.

Lemma mime_pdf l :
  getImageMimeType l = lit "application/pdf"
  <-> toLowerCase (split_last 46 l) = lit "pdf".
Proof.
  unfold getImageMimeType.
  set (ext := toLowerCase (split_last 46 l)). split.
  - intros H.
    repeat match type of H with
           | (if ?c then _ else _) = _ =>
               let E := fresh "E" in
               destruct c eqn:E; [try (vm_compute in H; discriminate H)|]
           end.
    + now apply str_eqb_eq.
    + vm_compute in H. discriminate H.
  - intros ->. reflexivity.
Qed.

(** X11.  The MIME type agrees with the filters: a link is accepted by the
    locator exactly when it has a dot and its MIME type is not the
    fallback [application/octet-stream], and it is a PDF name exactly when
    it has a dot and its MIME type is [application/pdf]. *)
Theorem mime_type_agrees_with_filters (l : jsstr) :
  (isImage l = true
   <-> includes_cu 46 l = true
       /\ getImageMimeType l <> lit "application/octet-stream")
  /\ (isPdfFile l = true
      <-> includes_cu 46 l = true /\ getImageMimeType l = lit "application/pdf").
Proof.
  split.
  - rewrite isImage_spec, has_extension_in_iff, mime_known. reflexivity.
  - rewrite isPdfFile_spec, has_extension_in_iff, mime_pdf. simpl. split.
    + intros [Hd [H|[]]]. auto.
    + intros [Hd H]. auto.
Qed.

(* ===================================================================== *)
(** * The leftmost match                                                  *)
(* ===================================================================== *)

Lemma match_at_sound ic r pos s m :
  match_at ic r pos s = Some m ->
  r_index m = pos /\ s = r_text m ++ r_after m
  /\ Matches ic r pos (r_text m) (r_after m).
Proof.
  unfold match_at.
  destruct (rmatch ic r (MState pos s []) Some) as [st|] eqn:H; [|discriminate].
  intros Hm. inversion Hm; subst m; clear Hm. cbn [r_index r_text r_after].
  destruct (rmatch_sound ic r _ _ _ H) as (s1 & rest & st' & Hr & HM & Hp & Hrest & Hk).
  inversion Hk; subst st'. cbn [m_rest m_pos] in *. subst s.
  rewrite Hp. replace (pos + List.length s1 - pos) with (List.length s1) by lia.
  rewrite List.firstn_app, Nat.sub_diag, List.firstn_all. cbn [firstn].
  rewrite List.app_nil_r, Hrest. auto.
Qed.

(** What [search_from] finds is a match, and no match begins before it. *)
Lemma search_from_sound ic r : forall s pos m,
  search_from ic r pos s = Some m ->
  exists pre,
    s = pre ++ r_text m ++ r_after m
    /\ r_index m = pos + List.length pre
    /\ Matches ic r (pos + List.length pre) (r_text m) (r_after m)
    /\ (forall pre' s1 rest,
          s = pre' ++ s1 ++ rest -> Matches ic r (pos + List.length pre') s1 rest ->
          List.length pre <= List.length pre').
Proof.
  induction s as [|c t IH]; intros pos m H; cbn [search_from] in H.
  - destruct (match_at ic r pos []) eqn:Hm; [|discriminate]. inversion H; subst.
    apply match_at_sound in Hm. destruct Hm as (Hi & Hs & HM).
    exists []. cbn [List.length app]. rewrite Nat.add_0_r. repeat split; auto.
    intros; lia.
  - destruct (match_at ic r pos (c :: t)) eqn:Hm.
    + inversion H; subst. apply match_at_sound in Hm. destruct Hm as (Hi & Hs & HM).
      exists []. cbn [List.length app]. rewrite Nat.add_0_r. repeat split; auto.
      intros; lia.
    + destruct (IH _ _ H) as (pre & Hs & Hi & HM & Hleft).
      exists (c :: pre). cbn [List.length app].
      replace (pos + S (List.length pre)) with (S pos + List.length pre) by lia.
      repeat split; auto.
      * now rewrite <- Hs.
      * intros pre' s1 rest Hd HM'. destruct pre' as [|c' pre'].
        -- exfalso. cbn [List.length app] in *. rewrite Nat.add_0_r in HM'.
           assert (Hn : match_at ic r pos (c :: t) <> None).
           { apply match_at_spec. eauto. }
           congruence.
        -- cbn [List.length app] in *. inversion Hd; subst c'.
           assert (List.length pre <= List.length pre'); [|lia].
           apply (Hleft pre' s1 rest); auto.
           now replace (S pos + List.length pre') with (pos + S (List.length pre')) by lia.
Qed.

Lemma search_sound ic r s m :
  search ic r s = Some m ->
  exists pre,
    s = pre ++ r_text m ++ r_after m
    /\ r_index m = List.length pre
    /\ Matches ic r (List.length pre) (r_text m) (r_after m)
    /\ (forall pre' s1 rest,
          s = pre' ++ s1 ++ rest -> Matches ic r (List.length pre') s1 rest ->
          List.length pre <= List.length pre').
Proof. intros H. apply (search_from_sound ic r s 0 m H). Qed.

Lemma search_some ic r s pre s1 rest :
  s = pre ++ s1 ++ rest -> Matches ic r (List.length pre) s1 rest ->
  exists m, search ic r s = Some m.
Proof.
  intros Hs HM.
  assert (Hn : search_from ic r 0 s <> None).
  { apply search_from_spec. exists pre, s1, rest. auto. }
  unfold search. destruct (search_from ic r 0 s); [eauto|congruence].
Qed.

Lemma search_none ic r s :
  (forall pre s1 rest, s = pre ++ s1 ++ rest -> ~ Matches ic r (List.length pre) s1 rest) ->
  search ic r s = None.
Proof.
  intros H. unfold search. destruct (search_from ic r 0 s) eqn:Hs; auto.
  exfalso. assert (Hn : search_from ic r 0 s <> None) by congruence.
  apply search_from_spec in Hn. destruct Hn as (pre & s1 & rest & Hd & HM).
  eapply H; eauto.
Qed.

(** Replacing the first match by nothing, when every match ends the text:
    the text before the match stays. *)
Lemma replace_first_suffix ic r s pre s1 :
  s = pre ++ s1 -> Matches ic r (List.length pre) s1 [] ->
  (forall pre' s1' rest, s = pre' ++ s1' ++ rest ->
                         Matches ic r (List.length pre') s1' rest ->
                         rest = [] /\ pre' = pre) ->
  replace_first ic r [] s = pre.
Proof.
  intros Hs HM Huniq. unfold replace_first.
  destruct (search_some ic r s pre s1 []) as (m & Hm); auto.
  { now rewrite List.app_nil_r. }
  rewrite Hm. destruct (search_sound _ _ _ _ Hm) as (pre0 & Hd & Hi & HM0 & _).
  destruct (Huniq _ _ _ Hd HM0) as [Hr Hp]. subst pre0. rewrite Hr, Hi.
  rewrite Hd, List.firstn_app, Nat.sub_diag, List.firstn_all. cbn [firstn app].
  now rewrite !List.app_nil_r.
Qed.

(* ===================================================================== *)
(** * One slash at the end                                                *)
(* ===================================================================== *)

Lemma Matches_trailingSlash pos s1 rest :
  Matches false trailingSlash pos s1 rest <-> s1 = [47%N] /\ rest = [].
Proof.
  unfold trailingSlash, rseq. cbn [fold_right Matches]. split.
  - intros (sa & sb & -> & (x & -> & Hx) & sc & sd & -> & (-> & Hr) & ->).
    unfold char_eq in Hx. apply N.eqb_eq in Hx. subst x.
    cbn [app] in *. auto.
  - intros [-> ->]. exists [47%N], []. repeat split; auto.
    + exists 47%N. auto.
    + exists [], []. auto.
Qed.

Lemma replace_trailing_slash s :
  replace_first false trailingSlash [] s = strip_slash s.
Proof.
  unfold strip_slash. destruct (rev s) as [|c t] eqn:Hrev.
  - assert (s = []) by (apply (f_equal (@rev N)) in Hrev; now rewrite List.rev_involutive in Hrev).
    subst s. reflexivity.
  - assert (Hs : s = rev t ++ [c]).
    { apply (f_equal (@rev N)) in Hrev. now rewrite List.rev_involutive in Hrev. }
    destruct (N.eqb_spec c 47) as [->|Hc].
    + apply (replace_first_suffix false trailingSlash s (rev t) [47%N]); auto.
      * apply Matches_trailingSlash. auto.
      * intros pre' s1' rest Hd HM. apply Matches_trailingSlash in HM.
        destruct HM as [-> ->]. split; auto.
        rewrite Hs in Hd. cbn [app] in Hd. apply List.app_inj_tail in Hd.
        destruct Hd as [Hd _]. auto.
    + unfold replace_first. rewrite search_none; auto.
      intros pre s1 rest Hd HM. apply Matches_trailingSlash in HM.
      destruct HM as [-> ->]. rewrite Hs in Hd. cbn [app] in Hd.
      apply List.app_inj_tail in Hd. destruct Hd as [_ Hd]. congruence.
Qed.

(** X12.  For the two local servers [getProvider] builds an
    OpenAI-compatible provider with an empty key whose endpoint is the
    configured URL without one slash at its end, or the default address
    when that is empty; the endpoint is never empty. *)
Theorem local_provider_endpoint (settings : Settings)
    (fpn : Settings -> jsstr -> option jsstr) :
  (provider settings = lit "ollama" ->
   exists p,
     result (getProvider settings fpn) = Ret (Instance p)
     /\ p_apiKey p = []
     /\ p_endpoint p
        = Some (or_else (strip_slash (ollamaUrl settings)) (lit "http://localhost:11434"))
     /\ p_endpoint p <> Some []
     /\ p_model p = or_else (ollamaModel settings) (lit "llama3.2-vision"))
  /\ (provider settings = lit "lmstudio" ->
      exists p,
        result (getProvider settings fpn) = Ret (Instance p)
        /\ p_apiKey p = []
        /\ p_endpoint p
           = Some (or_else (strip_slash (lmstudioUrl settings)) (lit "http://localhost:1234"))
        /\ p_endpoint p <> Some []
        /\ p_model p = or_else (lmstudioModel settings) (lit "gemma3")).
Proof.
  split; intros Hid.
  - eexists. split.
    + unfold getProvider, js_get. rewrite Hid.
      erewrite factories_lookup; [reflexivity|].
      unfold factory_table. do 8 right. left. rewrite <- Hid. reflexivity.
    + cbn [p_apiKey p_endpoint p_model localFactory].
      rewrite replace_trailing_slash. repeat split; auto.
      intros H. inversion H as [H']. revert H'. apply or_else_nonempty. discriminate.
  - eexists. split.
    + unfold getProvider, js_get. rewrite Hid.
      erewrite factories_lookup; [reflexivity|].
      unfold factory_table. do 9 right. left. rewrite <- Hid. reflexivity.
    + cbn [p_apiKey p_endpoint p_model localFactory].
      rewrite replace_trailing_slash. repeat split; auto.
      intros H. inversion H as [H']. revert H'. apply or_else_nonempty. discriminate.
Qed.

Lemma local_provider_endpoint_witness :
  let settings := Demo.with_provider (lit "ollama") DEFAULT_SETTINGS in
  exists p,
    result (getProvider settings (friendlyProviderName Demo.services)) = Ret (Instance p)
    /\ p_apiKey p = []
    /\ p_endpoint p
       = Some (or_else (strip_slash (ollamaUrl settings)) (lit "http://localhost:11434"))
    /\ p_endpoint p <> Some []
    /\ p_model p = or_else (ollamaModel settings) (lit "llama3.2-vision").
Proof.
  intros settings.
  apply (proj1 (local_provider_endpoint settings (friendlyProviderName Demo.services))).
  reflexivity.
Defined.

(* ===================================================================== *)
(** * The name without its extension                                      *)
(* ===================================================================== *)

Lemma Matches_lastExtension pos s1 rest :
  Matches false lastExtension pos s1 rest
  <-> exists e, s1 = 46%N :: e /\ existsb (N.eqb 46) e = false /\ rest = [].
Proof.
  unfold lastExtension, rseq. cbn [fold_right Matches]. split.
  - intros (sa & sb & -> & (x & -> & Hx) & sc & sd & -> & Hall & se & sf & ->
            & (-> & Hr) & ->).
    unfold char_eq in Hx. apply N.eqb_eq in Hx. subst x.
    cbn [app] in *. rewrite List.app_nil_r. exists sc. repeat split; auto.
    clear - Hall. induction sc as [|c sc IH]; cbn [forallb existsb] in *; auto.
    apply andb_prop in Hall. destruct Hall as [Hc Hs]. rewrite (IH Hs), orb_false_r.
    unfold not_char in Hc. apply negb_true_iff in Hc. now rewrite N.eqb_sym.
  - intros (e & -> & He & ->). exists [46%N], e. repeat split; auto.
    + exists 46%N. auto.
    + exists e, []. rewrite List.app_nil_r. repeat split; auto.
      * clear - He. induction e as [|c e IH]; cbn [forallb existsb] in *; auto.
        apply orb_false_elim in He. destruct He as [Hc He]. rewrite (IH He), andb_true_r.
        unfold not_char. apply negb_true_iff. now rewrite N.eqb_sym.
      * exists [], []. auto.
Qed.

(** The text after the last separator is determined. *)
Lemma last_sep_unique sep : forall a b e f,
  a ++ sep :: e = b ++ sep :: f ->
  existsb (N.eqb sep) e = false -> existsb (N.eqb sep) f = false -> a = b.
Proof.
  induction a as [|x a IH]; intros b e f Heq He Hf.
  - destruct b as [|y b]; auto. cbn [app] in Heq. inversion Heq; subst.
    rewrite existsb_app in He. cbn [existsb] in He.
    rewrite N.eqb_refl, orb_true_r in He. discriminate.
  - destruct b as [|y b]; cbn [app] in Heq; inversion Heq; subst.
    + rewrite existsb_app in Hf. cbn [existsb] in Hf.
      rewrite N.eqb_refl, orb_true_r in Hf. discriminate.
    + f_equal. eapply IH; eauto.
Qed.

Lemma firstn_stem (stem e : jsstr) (c : N) :
  firstn (List.length (stem ++ c :: e) - S (List.length e)) (stem ++ c :: e) = stem.
Proof.
  rewrite List.length_app. cbn [List.length].
  replace (List.length stem + S (List.length e) - S (List.length e))
    with (List.length stem) by lia.
  rewrite List.firstn_app, Nat.sub_diag, List.firstn_all. cbn [firstn].
  apply List.app_nil_r.
Qed.

Lemma replace_last_extension s :
  replace_first false lastExtension [] s
  = if includes_cu 46 s then firstn (List.length s - S (List.length (split_last 46 s))) s
    else s.
Proof.
  unfold includes_cu. destruct (existsb (N.eqb 46) s) eqn:Hd.
  - destruct (split_last_decomp _ _ Hd) as (stem & Hs & He).
    remember (split_last 46 s) as e eqn:Hee. clear Hee. subst s.
    rewrite firstn_stem.
    apply (replace_first_suffix false lastExtension _ stem (46%N :: e)); auto.
    + apply Matches_lastExtension. eauto.
    + intros pre' s1' rest Hdec HM. apply Matches_lastExtension in HM.
      destruct HM as (e' & -> & He' & ->). split; auto.
      rewrite List.app_nil_r in Hdec. symmetry. eapply last_sep_unique; eauto.
  - unfold replace_first. rewrite search_none; auto.
    intros pre s1 rest Hdec HM. apply Matches_lastExtension in HM.
    destruct HM as (e & -> & _ & ->). subst s.
    rewrite existsb_app in Hd. cbn [existsb app] in Hd.
    rewrite N.eqb_refl, orb_true_r in Hd. discriminate.
Qed.

(** X13.  The batch context of a prepared image splits its file name at
    the last dot: the name and the extension, joined by a dot, are the file
    name again, and the extension holds no dot; a file name without a dot
    is kept whole, with an empty extension. *)
Theorem image_context_splits_name (img : PreparedImage) :
  let c := imageContextOf img in
  (if includes_cu 46 (name img)
   then ic_name c ++ [46%N] ++ ic_extension c = name img
        /\ includes_cu 46 (ic_extension c) = false
   else ic_name c = name img /\ ic_extension c = [])
  /\ ic_path c = psource img /\ ic_size c = size img.
Proof.
  intros c. subst c. unfold imageContextOf. cbn [ic_name ic_extension ic_path ic_size].
  split; [|auto]. rewrite replace_last_extension.
  destruct (includes_cu 46 (name img)) eqn:Hd; [|auto].
  unfold includes_cu in Hd. destruct (split_last_decomp _ _ Hd) as (stem & Hs & He).
  split; [|exact He].
  remember (split_last 46 (name img)) as e eqn:Hee. clear Hee.
  rewrite Hs. now rewrite firstn_stem.
Qed.

(* ===================================================================== *)
(** * Trimmed text                                                        *)
(* ===================================================================== *)

Lemma trimEnd_decomp t :
  exists w2, t = trimEnd t ++ w2 /\ forallb is_space w2 = true.
Proof.
  destruct (trimStart_decomp (rev t)) as (w & Hw & Hs). exists (rev w). split.
  - unfold trimEnd. rewrite <- List.rev_app_distr, <- Hw. now rewrite List.rev_involutive.
  - now rewrite forallb_rev.
Qed.

Lemma trim_decomp s :
  exists w1 w2, s = w1 ++ trim s ++ w2
                /\ forallb is_space w1 = true /\ forallb is_space w2 = true.
Proof.
  destruct (trimStart_decomp s) as (w1 & Hs & H1).
  destruct (trimEnd_decomp (trimStart s)) as (w2 & Ht & H2).
  exists w1, w2. unfold trim. rewrite <- Ht. auto.
Qed.

Lemma trim_idem s : trim (trim s) = trim s.
Proof.
  destruct (trim_decomp s) as (w1 & w2 & Hs & H1 & H2).
  rewrite Hs at 2. symmetry. now apply trim_spaces.
Qed.

Lemma trim_In s c : In c (trim s) -> In c s.
Proof.
  destruct (trim_decomp s) as (w1 & w2 & Hs & _). intros H. rewrite Hs.
  apply List.in_or_app. right. apply List.in_or_app. auto.
Qed.

Lemma includes_cu_In c s : includes_cu c s = true <-> In c s.
Proof.
  unfold includes_cu. rewrite existsb_exists. split.
  - intros (x & Hx & He). apply N.eqb_eq in He. now subst.
  - intros H. exists c. split; auto. apply N.eqb_refl.
Qed.

Lemma includes_cu_false c s : includes_cu c s = false <-> ~ In c s.
Proof.
  rewrite <- includes_cu_In. destruct (includes_cu c s); split; congruence.
Qed.

Lemma split_first_In sep s c : In c (split_first sep s) -> In c s /\ c <> sep.
Proof.
  induction s as [|x s IH]; cbn [split_first]; [tauto|].
  destruct (N.eqb_spec x sep) as [->|Hx]; [intros []|].
  intros [<-|H]; [split; [left|]; auto|]. destruct (IH H). split; [right|]; auto.
Qed.

(* ===================================================================== *)
(** * The locator                                                         *)
(* ===================================================================== *)

Lemma starts_with_bang text ic r0 r1 m :
  search ic (RSeq (rstr "![") (RSeq r0 r1)) text = Some m \/
  search ic (RSeq (rstr "![[") (RSeq r0 r1)) text = Some m ->
  ic = false ->
  (exists pre, text = pre ++ r_text m ++ r_after m)
  /\ startsWith (lit "![") (r_text m) = true.
Proof.
  intros H ->. destruct H as [H|H];
    destruct (search_sound _ _ _ _ H) as (pre & Hd & _ & HM & _);
    (split; [eauto|]);
    cbn [Matches] in HM; destruct HM as (sa & sb & Hs & Ha & _);
    apply Matches_rlit, lit_eq_exact in Ha; subst sa; rewrite Hs; reflexivity.
Qed.

Lemma check_internal_shape text r :
  check_internal text = Some r ->
  embedType r = Internal /\ Embed.isExternal r = false
  /\ includes_cu 124 (link r) = false /\ trim (link r) = link r
  /\ (exists pre post, text = pre ++ embedText r ++ post)
  /\ startsWith (lit "![") (embedText r) = true.
Proof.
  unfold check_internal.
  destruct (search false internalEmbed text) as [m|] eqn:Hm; [|discriminate].
  destruct (isImage _); [|discriminate]. intros H. inversion H; subst r; clear H.
  cbn [embedType Embed.isExternal link embedText].
  destruct (starts_with_bang text false (RGroup 1 (rplusL dot)) (RSeq (rstr "]]") REps) m)
    as ((pre & Hd) & Hst); auto.
  repeat split; eauto using trim_idem.
  apply includes_cu_false. intros Hin. apply trim_In, split_first_In in Hin. tauto.
Qed.

Lemma Matches_httpUrl l :
  test true httpUrl l = true
  <-> toLowerCase (firstn 7 l) = lit "http://" \/ toLowerCase (firstn 8 l) = lit "https://".
Proof.
  rewrite test_spec. unfold httpUrl, rseq. cbn [fold_right].
  set (r := RSeq (rstr "http") (RSeq (ropt (rstr "s")) (RSeq (rstr "://") REps))).
  assert (Hw : words r = Some [lit "https://"; lit "http://"]) by reflexivity.
  split.
  - intros (pre & s1 & rest & -> & HM). cbn [Matches] in HM.
    destruct HM as (sa & sb & -> & (-> & Hp) & HM).
    apply List.length_zero_iff_nil in Hp. subst pre. cbn [app List.length] in *.
    apply (Matches_words true r _ _ _ _ Hw) in HM.
    destruct HM as (w0 & Hin & Hl).
    assert (Hlen : List.length sb = List.length w0).
    { symmetry. eapply List.Forall2_length; eauto. }
    destruct Hin as [<-|[<-|[]]].
    + right. apply lit_eq_lower in Hl; [|reflexivity].
      replace 8 with (List.length sb) by exact Hlen.
      now rewrite List.firstn_app, Nat.sub_diag, List.firstn_all, List.app_nil_r.
    + left. apply lit_eq_lower in Hl; [|reflexivity].
      replace 7 with (List.length sb) by exact Hlen.
      now rewrite List.firstn_app, Nat.sub_diag, List.firstn_all, List.app_nil_r.
  - intros H. exists [].
    destruct H as [H|H].
    + exists (firstn 7 l), (skipn 7 l). split; [symmetry; apply List.firstn_skipn|].
      cbn [Matches List.length]. exists [], (firstn 7 l). repeat split; auto.
      apply (Matches_words true r _ _ _ _ Hw). exists (lit "http://"). split.
      * right. left. reflexivity.
      * apply lit_eq_lower; auto.
    + exists (firstn 8 l), (skipn 8 l). split; [symmetry; apply List.firstn_skipn|].
      cbn [Matches List.length]. exists [], (firstn 8 l). repeat split; auto.
      apply (Matches_words true r _ _ _ _ Hw). exists (lit "https://"). split.
      * left. reflexivity.
      * apply lit_eq_lower; auto.
Qed.

Lemma remove_class_In p s c : In c (remove_class p s) -> In c s /\ p c = false.
Proof.
  unfold remove_class. rewrite List.filter_In. intros [H1 H2].
  split; auto. now apply negb_true_iff.
Qed.

Lemma check_markdown_shape text r :
  check_markdown text = Some r ->
  embedType r = External
  /\ includes_cu 32 (link r) = false /\ includes_cu 34 (link r) = false
  /\ includes_cu 39 (link r) = false
  /\ (Embed.isExternal r = true
      <-> toLowerCase (firstn 7 (link r)) = lit "http://"
          \/ toLowerCase (firstn 8 (link r)) = lit "https://")
  /\ (exists pre post, text = pre ++ embedText r ++ post)
  /\ startsWith (lit "![") (embedText r) = true.
Proof.
  unfold check_markdown.
  destruct (search false markdownEmbed text) as [m|] eqn:Hm; [|discriminate].
  destruct (isImage _); [|discriminate]. intros H. inversion H; subst r; clear H.
  cbn [embedType Embed.isExternal link embedText].
  destruct (starts_with_bang text false (RStarL dot)
              (RSeq (rstr "](") (RSeq (RGroup 1 (rplusL dot)) (RSeq (rstr ")") REps))) m)
    as ((pre & Hd) & Hst); auto.
  split; auto.
  split.
  { apply includes_cu_false. intros Hin.
    apply remove_class_In in Hin. destruct Hin as [Hin _].
    apply split_first_In in Hin. tauto. }
  split.
  { apply includes_cu_false. intros Hin.
    apply remove_class_In in Hin. destruct Hin as [_ Hq]. discriminate. }
  split.
  { apply includes_cu_false. intros Hin.
    apply remove_class_In in Hin. destruct Hin as [_ Hq]. discriminate. }
  split; [apply Matches_httpUrl|]. eauto.
Qed.

Lemma check_text_cases text r :
  check_text text = Some r ->
  check_internal text = Some r
  \/ (check_internal text = None /\ check_markdown text = Some r).
Proof.
  unfold check_text. destruct (check_internal text); [left; congruence | right; auto].
Qed.

Lemma scan_lines_nearest ed : forall n,
  match scan_lines ed n with
  | Some r =>
      exists i, i <= n /\ check_text (getLine ed i) = Some r
                /\ forall j, i < j <= n -> check_text (getLine ed j) = None
  | None => forall i, i <= n -> check_text (getLine ed i) = None
  end.
Proof.
  induction n as [|n IH]; cbn [scan_lines].
  - destruct (check_text (getLine ed 0)) as [r|] eqn:H0.
    + exists 0. repeat split; auto. intros j Hj. lia.
    + intros i Hi. now replace i with 0 by lia.
  - destruct (check_text (getLine ed (S n))) as [r|] eqn:Hn.
    + exists (S n). repeat split; auto. intros j Hj. lia.
    + destruct (scan_lines ed n) as [r|].
      * destruct IH as (i & Hi & Hr & Hnone). exists i. repeat split; auto.
        intros j Hj. destruct (Nat.eq_dec j (S n)) as [->|]; auto. apply Hnone. lia.
      * intros i Hi. destruct (Nat.eq_dec i (S n)) as [->|]; auto. apply IH. lia.
Qed.

Lemma scan_lines_ext ed ed' : forall n,
  (forall i, i <= n -> getLine ed' i = getLine ed i) ->
  scan_lines ed' n = scan_lines ed n.
Proof.
  induction n as [|n IH]; intros H; cbn [scan_lines].
  - now rewrite H.
  - rewrite H by lia. rewrite IH; auto.
Qed.

(** The locator on one text. *)
Lemma alone_check text : findRelevantImageEmbed (alone text) = check_text text.
Proof.
  unfold findRelevantImageEmbed. cbn [alone getSelection cursorLine scan_lines getLine].
  destruct (check_text text); reflexivity.
Qed.

Lemma scan_lines_first ed i r : forall n,
  i <= n -> check_text (getLine ed i) = Some r ->
  (forall j, i < j <= n -> check_text (getLine ed j) = None) ->
  scan_lines ed n = Some r.
Proof.
  intros n Hi Hr Hnone. pose proof (scan_lines_nearest ed n) as Hn.
  destruct (scan_lines ed n) as [r'|].
  - destruct Hn as (i' & Hi' & Hr' & Hnone').
    destruct (Nat.lt_total i i') as [Hlt|[->|Hgt]].
    + rewrite (Hnone i') in Hr' by lia. discriminate.
    + congruence.
    + rewrite (Hnone' i) in Hr by lia. discriminate.
  - rewrite (Hn i Hi) in Hr. discriminate.
Qed.

(** A text on which the check finds something holds embed markup. *)
Lemma check_text_markup text r : check_text text = Some r -> holds_markup text.
Proof.
  intros H. apply check_text_cases in H. destruct H as [H|[_ H]].
  - unfold check_internal in H.
    destruct (search false internalEmbed text) as [m|] eqn:Hm; [|discriminate]. clear H.
    destruct (search_sound _ _ _ _ Hm) as (pre & Hd & _ & HM & _).
    unfold internalEmbed, rseq, rplusL in HM. cbn [fold_right Matches] in HM.
    destruct HM as (sa & sb & Ht & Ha & sc & sd & -> & Hc & se & sf & -> & He & ->).
    destruct Hc as (s1 & s2 & -> & (x & -> & Hx) & Hs2).
    apply Matches_rlit, lit_eq_exact in Ha, He. subst sa se.
    exists pre, ([x] ++ s2), (r_after m). split; [discriminate|].
    split; [cbn [app forallb]; now rewrite Hx, Hs2|].
    left. rewrite Hd, Ht, List.app_nil_r, <- !List.app_assoc. reflexivity.
  - unfold check_markdown in H.
    destruct (search false markdownEmbed text) as [m|] eqn:Hm; [|discriminate]. clear H.
    destruct (search_sound _ _ _ _ Hm) as (pre & Hd & _ & HM & _).
    unfold markdownEmbed, rseq, rplusL in HM. cbn [fold_right Matches] in HM.
    destruct HM as (sa & sb & Ht & Ha & sc & sd & -> & Hc & se & sf & -> & He
                    & sg & sh & -> & Hg & si & sj & -> & Hi' & ->).
    destruct Hg as (s1 & s2 & -> & (x & -> & Hx) & Hs2).
    apply Matches_rlit, lit_eq_exact in Ha, He, Hi'. subst sa se si.
    exists pre, ([x] ++ s2), (r_after m). split; [discriminate|].
    split; [cbn [app forallb]; now rewrite Hx, Hs2|].
    right. exists sc. split; [exact Hc|].
    rewrite Hd, Ht, List.app_nil_r, <- !List.app_assoc. reflexivity.
Qed.

(** X14.  The order in which [findRelevantImageEmbed] looks.  It returns
    null when neither the selection nor any line at or above the cursor
    holds embed markup.  What it finds in the selection taken on its own
    is its result whatever the document holds; when it finds nothing
    there, its result is what it finds in the nearest line at or above the
    cursor in which, taken on its own, it finds something.  It never
    reads a line below the cursor: two editors that agree on the
    selection, the cursor line and the lines up to it give the same
    result. *)
Theorem locator_nearest_above (ed : Editor) :
  ((forall text,
      text = getSelection ed \/ (exists i, i <= cursorLine ed /\ text = getLine ed i) ->
      ~ holds_markup text) ->
   findRelevantImageEmbed ed = None)
  /\ (forall r,
        findRelevantImageEmbed (alone (getSelection ed)) = Some r ->
        findRelevantImageEmbed ed = Some r)
  /\ (forall i r,
        i <= cursorLine ed ->
        findRelevantImageEmbed (alone (getSelection ed)) = None ->
        (forall j, i < j <= cursorLine ed ->
                   findRelevantImageEmbed (alone (getLine ed j)) = None) ->
        findRelevantImageEmbed (alone (getLine ed i)) = Some r ->
        findRelevantImageEmbed ed = Some r)
  /\ (forall ed',
        getSelection ed' = getSelection ed -> cursorLine ed' = cursorLine ed ->
        (forall i, i <= cursorLine ed -> getLine ed' i = getLine ed i) ->
        findRelevantImageEmbed ed' = findRelevantImageEmbed ed).
Proof.
  split; [|split; [|split]].
  - intros Hno. destruct (findRelevantImageEmbed ed) as [r|] eqn:Hf; [exfalso|reflexivity].
    unfold findRelevantImageEmbed in Hf.
    destruct (check_text (getSelection ed)) as [r0|] eqn:Hs.
    + apply (Hno (getSelection ed)); [left; reflexivity|].
      eapply check_text_markup; eauto.
    + pose proof (scan_lines_nearest ed (cursorLine ed)) as Hn. rewrite Hf in Hn.
      destruct Hn as (i & Hi & Hr & _).
      apply (Hno (getLine ed i)); [right; eauto|].
      eapply check_text_markup; eauto.
  - intros r. rewrite alone_check. unfold findRelevantImageEmbed. now intros ->.
  - intros i r Hi Hsel Hnone Hr. rewrite alone_check in Hsel, Hr.
    unfold findRelevantImageEmbed. rewrite Hsel.
    apply (scan_lines_first ed i r); auto.
    intros j Hj. rewrite <- alone_check. now apply Hnone.
  - intros ed' Hsel Hcur Hlines. unfold findRelevantImageEmbed.
    rewrite Hsel, Hcur, (scan_lines_ext ed ed'); auto.
Qed.

Lemma locator_nearest_above_witness :
  let lines := fun i => match i with
                        | 0 => lit "![[above.png]]"
                        | 1 => lit "the cursor is here"
                        | _ => lit "![[below.png]]"
                        end in
  let ed := {| getSelection := lit "see ![[notes.txt]]"; cursorLine := 1;
               getLine := lines |} in
  let ed' := {| getSelection := lit "see ![[notes.txt]]"; cursorLine := 1;
                getLine := fun i => match i with
                                    | 0 => lit "![[above.png]]"
                                    | 1 => lit "the cursor is here"
                                    | _ => lit "![other](below.jpg)"
                                    end |} in
  findRelevantImageEmbed ed
  = Some {| link := lit "above.png"; Embed.isExternal := false; embedType := Internal;
            embedText := lit "![[above.png]]" |}
  /\ findRelevantImageEmbed ed' = findRelevantImageEmbed ed.
Proof.
  intros lines ed ed'.
  destruct (locator_nearest_above ed) as (_ & _ & Hline & Hframe).
  split.
  - apply (Hline 0); [cbn [cursorLine ed]; lia | reflexivity | | reflexivity].
    intros j Hj. cbn [cursorLine ed] in Hj. assert (j = 1) as -> by lia. reflexivity.
  - apply (Hframe ed'); [reflexivity | reflexivity |].
    intros i Hi. destruct i as [|[|i]]; [reflexivity | reflexivity |].
    cbn [cursorLine ed] in Hi. lia.
Defined.

Lemma findRelevantImageEmbed_source ed r :
  findRelevantImageEmbed ed = Some r ->
  exists text,
    (text = getSelection ed \/ exists i, i <= cursorLine ed /\ text = getLine ed i)
    /\ check_text text = Some r.
Proof.
  unfold findRelevantImageEmbed.
  destruct (check_text (getSelection ed)) as [r0|] eqn:Hs.
  - intros H. inversion H; subst. exists (getSelection ed). auto.
  - intros H. pose proof (scan_lines_nearest ed (cursorLine ed)) as Hn.
    rewrite H in Hn. destruct Hn as (i & Hi & Hr & _).
    exists (getLine ed i). split; auto. right. exists i. auto.
Qed.

(** X15.  What [findRelevantImageEmbed] returns: its [embedText] is markup
    that occurs in the selection or in a line at or above the cursor and
    begins with [![].  The link of an internal embed is trimmed, holds no
    [|], and is never external; the link of a markdown embed holds no
    space and no quote, and is external exactly when it begins with
    [http://] or [https://], in any letter case. *)
Theorem locator_result_shape (ed : Editor) (r : EmbedResult) :
  findRelevantImageEmbed ed = Some r ->
  (exists text pre post,
     (text = getSelection ed \/ exists i, i <= cursorLine ed /\ text = getLine ed i)
     /\ text = pre ++ embedText r ++ post)
  /\ startsWith (lit "![") (embedText r) = true
  /\ match embedType r with
     | Internal =>
         Embed.isExternal r = false
         /\ includes_cu 124 (link r) = false /\ trim (link r) = link r
     | External =>
         includes_cu 32 (link r) = false /\ includes_cu 34 (link r) = false
         /\ includes_cu 39 (link r) = false
         /\ (Embed.isExternal r = true
             <-> toLowerCase (firstn 7 (link r)) = lit "http://"
                 \/ toLowerCase (firstn 8 (link r)) = lit "https://")
     end.
Proof.
  intros H. destruct (findRelevantImageEmbed_source ed r H) as (text & Hsrc & Hc).
  apply check_text_cases in Hc. destruct Hc as [Hc|[_ Hc]].
  - apply check_internal_shape in Hc.
    destruct Hc as (Ht & He & Hbar & Htrim & (pre & post & Hocc) & Hst).
    rewrite Ht. split; [exists text, pre, post; auto|]. auto.
  - apply check_markdown_shape in Hc.
    destruct Hc as (Ht & H32 & H34 & H39 & Hext & (pre & post & Hocc) & Hst).
    rewrite Ht. split; [exists text, pre, post; auto|]. auto.
Qed.

Lemma locator_result_shape_witness :
  let ed := Demo.editor_with "see ![shot](HTTPS://example.org/shot.webp 'x')" in
  let r := {| link := lit "HTTPS://example.org/shot.webp"; Embed.isExternal := true;
              embedType := External;
              embedText := lit "![shot](HTTPS://example.org/shot.webp 'x')" |} in
  findRelevantImageEmbed ed = Some r
  /\ startsWith (lit "![") (embedText r) = true
  /\ includes_cu 32 (link r) = false
  /\ toLowerCase (firstn 8 (link r)) = lit "https://".
Proof.
  intros ed r.
  assert (H : findRelevantImageEmbed ed = Some r) by reflexivity.
  split; [exact H|].
  destruct (locator_result_shape ed r H) as (_ & Hbang & Hlink & _).
  split; [exact Hbang|]. split; [exact Hlink | reflexivity].
Defined.

(* ===================================================================== *)
(** * Replacing the selection                                             *)
(* ===================================================================== *)

Section Replaces.
Variable R : jsstr -> Prop.
Variables (w : World) (sv : Services) (settings : Settings).

Lemma fetch_replaces url : only (replaces R) (fetchExternalImageAsArrayBuffer w url).
Proof. unfold fetchExternalImageAsArrayBuffer. quiet_steps. Qed.

Lemma theProvider_replaces : only (replaces R) (theProvider sv settings).
Proof. unfold theProvider, getProvider. quiet_steps. Qed.

Lemma callExtract_replaces pv b64 : only (replaces R) (callExtract sv pv b64).
Proof. unfold callExtract. quiet_steps. Qed.

Lemma handle_replaces c ed ctx : only (replaces R) (handle sv settings c ed ctx).
Proof. unfold handle. quiet_steps. Qed.

Lemma ocrFailed_replaces e : only (replaces R) (ocrFailed e).
Proof. unfold ocrFailed. quiet_steps. Qed.

Lemma extractPages_replaces pv pages : forall i total acc,
  only (replaces R) (extractPages sv pv pages i total acc).
Proof.
  induction pages as [|page rest IH]; intros i total acc; cbn [extractPages].
  - quiet_steps.
  - quiet_step; [quiet_steps|]. quiet_step; [apply callExtract_replaces|]. apply IH.
Qed.

Lemma renderLoop_replaces doc scale ptp : forall count p acc,
  only (replaces R) (renderLoop doc scale ptp count p acc).
Proof.
  induction count as [|n IH]; intros p acc; cbn [renderLoop].
  - quiet_steps.
  - quiet_step; [unfold renderOne; quiet_steps | apply IH].
Qed.

Lemma convertPdfToImages_replaces buffer scale maxPages :
  only (replaces R) (convertPdfToImages w buffer scale maxPages).
Proof.
  unfold convertPdfToImages.
  quiet_step; [quiet_steps|]. quiet_step.
  - quiet_steps.
  - quiet_step; [quiet_steps|]. apply renderLoop_replaces.
Qed.

Lemma processPdfFile_replaces buffer l :
  only (replaces R) (processPdfFile w sv settings buffer l).
Proof.
  unfold processPdfFile.
  quiet_step; [quiet_steps|]. quiet_step; [quiet_steps|]. quiet_step.
  - quiet_step; [apply convertPdfToImages_replaces|].
    quiet_step; [quiet_steps|].
    quiet_step; [apply theProvider_replaces|].
    quiet_step; [quiet_steps|].
    quiet_step; [apply extractPages_replaces|].
    quiet_step; [quiet_steps|].
    quiet_step; [quiet_steps|].
    quiet_step; [apply handle_replaces|]. quiet_steps.
  - quiet_steps.
Qed.

Lemma loadEmbed_replaces e ctxFile : only (replaces R) (loadEmbed w e ctxFile).
Proof.
  unfold loadEmbed. quiet_step.
  - destruct (Embed.isExternal e).
    + quiet_step; [|quiet_steps]. quiet_step.
      * quiet_step; [apply fetch_replaces|quiet_steps].
      * quiet_steps.
    + quiet_steps.
  - quiet_steps.
Qed.

Lemma locateEmbed_replaces ed ctxFile : only (replaces R) (locateEmbed sv ed ctxFile).
Proof. unfold locateEmbed. quiet_steps. Qed.
End Replaces.

Lemma self_infix {A} (s pre post : list A) : s = pre ++ s ++ post -> pre = [] /\ post = [].
Proof.
  intros H. apply (f_equal (@List.length A)) in H. rewrite !List.length_app in H.
  split; apply List.length_zero_iff_nil; lia.
Qed.

(** A lazy star stops at the first place from which the rest of the
    pattern matches. *)
Lemma star_lazy_first {A} p st (k : mstate -> option A) a :
  forall s n, star_lazy p st n s k = Some a ->
  exists s1 rest,
    s = s1 ++ rest /\ forallb p s1 = true
    /\ k (advance st (n + List.length s1) rest) = Some a
    /\ forall u x v, s1 = u ++ x :: v ->
                     k (advance st (n + List.length u) (x :: v ++ rest)) = None.
Proof.
  induction s as [|c t IH]; intros n H; rewrite star_lazy_unfold in H.
  - destruct (k (advance st n [])) eqn:Hk; [|discriminate].
    inversion H; subst. exists [], []. cbn [app forallb List.length].
    rewrite Nat.add_0_r. repeat split; auto.
    intros u x v Hu. destruct u; discriminate.
  - destruct (k (advance st n (c :: t))) eqn:Hk.
    + inversion H; subst. exists [], (c :: t). cbn [app forallb List.length].
      rewrite Nat.add_0_r. repeat split; auto.
      intros u x v Hu. destruct u; discriminate.
    + destruct (p c) eqn:Hp; [|discriminate].
      destruct (IH _ H) as (s1 & rest & -> & Hall & Hk' & Hmin).
      exists (c :: s1), rest. cbn [app forallb List.length]. rewrite Hp, Hall.
      replace (n + S (List.length s1)) with (S n + List.length s1) by lia.
      repeat split; auto.
      intros u x v Hu. destruct u as [|y u]; cbn [app] in Hu; inversion Hu; subst.
      * cbn [List.length]. rewrite Nat.add_0_r. exact Hk.
      * cbn [List.length].
        replace (n + S (List.length u)) with (S n + List.length u) by lia.
        apply Hmin. reflexivity.
Qed.

(** A match that begins the text is the match at index 0. *)
Lemma search_at_start ic r s m :
  search ic r s = Some m -> r_index m = 0 -> match_at ic r 0 s = Some m.
Proof.
  unfold search. intros H Hi. destruct s as [|c t]; cbn [search_from] in H.
  - destruct (match_at ic r 0 []); [exact H|discriminate].
  - destruct (match_at ic r 0 (c :: t)); [exact H|].
    apply search_from_sound in H. destruct H as (pre & _ & Hidx & _). lia.
Qed.

Lemma startsWith_more p : forall s more,
  startsWith p s = true -> startsWith p (s ++ more) = true.
Proof.
  induction p as [|x p IH]; intros [|y s] more H; simpl in *; auto; try discriminate.
  apply andb_prop in H. destruct H as [-> H]. simpl. auto.
Qed.

Lemma find_here p r : find p (p ++ r) = Some ([], r).
Proof.
  destruct (p ++ r) as [|c t] eqn:Hs.
  - destruct p; [|discriminate]. cbn [app] in Hs. subst r. reflexivity.
  - cbn [find]. rewrite <- Hs, startsWith_app. f_equal. f_equal.
    rewrite List.skipn_app, List.skipn_all, Nat.sub_diag. reflexivity.
Qed.

(** [p] occurs in [s ++ p] at the end first when it begins at no place of
    [s]. *)
Lemma find_at_end p : forall s,
  (forall u x v, s = u ++ x :: v -> startsWith p (x :: v ++ p) = false) ->
  find p (s ++ p) = Some (s, []).
Proof.
  induction s as [|c s IH]; intros H.
  - pose proof (find_here p []) as Hf. now rewrite List.app_nil_r in Hf.
  - cbn [app find]. rewrite (H [] c s eq_refl). rewrite IH; [reflexivity|].
    intros u x v Hs. apply (H (c :: u) x v). now rewrite Hs.
Qed.

Lemma firstn_whole {A} n (s more : list A) :
  firstn n (s ++ more) = s ++ more -> List.length s <= n -> n <= List.length s ->
  more = [].
Proof.
  intros H H1 H2. apply (f_equal (@List.length A)) in H.
  rewrite List.length_firstn, List.length_app in H.
  apply List.length_zero_iff_nil. lia.
Qed.

(** The selection matched as a whole by [![[...]]]. *)
Lemma selInternal_exact sel m :
  match_at false selInternal 0 sel = Some m -> r_text m = sel ->
  exists mid,
    forallb dot mid = true /\ sel = lit "![[" ++ mid ++ lit "]]"
    /\ find (lit "]]") (mid ++ lit "]]") = Some (mid, []).
Proof.
  unfold match_at.
  destruct (rmatch false selInternal (MState 0 sel []) Some) as [st|] eqn:H; [|discriminate].
  intros Hm Htext. inversion Hm; subst m; clear Hm. cbn [r_text] in Htext.
  change selInternal
    with (RSeq (rlit (lit "![[")) (RSeq (RStarL dot) (RSeq (rlit (lit "]]")) REps))) in H.
  rewrite rmatch_seq, rmatch_rlit in H. cbn [m_rest] in H.
  destruct (startsWith (lit "![[") sel) eqn:Hw; [|discriminate].
  apply startsWith_split in Hw.
  remember (skipn (List.length (lit "![[")) sel) as rest0 eqn:Hr0. clear Hr0.
  rewrite rmatch_seq in H. cbn [rmatch m_rest advance] in H.
  apply star_lazy_first in H. destruct H as (mid & rest & -> & Hdot & Hk & Hmin).
  rewrite rmatch_rlit in Hk. cbn [m_rest advance] in Hk.
  destruct (startsWith (lit "]]") rest) eqn:Hw2; [|discriminate].
  apply startsWith_split in Hw2.
  remember (skipn (List.length (lit "]]")) rest) as after eqn:Ha. clear Ha.
  inversion Hk; subst st; clear Hk. cbn [m_pos advance] in Htext.
  subst rest sel.
  assert (Hafter : after = []).
  { apply (firstn_whole (0 + List.length (lit "![[") + (0 + List.length mid)
                         + List.length (lit "]]") - 0)
             (lit "![[" ++ mid ++ lit "]]") after).
    - rewrite <- !List.app_assoc. exact Htext.
    - rewrite !List.length_app. lia.
    - rewrite !List.length_app. lia. }
  subst after. rewrite List.app_nil_r in *.
  exists mid. repeat split; auto.
  apply find_at_end. intros u x v Hu.
  specialize (Hmin u x v Hu). rewrite rmatch_rlit in Hmin. cbn [m_rest advance] in Hmin.
  destruct (startsWith (lit "]]") (x :: v ++ lit "]]")); [discriminate|reflexivity].
Qed.

(** The selection matched as a whole by [![...](...)]. *)
Lemma selMarkdown_exact sel m :
  match_at false selMarkdown 0 sel = Some m -> r_text m = sel ->
  exists alt target,
    forallb dot alt = true /\ forallb dot target = true
    /\ sel = lit "![" ++ alt ++ lit "](" ++ target ++ lit ")"
    /\ find (lit "](") (alt ++ lit "](") = Some (alt, [])
    /\ includes_cu 41 target = false.
Proof.
  unfold match_at.
  destruct (rmatch false selMarkdown (MState 0 sel []) Some) as [st|] eqn:H; [|discriminate].
  intros Hm Htext. inversion Hm; subst m; clear Hm. cbn [r_text] in Htext.
  change selMarkdown
    with (RSeq (rlit (lit "!["))
            (RSeq (RStarL dot)
               (RSeq (rlit (lit "]("))
                  (RSeq (RStarL dot) (RSeq (rlit (lit ")")) REps))))) in H.
  rewrite rmatch_seq, rmatch_rlit in H. cbn [m_rest] in H.
  destruct (startsWith (lit "![") sel) eqn:Hw; [|discriminate].
  apply startsWith_split in Hw.
  remember (skipn (List.length (lit "![")) sel) as rest0 eqn:Hr0. clear Hr0.
  rewrite rmatch_seq in H. cbn [rmatch m_rest advance] in H.
  apply star_lazy_first in H. destruct H as (alt & rest & -> & Hdot & Hk & Hmin).
  rewrite rmatch_rlit in Hk. cbn [m_rest advance] in Hk.
  destruct (startsWith (lit "](") rest) eqn:Hw2; [|discriminate].
  apply startsWith_split in Hw2.
  remember (skipn (List.length (lit "](")) rest) as rest1 eqn:Hr1. clear Hr1.
  apply star_lazy_first in Hk. destruct Hk as (target & rest2 & -> & Hdot2 & Hk2 & Hmin2).
  rewrite rmatch_rlit in Hk2. cbn [m_rest advance] in Hk2.
  destruct (startsWith (lit ")") rest2) eqn:Hw3; [|discriminate].
  apply startsWith_split in Hw3.
  remember (skipn (List.length (lit ")")) rest2) as after eqn:Ha. clear Ha.
  inversion Hk2; subst st; clear Hk2. cbn [m_pos advance] in Htext.
  subst rest2 rest sel.
  assert (Hafter : after = []).
  { apply (firstn_whole (0 + List.length (lit "![") + (0 + List.length alt)
                         + List.length (lit "](") + (0 + List.length target)
                         + List.length (lit ")") - 0)
             (lit "![" ++ alt ++ lit "](" ++ target ++ lit ")") after).
    - rewrite <- !List.app_assoc. exact Htext.
    - rewrite !List.length_app. lia.
    - rewrite !List.length_app. lia. }
  subst after. rewrite List.app_nil_r in *.
  assert (Hclose : includes_cu 41 target = false).
  { apply includes_cu_false. intros Hin. apply List.in_split in Hin.
    destruct Hin as (u & v & Hu). specialize (Hmin2 u 41%N v Hu).
    rewrite rmatch_rlit in Hmin2. cbn [m_rest advance] in Hmin2.
    cbn in Hmin2. discriminate. }
  exists alt, target. repeat split; auto.
  apply find_at_end. intros u x v Hu.
  destruct (startsWith (lit "](") (x :: v ++ lit "](")) eqn:Hs; [exfalso|reflexivity].
  specialize (Hmin u x v Hu).
  rewrite rmatch_rlit in Hmin. cbn [m_rest advance] in Hmin.
  assert (Hs' : startsWith (lit "](") (x :: v ++ lit "](" ++ target ++ lit ")") = true).
  { change (x :: v ++ lit "](" ++ target ++ lit ")")
      with ((x :: v) ++ lit "](" ++ target ++ lit ")").
    rewrite List.app_assoc. apply startsWith_more. exact Hs. }
  rewrite Hs' in Hmin.
  assert (Hdots : forallb dot ((x :: v) ++ lit "](" ++ target) = true).
  { rewrite Hu, forallb_app in Hdot. apply andb_prop in Hdot. destruct Hdot as [_ Hxv].
    rewrite !forallb_app, Hxv, Hdot2. reflexivity. }
  assert (Hsplit : skipn (List.length (lit "](")) (x :: v ++ lit "](" ++ target ++ lit ")")
                   = skipn 2 ((x :: v) ++ lit "](" ++ target) ++ lit ")").
  { change (x :: v ++ lit "](" ++ target ++ lit ")")
      with ((x :: v) ++ lit "](" ++ target ++ lit ")").
    rewrite (List.app_assoc (x :: v)), (List.app_assoc (_ ++ _) target).
    rewrite <- (List.app_assoc (x :: v)).
    rewrite List.skipn_app.
    replace (List.length (lit "](") - List.length ((x :: v) ++ lit "](" ++ target))
      with 0; [reflexivity|].
    rewrite !List.length_app. cbn [List.length]. cbn. lia. }
  rewrite Hsplit in Hmin.
  revert Hmin. apply star_lazy_complete.
  - clear -Hdots. revert Hdots. generalize ((x :: v) ++ lit "](" ++ target). intros l Hl.
    rewrite <- (List.firstn_skipn 2 l), forallb_app in Hl.
    apply andb_prop in Hl. tauto.
  - rewrite rmatch_rlit. cbn. discriminate.
Qed.

(** No [![[...]]] on one line where the first pattern finds none. *)
Lemma selInternal_none sel :
  search false selInternal sel = None ->
  forall pre mid post,
    forallb dot mid = true -> sel <> pre ++ lit "![[" ++ mid ++ lit "]]" ++ post.
Proof.
  intros Hnone pre mid post Hdot Hsel.
  assert (Hsome : search false selInternal sel <> None).
  { unfold search. apply search_from_spec.
    exists pre, (lit "![[" ++ mid ++ lit "]]"), post. split.
    - rewrite Hsel, <- !List.app_assoc. reflexivity.
    - unfold selInternal, rseq. cbn [fold_right Matches].
      exists (lit "![["), (mid ++ lit "]]"). split; [reflexivity|].
      split; [apply Matches_rlit, lit_eq_exact; reflexivity|].
      exists mid, (lit "]]"). split; [reflexivity|]. split; [exact Hdot|].
      exists (lit "]]"), []. split; [now rewrite List.app_nil_r|].
      split; [apply Matches_rlit, lit_eq_exact; reflexivity | reflexivity]. }
  congruence.
Qed.

Lemma exact_selection_shape sel m :
  selectionEmbedMatch sel = Some m -> str_eqb sel (r_text m) = true ->
  exactly_an_embed sel.
Proof.
  intros Hm Heq. apply str_eqb_eq in Heq. symmetry in Heq.
  assert (Hstart : forall r, search false r sel = Some m -> match_at false r 0 sel = Some m).
  { intros r Hs. apply search_at_start; auto.
    destruct (search_sound _ _ _ _ Hs) as (pre & Hd & Hi & _).
    rewrite Heq in Hd. apply self_infix in Hd. destruct Hd as [-> _]. exact Hi. }
  unfold selectionEmbedMatch in Hm.
  destruct (search false selInternal sel) as [m0|] eqn:Hi.
  - inversion Hm; subst m0; clear Hm. left.
    apply (selInternal_exact sel m); auto.
  - right. destruct (selMarkdown_exact sel m (Hstart _ Hm) Heq)
      as (alt & target & Ha & Ht & Hsel & Hfind & Hclose).
    exists alt, target. repeat split; auto.
    apply selInternal_none. exact Hi.
Qed.

Lemma truthy_nonempty c t : truthy c = Some t -> t <> [].
Proof. destruct c as [[|x s]|]; simpl; intros H; inversion H; discriminate. Qed.

Lemma embeddedImageOcr_replaces w sv settings ed ctxFile e buffer :
  only (replaces (fun t => t <> [] /\ exactly_an_embed (getSelection ed)))
    (embeddedImageOcr w sv settings ed ctxFile e buffer).
Proof.
  unfold embeddedImageOcr, getImageDimensionsFromArrayBuffer.
  quiet_step; [quiet_steps|]. quiet_step; [quiet_steps|].
  quiet_step; [apply theProvider_replaces|]. quiet_step; [quiet_steps|].
  quiet_step; [|apply ocrFailed_replaces].
  quiet_step; [apply callExtract_replaces|]. quiet_step; [quiet_steps|].
  destruct (truthy _) as [text|] eqn:Ht; [|quiet_steps].
  destruct (selectionEmbedMatch _) as [m|] eqn:Hm.
  - destruct (str_eqb _ _) eqn:Heq.
    + apply only_emit. split.
      * eapply truthy_nonempty; eauto.
      * eapply exact_selection_shape; eauto.
    + quiet_step; [apply handle_replaces|quiet_steps].
  - quiet_step; [apply handle_replaces|quiet_steps].
Qed.

(** X16.  The embedded-image command itself calls
    [editor.replaceSelection] only with a non-empty text, and only when the
    selection is exactly one embed on one line: [![[mid]]] whose first
    []]] is the closing one, or, in a selection without any [![[...]]],
    [![alt](target)] whose first [](] follows [alt] and whose target holds
    no [)].  What the formatter does with the editor that it is handed in
    the other cases is not part of this property. *)
Theorem selection_replaced_only_when_exact (w : World) (sv : Services)
    (settings : Settings) (ed : Editor) (ctxFile : option jsstr) (text : jsstr) :
  In (EvReplaceSelection text)
     (trace (extractTextFromEmbeddedImage w sv settings ed ctxFile)) ->
  text <> [] /\ exactly_an_embed (getSelection ed).
Proof.
  intros Hin.
  assert (Ho : only (replaces (fun t => t <> [] /\ exactly_an_embed (getSelection ed)))
                 (extractTextFromEmbeddedImage w sv settings ed ctxFile)).
  { unfold extractTextFromEmbeddedImage.
    quiet_step; [quiet_steps|].
    quiet_step; [apply locateEmbed_replaces|].
    quiet_step; [|quiet_steps].
    quiet_step; [apply loadEmbed_replaces|].
    quiet_step; [|quiet_steps].
    destruct (isPdfFile _ || isPdfBuffer _).
    - apply processPdfFile_replaces.
    - apply embeddedImageOcr_replaces. }
  unfold only in Ho. rewrite List.Forall_forall in Ho. apply (Ho _ Hin).
Qed.

Lemma selection_replaced_only_when_exact_witness :
  lit "Hello world" <> [] /\ exactly_an_embed (lit "![[diagram.png]]").
Proof.
  apply (selection_replaced_only_when_exact Demo.world Demo.services DEFAULT_SETTINGS
           (diagram_selection 0 (fun _ => [])) None (lit "Hello world")).
  vm_compute. repeat (first [left; reflexivity | right]).
Defined.

(* ===================================================================== *)
(** * Commands that stop early                                            *)
(* ===================================================================== *)

Ltac read_all :=
  repeat (progress (rewrite ?provider_inputs_app, ?handled_app, ?shown_app,
                      ?parsed_buffers_app, ?document_effects_app;
                    cbn [app provider_inputs handled shown parsed_buffers
                         document_effects])).

Lemma fetch_trace_plain w url :
  provider_inputs (trace (fetchExternalImageAsArrayBuffer w url)) = []
  /\ document_effects (trace (fetchExternalImageAsArrayBuffer w url)) = []
  /\ parsed_buffers (trace (fetchExternalImageAsArrayBuffer w url)) = [].
Proof.
  unfold fetchExternalImageAsArrayBuffer.
  unfold pluginLogger, pluginLog, emit, lift, throw, ret, bind, try_catch, trace.
  destruct (requestUrl w url) as [resp|e]; cbn [fst snd app]; auto.
  destruct (arrayBuffer resp) as [body|]; destruct (status resp =? 200)%N;
    cbn [fst snd app]; auto.
Qed.

(** X17.  How the embedded-image command ends when the bytes of the
    located embed cannot be had.  An external link whose fetch fails: the
    command returns, and after the visible lines of the fetch comes the
    notice [Could not read image data.].  An internal link that resolves
    to no file: the command returns, and its only visible log line is the
    notice [Image file not found in vault.].  An internal link whose file
    is found but cannot be read: the error of the read leaves the command,
    which logs no visible line.  In all three cases nothing is parsed,
    nothing is sent to the provider and the document is left alone. *)
Theorem unreadable_embed_reported (w : World) (sv : Services) (settings : Settings)
    (ed : Editor) (ctxFile : option jsstr) (e : EmbedResult) :
  result (locateEmbed sv ed ctxFile) = Ret (Some e) ->
  let run := extractTextFromEmbeddedImage w sv settings ed ctxFile in
  let untouched :=
    provider_inputs (trace run) = [] /\ document_effects (trace run) = []
    /\ parsed_buffers (trace run) = [] in
  if Embed.isExternal e then
    fetched w (link e) = None ->
    untouched /\ result run = Ret tt
    /\ shown (trace run)
       = shown (trace (fetchExternalImageAsArrayBuffer w (link e)))
         ++ [(lit "Could not read image data.", LvNotice)]
  else
    match getFirstLinkpathDest w (link e) (nullish ctxFile []) with
    | None =>
        untouched /\ result run = Ret tt
        /\ shown (trace run) = [(lit "Image file not found in vault.", LvNotice)]
    | Some f =>
        forall err, readBinary w f = Throw err ->
                    untouched /\ result run = Throw err /\ shown (trace run) = []
    end.
Proof.
  intros Hloc run untouched. subst untouched run.
  unfold extractTextFromEmbeddedImage.
  assert (Hl : locateEmbed sv ed ctxFile = ([], Ret (Some e))).
  { rewrite (run_eta (locateEmbed sv ed ctxFile)), Hloc. f_equal.
    unfold locateEmbed. destruct (findRelevantImageEmbed ed); [reflexivity|].
    destruct (findImageEmbedFromCache sv ctxFile); reflexivity. }
  rewrite Hl. unfold loadEmbed. run_pairs.
  destruct (Embed.isExternal e).
  - intros Hfail. pose proof (fetch_result w (link e)) as Hr. rewrite Hfail in Hr.
    destruct (fetch_trace_plain w (link e)) as (Hi & Hd & Hp).
    destruct (fetchExternalImageAsArrayBuffer w (link e)) as [trf orf].
    cbn [trace result fst snd] in Hr, Hi, Hd, Hp. subst orf.
    run_pairs. read_all. rewrite Hi, Hd, Hp. rewrite ?List.app_nil_r. auto.
  - destruct (getFirstLinkpathDest w (link e) (nullish ctxFile [])) as [f|].
    + intros err Herr. rewrite Herr. run_pairs. auto.
    + run_pairs. auto.
Qed.

Lemma unreadable_embed_reported_witness :
  let ed := Demo.editor_with "![shot](https://example.org/shot.png)" in
  let run := extractTextFromEmbeddedImage Demo.world Demo.services DEFAULT_SETTINGS ed None in
  let run' := extractTextFromEmbeddedImage Demo.unreadable_world Demo.services
                DEFAULT_SETTINGS (diagram_selection 0 (fun _ => [])) None in
  ((provider_inputs (trace run) = [] /\ document_effects (trace run) = []
    /\ parsed_buffers (trace run) = [])
   /\ result run = Ret tt
   /\ shown (trace run)
      = [(lit "Failed to fetch image: Error: offline", LvError);
         (lit "Failed to fetch image.", LvNotice);
         (lit "Could not read image data.", LvNotice)])
  /\ ((provider_inputs (trace run') = [] /\ document_effects (trace run') = []
       /\ parsed_buffers (trace run') = [])
      /\ result run' = Throw (Error (lit "EACCES: permission denied"))
      /\ shown (trace run') = []).
Proof.
  split.
  - apply (unreadable_embed_reported Demo.world Demo.services DEFAULT_SETTINGS
             (Demo.editor_with "![shot](https://example.org/shot.png)") None
             {| link := lit "https://example.org/shot.png"; Embed.isExternal := true;
                embedType := External;
                embedText := lit "![shot](https://example.org/shot.png)" |});
      reflexivity.
  - apply (unreadable_embed_reported Demo.unreadable_world Demo.services DEFAULT_SETTINGS
             (diagram_selection 0 (fun _ => [])) None diagram_embed eq_refl
             (Error (lit "EACCES: permission denied"))).
    reflexivity.
Defined.

(** X18.  With a provider identifier that is neither enumerated nor a
    property name of [Object.prototype], the image command throws
    [Unknown provider] before anything is shown or sent to the provider:
    the error leaves the command.  In [processPdfFile] the same error is
    caught and shown as a failure to process the PDF. *)
Theorem unknown_provider_stops_commands (w : World) (sv : Services) (settings : Settings) :
  ~ In (provider settings) provider_ids ->
  object_prototype !! provider settings = None ->
  (forall f activeEditor,
     let run := extractTextFromImage w sv settings (Some f) activeEditor in
     result run = Throw (Error (lit "Unknown provider"))
     /\ shown (trace run) = [] /\ provider_inputs (trace run) = []
     /\ handled (trace run) = [])
  /\ (forall buffer l first rest,
        result (convertPdfToImages w buffer (nullish (pdfScale settings) 2%Q)
                  (nullish (pdfMaxPages settings) 50%Z)) = Ret (first :: rest) ->
        let run := processPdfFile w sv settings buffer l in
        result run = Ret tt
        /\ shown (trace run)
           = shown (trace (convertPdfToImages w buffer (nullish (pdfScale settings) 2%Q)
                             (nullish (pdfMaxPages settings) 50%Z)))
             ++ [(lit "Failed to process PDF: Error: Unknown provider", LvError);
                 (lit "Failed to process PDF.", LvNotice)]
        /\ provider_inputs (trace run) = [] /\ handled (trace run) = []).
Proof.
  intros Hn Hp.
  assert (Hprov : theProvider sv settings = ([], Throw (Error (lit "Unknown provider")))).
  { unfold theProvider, getProvider, js_get.
    rewrite (factories_unknown _ _ _ Hn), Hp. reflexivity. }
  split.
  - intros f activeEditor run. subst run. unfold extractTextFromImage, selectImageFile.
    run_pairs. rewrite arrayBufferToBase64_ret.
    unfold getImageDimensionsFromArrayBuffer. rewrite Hprov. run_pairs. auto.
  - intros buffer l first rest Hconv run. subst run.
    unfold processPdfFile. cbv zeta. rewrite Hprov.
    pose proof (convertPdfToImages_quiet w buffer (nullish (pdfScale settings) 2%Q)
                  (nullish (pdfMaxPages settings) 50%Z)) as Hq.
    apply quiet_trace in Hq. destruct Hq as (Hqi & Hqh & _).
    destruct (convertPdfToImages w buffer _ _) as [trc oc].
    cbn [trace result fst snd] in Hconv, Hqi, Hqh. subst oc.
    run_pairs. read_all. rewrite Hqi, Hqh. rewrite ?List.app_nil_r. auto.
Qed.

Lemma unknown_provider_stops_commands_witness :
  let settings := Demo.with_provider (lit "azure") DEFAULT_SETTINGS in
  let f := {| f_name := lit "scan.png"; f_type := lit "image/png"; f_size := 8;
              f_bytes := Demo.png_bytes |} in
  let run := extractTextFromImage Demo.world Demo.services settings (Some f) true in
  let pdf := processPdfFile Demo.world Demo.services settings Demo.pdf_bytes
               (lit "paper.pdf") in
  (result run = Throw (Error (lit "Unknown provider"))
   /\ shown (trace run) = [] /\ provider_inputs (trace run) = []
   /\ handled (trace run) = [])
  /\ (result pdf = Ret tt
      /\ shown (trace pdf)
         = [(lit "Failed to render page 2: Error: render failed", LvWarn);
            (lit "Failed to process PDF: Error: Unknown provider", LvError);
            (lit "Failed to process PDF.", LvNotice)]
      /\ provider_inputs (trace pdf) = [] /\ handled (trace pdf) = []).
Proof.
  intros settings f.
  assert (Hid : ~ In (provider settings) provider_ids).
  { vm_compute. intros H.
    repeat (destruct H as [H|H]; [discriminate H|]). exact H. }
  assert (Hproto : object_prototype !! provider settings = None) by reflexivity.
  destruct (unknown_provider_stops_commands Demo.world Demo.services settings Hid Hproto)
    as [Himage Hpdf].
  split; [exact (Himage f true)|].
  apply (Hpdf Demo.pdf_bytes (lit "paper.pdf")
           {| pageNumber := 1; pbase64 := lit "iVBORw0KGgo=";
              pwidth := 1224; pheight := 1584 |}
           [ {| pageNumber := 3; pbase64 := lit "iVBORw0KGgo=";
                pwidth := 1224; pheight := 1584 |} ]).
  reflexivity.
Defined.

(* ===================================================================== *)
(** * The folder command                                                  *)
(* ===================================================================== *)

Lemma mapM_prepareFile w : forall fs,
  exists prepared,
    mapM (prepareFile w) fs = ([], Ret prepared)
    /\ List.map name prepared = List.map f_name fs
    /\ List.map base64 prepared
       = List.map (fun f => b64_encode (List.map fromByte (f_bytes f))) fs.
Proof.
  induction fs as [|f fs IH]; cbn [mapM].
  - exists []. auto.
  - destruct IH as (prepared & Hm & Hn & Hb). rewrite Hm.
    unfold prepareFile, getImageDimensionsFromArrayBuffer.
    rewrite arrayBufferToBase64_ret. run_pairs. cbn [app].
    eexists. split; [reflexivity|]. cbn [List.map name base64]. now rewrite Hn, Hb.
Qed.

(** X19.  The folder command on a folder without a single image file name
    (for instance a folder of PDFs): after the debug lines of the command
    and of the picker the user is shown [No valid images could be
    prepared.], and the command returns; no provider is constructed or
    called and nothing is handed to the formatter. *)
Theorem folder_without_images (w : World) (sv : Services) (settings : Settings)
    (files : list File) :
  (forall f, In f files -> ~ has_extension_in folder_extensions (f_name f)) ->
  extractTextFromImageFolder w sv settings (Some files)
  = ([EvDebug (lit "Command: extract text from image folder");
      EvDebug (lit "Selected folder with " ++ num_to_str (N.of_nat (List.length files))
                 ++ lit " files");
      EvLog (lit "No valid images could be prepared.") LvNotice true],
     Ret tt).
Proof.
  intros Hno.
  assert (He : imageFiles files = []).
  { unfold imageFiles. induction files as [|f fs IH]; cbn [List.filter]; auto.
    destruct (test true folderImageExt (f_name f)) eqn:Ht.
    - exfalso. apply (Hno f); [left; auto|]. now apply folderImage_spec.
    - apply IH. intros g Hg. apply Hno. right. auto. }
  unfold extractTextFromImageFolder, selectFolder. run_pairs. rewrite He. reflexivity.
Qed.

Lemma folder_without_images_witness :
  let paper := {| f_name := lit "paper.pdf"; f_type := lit "application/pdf"; f_size := 8;
                  f_bytes := Demo.pdf_bytes |} in
  extractTextFromImageFolder Demo.world Demo.services DEFAULT_SETTINGS (Some [paper])
  = ([EvDebug (lit "Command: extract text from image folder");
      EvDebug (lit "Selected folder with 1 files");
      EvLog (lit "No valid images could be prepared.") LvNotice true],
     Ret tt).
Proof.
  intros paper.
  apply (folder_without_images Demo.world Demo.services DEFAULT_SETTINGS [paper]).
  intros f [<-|[]] (e & He & Hin).
  vm_compute in He. injection He as <-. vm_compute in Hin.
  repeat (destruct Hin as [Hin|Hin]; [discriminate Hin|]). exact Hin.
Defined.

(** X20.  The per-image loop of the folder command, when the formatter
    returns: the formatter is called once for every image context, in
    order and without an editor; image [i] gets block [i] of an array
    content, undefined content once the blocks run out, and the whole
    content when it is not an array. *)
Theorem per_image_loop_calls (sv : Services) (settings : Settings) (ctx : OCRContext)
    (c : content) (images : list ImageContext) (total : nat) :
  (forall c' ed x, handleExtractedContent sv settings c' ed x = Ret tt) ->
  let run := perImageNotes sv settings ctx c images 0 total in
  result run = Ret tt
  /\ handled (trace run)
     = List.map (fun i => (content_at c i, false)) (seq 0 (List.length images))
  /\ provider_inputs (trace run) = [].
Proof.
  intros Hh. generalize 0 as i. induction images as [|img rest IH]; intros i run; subst run.
  - cbn. auto.
  - cbn [perImageNotes List.length seq List.map]. unfold handle. rewrite Hh.
    specialize (IH (S i)). cbv zeta in IH.
    destruct (perImageNotes sv settings ctx c rest (S i) total) as [tr o].
    cbn [trace result fst snd] in IH. destruct IH as (Hr & Hhd & Hi).
    run_pairs. cbn [app handled provider_inputs]. rewrite Hhd, Hi.
    repeat split; auto.
Qed.

Lemma per_image_loop_calls_witness :
  let img := {| ic_name := lit "scan"; ic_extension := lit "png"; ic_path := lit "scan.png";
                ic_size := 8; ic_mime := lit "image/png"; ic_width := None;
                ic_height := None; ic_base64 := None; ic_file := None |} in
  let ctx := {| c_providerId := lit "openai"; c_providerName := VUndef;
                c_providerType := lit "openai"; c_modelId := VUndef;
                c_modelName := VUndef; c_prompt := []; c_image := None;
                c_images := Some [img; img; img]; c_embed := None; c_pdf := None;
                c_imageIndex := None |} in
  let run := perImageNotes Demo.services DEFAULT_SETTINGS ctx
               (Many [lit "first"; lit "second"]) [img; img; img] 0 3 in
  result run = Ret tt
  /\ handled (trace run)
     = [(One (lit "first"), false); (One (lit "second"), false); (NoContent, false)]
  /\ provider_inputs (trace run) = [].
Proof.
  intros img ctx.
  apply (per_image_loop_calls Demo.services DEFAULT_SETTINGS ctx
           (Many [lit "first"; lit "second"]) [img; img; img] 3).
  intros c' ed x. reflexivity.
Defined.

Section FormatsWith.
Variables (w : World) (sv : Services) (settings : Settings).

Lemma prepareFile_formats b f : only (formats_with b) (prepareFile w f).
Proof. unfold prepareFile, getImageDimensionsFromArrayBuffer. quiet_steps. Qed.

Lemma mapM_formats {A B} b (f : A -> M B) l :
  (forall x, only (formats_with b) (f x)) -> only (formats_with b) (mapM f l).
Proof.
  intros Hf. induction l as [|x t IH]; cbn [mapM]; [quiet_steps|].
  quiet_step; [apply Hf|]. quiet_step; [apply IH|]. quiet_steps.
Qed.

Lemma theProvider_formats b : only (formats_with b) (theProvider sv settings).
Proof. unfold theProvider, getProvider. quiet_steps. Qed.

Lemma callExtract_formats b pv b64 : only (formats_with b) (callExtract sv pv b64).
Proof. unfold callExtract. quiet_steps. Qed.

Lemma handle_formats b c ctx : only (formats_with b) (handle sv settings c b ctx).
Proof.
  unfold handle. apply only_bind; [apply only_emit; reflexivity|]. intros ? ?.
  apply only_lift.
Qed.

Lemma ocrFailed_formats b e : only (formats_with b) (ocrFailed e).
Proof. unfold ocrFailed. quiet_steps. Qed.

Lemma perImageNotes_formats ctx c images : forall i total,
  only (formats_with false) (perImageNotes sv settings ctx c images i total).
Proof.
  induction images as [|img rest IH]; intros i total; cbn [perImageNotes].
  - quiet_steps.
  - quiet_step; [apply handle_formats | apply IH].
Qed.

Lemma extractPages_formats b pv pages : forall i total acc,
  only (formats_with b) (extractPages sv pv pages i total acc).
Proof.
  induction pages as [|page rest IH]; intros i total acc; cbn [extractPages].
  - quiet_steps.
  - quiet_step; [quiet_steps|]. quiet_step; [apply callExtract_formats|]. apply IH.
Qed.

Lemma renderLoop_formats b doc scale ptp : forall count p acc,
  only (formats_with b) (renderLoop doc scale ptp count p acc).
Proof.
  induction count as [|n IH]; intros p acc; cbn [renderLoop].
  - quiet_steps.
  - quiet_step; [unfold renderOne; quiet_steps | apply IH].
Qed.

Lemma convertPdfToImages_formats b buffer scale maxPages :
  only (formats_with b) (convertPdfToImages w buffer scale maxPages).
Proof.
  unfold convertPdfToImages.
  quiet_step; [quiet_steps|]. quiet_step.
  - quiet_steps.
  - quiet_step; [quiet_steps|]. apply renderLoop_formats.
Qed.

Lemma processPdfFile_formats buffer l :
  only (formats_with true) (processPdfFile w sv settings buffer l).
Proof.
  unfold processPdfFile.
  quiet_step; [quiet_steps|]. quiet_step; [quiet_steps|]. quiet_step.
  - quiet_step; [apply convertPdfToImages_formats|].
    quiet_step; [quiet_steps|].
    quiet_step; [apply theProvider_formats|].
    quiet_step; [quiet_steps|].
    quiet_step; [apply extractPages_formats|].
    quiet_step; [quiet_steps|].
    quiet_step; [quiet_steps|].
    quiet_step; [apply handle_formats|]. quiet_steps.
  - quiet_steps.
Qed.

Lemma folder_formats picked :
  only (formats_with false) (extractTextFromImageFolder w sv settings picked).
Proof.
  unfold extractTextFromImageFolder, selectFolder.
  apply only_bind; [quiet_steps|]. intros _ _.
  apply only_bind; [quiet_steps|]. intros [files|] _; [|quiet_steps].
  apply only_bind; [apply mapM_formats; intros; apply prepareFile_formats|].
  intros prepared _. destruct prepared as [|first rest]; [quiet_steps|].
  apply only_bind; [apply theProvider_formats|]. intros pv _.
  apply only_bind; [quiet_steps|]. intros _ _.
  apply only_try; [|intros e; quiet_steps].
  apply only_bind.
  - destruct pv as [p| | |].
    + destruct (hasProcess sv p); [quiet_steps|].
      apply only_bind; [apply callExtract_formats|]. intros; quiet_steps.
    + apply only_bind; [apply callExtract_formats|]. intros; quiet_steps.
    + apply only_bind; [apply callExtract_formats|]. intros; quiet_steps.
    + apply only_bind; [apply callExtract_formats|]. intros; quiet_steps.
  - intros response _. apply only_bind; [quiet_steps|]. intros _ _. cbv zeta.
    apply only_bind; [|intros; quiet_steps].
    destruct (c_images _) as [images|].
    + destruct (_ || _).
      * apply perImageNotes_formats.
      * apply handle_formats.
    + apply handle_formats.
Qed.

Lemma image_formats picked activeEditor :
  only (formats_with activeEditor)
    (extractTextFromImage w sv settings picked activeEditor).
Proof.
  unfold extractTextFromImage, selectImageFile, getImageDimensionsFromArrayBuffer.
  quiet_step; [quiet_steps|].
  apply only_bind; [quiet_steps|]. intros [f|] _; [|quiet_steps].
  quiet_step; [quiet_steps|]. quiet_step; [quiet_steps|].
  quiet_step; [apply theProvider_formats|]. quiet_step; [quiet_steps|].
  quiet_step; [|apply ocrFailed_formats].
  quiet_step; [apply callExtract_formats|]. quiet_step; [quiet_steps|].
  destruct (truthy _); [|quiet_steps].
  quiet_step; [apply handle_formats|quiet_steps].
Qed.
End FormatsWith.

(** X21.  Which command gives the formatter an editor: the folder command
    never does, the PDF path always does, and the image command passes on
    whether an editor is active. *)
Theorem formatter_editor_by_command (w : World) (sv : Services) (settings : Settings) :
  (forall picked,
     List.Forall (formats_with false)
       (trace (extractTextFromImageFolder w sv settings picked)))
  /\ (forall buffer l,
        List.Forall (formats_with true)
          (trace (processPdfFile w sv settings buffer l)))
  /\ (forall picked activeEditor,
        List.Forall (formats_with activeEditor)
          (trace (extractTextFromImage w sv settings picked activeEditor))).
Proof.
  split; [|split].
  - intros picked. apply folder_formats.
  - intros buffer l. apply processPdfFile_formats.
  - intros picked activeEditor. apply image_formats.
Qed.

(* ===================================================================== *)
(** * The provider tables                                                 *)
(* ===================================================================== *)

Lemma In_provider_ids_dec id : {In id provider_ids} + {~ In id provider_ids}.
Proof. apply List.in_dec. apply (List.list_eq_dec N.eq_dec). Qed.

(** X22.  The three tables of provider identifiers agree: the settings
    dropdown offers, and the table of friendly names lists, exactly the
    identifiers that [getProvider] has a factory for, each once; so every
    provider that can be chosen in the settings is constructed. *)
Theorem provider_tables_agree (settings : Settings)
    (fpn : Settings -> jsstr -> option jsstr) (id : jsstr) :
  (In id (List.map fst providerOptions) <-> is_Some (factories settings fpn !! id))
  /\ (In id (List.map fst FRIENDLY_PROVIDER_NAMES)
      <-> is_Some (factories settings fpn !! id))
  /\ NoDup (List.map fst providerOptions)
  /\ (In (provider settings) (List.map fst providerOptions) ->
      exists p, result (getProvider settings fpn) = Ret (Instance p)).
Proof.
  assert (Hf : In id provider_ids <-> is_Some (factories settings fpn !! id)).
  { split.
    - intros Hin.
      assert (Hk : In id (factory_table settings fpn).*1).
      { rewrite factory_keys. unfold provider_ids in Hin. simpl in Hin |- *. tauto. }
      apply List.in_map_iff in Hk. destruct Hk as ([k p] & Hfst & Hp).
      simpl in Hfst. subst k. rewrite (factories_lookup _ _ _ _ Hp). eauto.
    - intros [p Hp]. destruct (In_provider_ids_dec id) as [Hin|Hn]; auto.
      rewrite (factories_unknown _ _ _ Hn) in Hp. discriminate. }
  assert (Ho : forall x, In x (List.map fst providerOptions) <-> In x provider_ids).
  { intros x. unfold providerOptions, provider_ids. simpl. tauto. }
  split; [rewrite Ho; exact Hf|].
  split.
  { rewrite <- Hf. unfold FRIENDLY_PROVIDER_NAMES, provider_ids. simpl. tauto. }
  split.
  { apply (@bool_decide_unpack _ (NoDup_dec _)). vm_compute. exact I. }
  intros Hin. apply Ho in Hin.
  destruct (getProvider_enumerated settings fpn Hin) as (p & Hp & _). eauto.
Qed.

Lemma provider_tables_agree_witness :
  exists p,
    result (getProvider DEFAULT_SETTINGS (friendlyProviderName Demo.services))
    = Ret (Instance p).
Proof.
  apply (proj2 (proj2 (proj2 (provider_tables_agree DEFAULT_SETTINGS
                                (friendlyProviderName Demo.services) [])))).
  vm_compute. repeat (first [left; reflexivity | right]).
Defined.

(* ===================================================================== *)
(** * Collecting references                                               *)
(* ===================================================================== *)

Lemma startsWith_prefix p s : startsWith p s = true <-> exists rest, s = p ++ rest.
Proof.
  split.
  - intros H. exists (skipn (List.length p) s). now apply startsWith_split.
  - intros (rest & ->). apply startsWith_app.
Qed.

Lemma externalRef_spec s :
  test false externalRef s = true
  <-> startsWith (lit "http:") s = true \/ startsWith (lit "https:") s = true
      \/ startsWith (lit "data:") s = true.
Proof.
  rewrite test_spec, !startsWith_prefix. unfold externalRef, rseq. cbn [fold_right].
  set (r := RSeq (RGroup 1 (RAlt (RSeq (rstr "http") (RSeq (ropt (rstr "s")) REps))
                                 (rstr "data")))
              (RSeq (RChar 58) REps)).
  assert (Hw : words r = Some [lit "https:"; lit "http:"; lit "data:"]) by reflexivity.
  split.
  - intros (pre & s1 & rest & -> & HM). cbn [Matches] in HM.
    destruct HM as (sa & sb & -> & (-> & Hp) & HM).
    apply List.length_zero_iff_nil in Hp. subst pre. cbn [app List.length] in *.
    apply (Matches_words false r _ _ _ _ Hw) in HM.
    destruct HM as (w0 & Hin & Hl). apply lit_eq_exact in Hl. subst sb.
    destruct Hin as [<-|[<-|[<-|[]]]]; eauto.
  - assert (Hgo : forall w0, In w0 [lit "https:"; lit "http:"; lit "data:"] ->
                    (exists rest, s = w0 ++ rest) ->
                    exists pre s1 rest,
                      s = pre ++ s1 ++ rest
                      /\ Matches false (RSeq RBegin r) (List.length pre) s1 rest).
    { intros w0 Hin (rest & ->). exists [], w0, rest. split; auto.
      cbn [Matches List.length]. exists [], w0. repeat split; auto.
      apply (Matches_words false r _ _ _ _ Hw). exists w0. split; auto.
      unfold lit_eq. clear. induction w0; constructor; auto.
      unfold char_eq. apply N.eqb_refl. }
    intros [H|[H|H]]; eapply Hgo; eauto; simpl; auto.
Qed.

Lemma extensionWord_spec ext :
  test true extensionWord ext = true <-> holds_extension_word ext.
Proof.
  rewrite test_spec. unfold holds_extension_word.
  assert (Hw : words extensionWord
               = Some (List.map lit ["png"; "jpeg"; "jpg"; "webp"; "gif"; "bmp";
                                     "svg"; "pdf"]%string)) by reflexivity.
  split.
  - intros (pre & s1 & rest & -> & HM).
    apply (Matches_words true extensionWord _ _ _ _ Hw) in HM.
    destruct HM as (w0 & Hin & Hl).
    assert (Hlow : no_upper w0 = true).
    { simpl in Hin. repeat (destruct Hin as [<-|Hin]; [reflexivity|]). destruct Hin. }
    apply lit_eq_lower in Hl; auto. exists pre, s1, rest. split; auto.
    rewrite Hl. simpl in Hin |- *. tauto.
  - intros (pre & w0 & post & -> & Hin). exists pre, w0, post. split; auto.
    apply (Matches_words true extensionWord _ _ _ _ Hw).
    exists (toLowerCase w0). split.
    + simpl in Hin |- *. tauto.
    + apply lit_eq_lower; auto.
      simpl in Hin. repeat (destruct Hin as [<-|Hin]; [reflexivity|]). destruct Hin.
Qed.

Lemma collectOne_result v l :
  result (collectOne v l) = Ret (collected_of v l).
Proof.
  unfold collected_of, collectOne.
  destruct (test false externalRef (trim l)); [reflexivity|].
  destruct (normalizePath v (trim l)) as [path|e]; [|reflexivity].
  run_pairs.
  destruct (getAbstractFileByPath v path) as [[[f ext|]|]|e]; try reflexivity.
  destruct (test true extensionWord ext); reflexivity.
Qed.

Lemma collected_of_shape v l img :
  collected_of v l = Some img -> source img = trim l /\ well_collected v img.
Proof.
  unfold collected_of, collectOne, well_collected.
  destruct (test false externalRef (trim l)) eqn:Hx.
  - cbn. intros H. inversion H; subst img; clear H. cbn [source file Image.isExternal].
    split; auto. split; auto. now apply externalRef_spec.
  - destruct (normalizePath v (trim l)) as [path|e] eqn:Hn; [|cbn; discriminate].
    run_pairs.
    destruct (getAbstractFileByPath v path) as [[[f ext|]|]|e] eqn:Hg;
      try (cbn; discriminate).
    destruct (test true extensionWord ext) eqn:Hext; [|cbn; discriminate].
    cbn. intros H. inversion H; subst img; clear H. cbn [source file Image.isExternal].
    split; auto. exists path, f, ext. repeat split; auto.
    now apply extensionWord_spec.
Qed.

Lemma collectLoop_result v : forall links acc,
  result (collectLoop v links acc) = Ret (acc ++ keep_some (collected_of v) links).
Proof.
  induction links as [|l links IH]; intros acc; cbn [collectLoop keep_some].
  - now rewrite List.app_nil_r.
  - rewrite (result_bind_ret _ _ _ (collectOne_result v l)). rewrite IH.
    destruct (collected_of v l); auto. now rewrite <- List.app_assoc.
Qed.

Lemma keep_some_sublist {A B C} (f : A -> option B) (g : B -> C) (h : A -> C) :
  (forall a b, f a = Some b -> g b = h a) ->
  forall l, sublist (List.map g (keep_some f l)) (List.map h l).
Proof.
  intros Hgh. induction l as [|a l IH]; cbn [keep_some List.map].
  - constructor.
  - destruct (f a) as [b|] eqn:Hf; cbn [List.map].
    + rewrite (Hgh _ _ Hf). now constructor.
    + now constructor.
Qed.

Lemma collectImageReferences_result v imageLinks :
  result (collectImageReferences v imageLinks)
  = Ret (keep_some (collected_of v) imageLinks).
Proof.
  unfold collectImageReferences.
  rewrite (result_bind_ret _ _ tt) by reflexivity.
  rewrite (result_bind_ret _ _ _ (collectLoop_result v imageLinks [])).
  reflexivity.
Qed.

(** X23.  [collectImageReferences] never throws.  The references it
    returns are, in the order of the links, the trimmed links that were
    kept; a kept reference is external, has no file and begins with
    [http:], [https:] or [data:], or it is local and has the vault file
    found at its normalized path, whose extension holds one of the eight
    extension words in any letter case. *)
Theorem collected_references (v : Vault) (imageLinks : list jsstr) :
  exists collected,
    result (collectImageReferences v imageLinks) = Ret collected
    /\ sublist (List.map source collected) (List.map trim imageLinks)
    /\ List.Forall (well_collected v) collected.
Proof.
  exists (keep_some (collected_of v) imageLinks). split; [|split].
  - apply collectImageReferences_result.
  - apply keep_some_sublist. intros l img H. now apply collected_of_shape in H.
  - apply List.Forall_forall. intros img Hin. apply keep_some_In in Hin.
    destruct Hin as (l & _ & Hl). now apply collected_of_shape in Hl.
Qed.

(** X24.  A collected local reference always carries its file handle, so
    its preparation returns null only when reading the file fails: no
    collected reference is dropped for want of a handle. *)
Theorem collected_local_is_prepared (v : Vault) (w : World) (imageLinks : list jsstr)
    (collected : list CollectedImage) (img : CollectedImage) :
  result (collectImageReferences v imageLinks) = Ret collected ->
  In img collected -> Image.isExternal img = false ->
  exists f,
    file img = Some f
    /\ (result (prepareImagePayload w img) = Ret None
        <-> exists e, readBinary w f = Throw e).
Proof.
  intros Hres Hin Hloc.
  rewrite collectImageReferences_result in Hres. inversion Hres; subst collected.
  apply keep_some_In in Hin. destruct Hin as (l & _ & Hl).
  apply collected_of_shape in Hl. destruct Hl as [_ Hwf].
  unfold well_collected in Hwf. rewrite Hloc in Hwf.
  destruct Hwf as (path & f & ext & _ & _ & Hf & _). exists f. split; auto.
  unfold prepareImagePayload. rewrite Hloc, Hf.
  destruct (readBinary w f) as [buffer|e] eqn:Hr.
  - unfold getImageDimensionsFromArrayBuffer. run_pairs.
    rewrite arrayBufferToBase64_ret. run_pairs.
    split; [discriminate|]. intros (e & He). discriminate.
  - run_pairs. split; eauto.
Qed.

Lemma collected_local_is_prepared_witness :
  let f := {| file_name := lit "diagram.png"; file_path := lit "diagram.png" |} in
  let img := {| source := lit "diagram.png"; file := Some f;
                Image.isExternal := false |} in
  exists f',
    file img = Some f'
    /\ (result (prepareImagePayload Demo.world img) = Ret None
        <-> exists e, readBinary Demo.world f' = Throw e).
Proof.
  intros f img.
  apply (collected_local_is_prepared Demo.vault Demo.world
           [lit " diagram.png "; lit "https://example.org/a.png"; lit "notes.txt"]
           [img; {| source := lit "https://example.org/a.png"; file := None;
                    Image.isExternal := true |}]
           img).
  - reflexivity.
  - left. reflexivity.
  - reflexivity.
Defined.

(* ===================================================================== *)
(** * Prepared images                                                     *)
(* ===================================================================== *)

(** X25.  A prepared image keeps the source of its reference, and its MIME
    type is the one of its name.  The name of a local image is the name of
    its file; the name of an external image is the decoded last segment of
    its address, or [image] when that is empty, so it is never empty.  The
    width and the height are both known or both unknown. *)
Theorem prepared_image_fields (w : World) (img : CollectedImage) (p : PreparedImage) :
  result (prepareImagePayload w img) = Ret (Some p) ->
  psource p = source img
  /\ mime p = getImageMimeType (name p)
  /\ (if Image.isExternal img
      then name p <> []
           /\ exists d, decodeURIComponent w (split_last 47 (source img)) = Ret d
                        /\ name p = or_else d (lit "image")
      else exists f, file img = Some f /\ name p = file_name f)
  /\ (width p = None <-> height p = None).
Proof.
  unfold prepareImagePayload, getImageDimensionsFromArrayBuffer.
  destruct (Image.isExternal img).
  - pose proof (fetch_result w (source img)) as Hf.
    destruct (fetchExternalImageAsArrayBuffer w (source img)) as [tr o].
    cbn [result snd] in Hf. subst o.
    destruct (fetched w (source img)) as [buffer|]; [|run_pairs; discriminate].
    destruct (decodeURIComponent w (split_last 47 (source img))) as [d|e] eqn:Hd;
      [|run_pairs; discriminate].
    run_pairs. rewrite arrayBufferToBase64_ret. run_pairs.
    intros H. inversion H; subst p; clear H. cbn [psource mime name width height].
    split; [reflexivity|]. split; [reflexivity|]. split.
    + split; [destruct d; discriminate|].
      exists d. split; reflexivity.
    + destruct (decodeImage w buffer); cbn; split; intros; auto; discriminate.
  - destruct (file img) as [f|]; [|run_pairs; discriminate].
    destruct (readBinary w f) as [buffer|e]; [|run_pairs; discriminate].
    run_pairs. rewrite arrayBufferToBase64_ret. run_pairs.
    intros H. inversion H; subst p; clear H. cbn [psource mime name width height].
    split; [reflexivity|]. split; [reflexivity|]. split; [eauto|].
    destruct (decodeImage w buffer); cbn; split; intros; auto; discriminate.
Qed.

Lemma prepared_image_fields_witness :
  let img := {| source := lit "diagram.png";
                file := Some {| file_name := lit "diagram.png";
                                file_path := lit "diagram.png" |};
                Image.isExternal := false |} in
  let p := {| name := lit "diagram.png"; base64 := lit "iVBORw0KGgo=";
              mime := lit "image/png"; size := 8; width := Some 640%N;
              height := Some 480%N; psource := lit "diagram.png" |} in
  result (prepareImagePayload Demo.world img) = Ret (Some p)
  /\ psource p = source img
  /\ mime p = getImageMimeType (name p)
  /\ (exists f, file img = Some f /\ name p = file_name f)
  /\ (width p = None <-> height p = None).
Proof.
  intros img p.
  assert (H : result (prepareImagePayload Demo.world img) = Ret (Some p)) by reflexivity.
  split; [exact H|]. exact (prepared_image_fields Demo.world img p H).
Defined.

(* ===================================================================== *)
(** * The parts of an embed path                                          *)
(* ===================================================================== *)

Lemma lastIndexOf_from_spec c : forall s i acc,
  (existsb (N.eqb c) s = false /\ lastIndexOf_from c i s acc = acc)
  \/ (exists a b, s = a ++ c :: b /\ existsb (N.eqb c) b = false
                  /\ lastIndexOf_from c i s acc = Some (i + List.length a)).
Proof.
  induction s as [|x t IH]; intros i acc; cbn [lastIndexOf_from existsb].
  - left. auto.
  - destruct (IH (S i) (if (x =? c)%N then Some i else acc)) as [[Hno Heq]|(a & b & Ht & Hb & Heq)].
    + rewrite Heq, Hno, orb_false_r. rewrite (N.eqb_sym c x).
      destruct (N.eqb_spec x c) as [->|Hx].
      * right. exists [], t. cbn [app List.length]. rewrite Nat.add_0_r. auto.
      * left. auto.
    + right. exists (x :: a), b. cbn [app List.length]. rewrite Heq, Ht.
      repeat split; auto; try (f_equal; lia).
Qed.

Lemma lastIndexOf_spec c s :
  match lastIndexOf c s with
  | Some i => exists a b, s = a ++ c :: b /\ List.length a = i
                          /\ existsb (N.eqb c) b = false
  | None => existsb (N.eqb c) s = false
  end.
Proof.
  unfold lastIndexOf.
  destruct (lastIndexOf_from_spec c s 0 None) as [[Hno Heq]|(a & b & Hs & Hb & Heq)];
    rewrite Heq; auto.
  exists a, b. auto.
Qed.

Lemma skipn_app_cons {A} (a : list A) x b : skipn (S (List.length a)) (a ++ x :: b) = b.
Proof.
  replace (S (List.length a)) with (List.length (a ++ [x]))
    by (rewrite List.length_app; simpl; lia).
  replace (a ++ x :: b) with ((a ++ [x]) ++ b) by (now rewrite <- List.app_assoc).
  rewrite List.skipn_app, List.skipn_all, Nat.sub_diag. reflexivity.
Qed.

Lemma firstn_app_exact {A} (a b : list A) : firstn (List.length a) (a ++ b) = a.
Proof.
  rewrite List.firstn_app, Nat.sub_diag, List.firstn_all. cbn [firstn].
  apply List.app_nil_r.
Qed.

(** X26.  [parseEmbedInfo] splits the path it reports into a folder part,
    the name and the extension.  When the last dot comes after the last
    slash, the path is the folder part, the name, a dot and the extension,
    and the extension holds neither a dot nor a slash; otherwise the path
    is the folder part and the name, the name holds no dot and the
    extension is empty.  The name never holds a slash, and the folder part
    is empty or ends with a slash. *)
Theorem parseEmbedInfo_splits_path (embedMarkdown l : jsstr) :
  let r := parseEmbedInfo embedMarkdown l in
  exists dir,
    (dir = [] \/ exists d, dir = d ++ [47%N])
    /\ includes_cu 47 (ei_name r) = false
    /\ ((ei_path r = dir ++ ei_name r ++ [46%N] ++ ei_extension r
         /\ includes_cu 46 (ei_extension r) = false
         /\ includes_cu 47 (ei_extension r) = false)
        \/ (ei_path r = dir ++ ei_name r
            /\ ei_extension r = [] /\ includes_cu 46 (ei_name r) = false)).
Proof.
  intros r. subst r. unfold parseEmbedInfo.
  match goal with
  | |- context [let '(a, u) := ?x in _] => destruct x as [altText url]
  end.
  unfold includes_cu.
  pose proof (lastIndexOf_spec 47 url) as Hsl.
  pose proof (lastIndexOf_spec 46 url) as Hdot.
  destruct (lastIndexOf 46 url) as [d|]; destruct (lastIndexOf 47 url) as [sl|].
  - destruct Hsl as (a2 & b2 & Hs2 & Hl2 & Hn2).
    destruct Hdot as (a1 & b1 & Hs1 & Hl1 & Hn1).
    destruct (Nat.ltb_spec sl d) as [Hlt|Hge].
    + (* the last dot comes after the last slash *)
      assert (Hm : exists m, a1 = a2 ++ 47%N :: m /\ b2 = m ++ 46%N :: b1).
      { rewrite Hs1 in Hs2. apply List.app_eq_app in Hs2.
        destruct Hs2 as (k & [[Ha Hb]|[Ha Hb]]).
        - destruct k as [|x k].
          + rewrite List.app_nil_r in Ha. subst a1. lia.
          + cbn [app] in Hb. inversion Hb; subst x. eauto.
        - subst a2. rewrite List.length_app in Hl2. destruct k as [|x k].
          + lia.
          + cbn [List.length] in Hl2. lia. }
      destruct Hm as (m & Ha1 & Hb2).
      assert (Hnm : existsb (N.eqb 47) m = false /\ existsb (N.eqb 47) b1 = false).
      { rewrite Hb2, existsb_app in Hn2. cbn [existsb] in Hn2.
        apply orb_false_elim in Hn2. destruct Hn2 as [H1 H2].
        apply orb_false_elim in H2. tauto. }
      cbn [ei_name ei_extension ei_path]. exists (a2 ++ [47%N]).
      assert (Hname : slice (S sl) d url = m).
      { unfold slice. rewrite Hs1, Ha1, <- Hl2.
        replace ((a2 ++ 47%N :: m) ++ 46%N :: b1) with (a2 ++ 47%N :: (m ++ 46%N :: b1))
          by (now rewrite <- List.app_assoc).
        rewrite skipn_app_cons.
        replace (d - S (List.length a2)) with (List.length m).
        - apply firstn_app_exact.
        - rewrite <- Hl1, Ha1, List.length_app. cbn [List.length]. lia. }
      assert (Hext : slice_from (S d) url = b1).
      { unfold slice_from. rewrite Hs1 at 1. rewrite <- Hl1. apply skipn_app_cons. }
      rewrite Hname, Hext. split; [eauto|]. split; [tauto|]. left.
      split; [|tauto]. rewrite Hs1, Ha1. now rewrite <- !List.app_assoc.
    + (* a slash after the last dot *)
      assert (Hm : exists m, b1 = m ++ 47%N :: b2).
      { rewrite Hs1 in Hs2. apply List.app_eq_app in Hs2.
        destruct Hs2 as (k & [[Ha Hb]|[Ha Hb]]).
        - subst a1. rewrite List.length_app in Hl1. destruct k as [|x k].
          + rewrite List.app_nil_r in *. cbn [app] in Hb. inversion Hb.
          + cbn [app] in Hb. inversion Hb; subst x.
            cbn [List.length] in Hl1. lia.
        - destruct k as [|x k].
          + cbn [app] in Hb. inversion Hb.
          + cbn [app] in Hb. inversion Hb; subst x. eauto. }
      destruct Hm as (m & Hb1).
      assert (Hnd : existsb (N.eqb 46) b2 = false).
      { rewrite Hb1, existsb_app in Hn1. cbn [existsb] in Hn1.
        apply orb_false_elim in Hn1. destruct Hn1 as [_ H2].
        apply orb_false_elim in H2. tauto. }
      cbn [ei_name ei_extension ei_path]. exists (a2 ++ [47%N]).
      assert (Hname : slice_from (S sl) url = b2).
      { unfold slice_from. rewrite Hs2 at 1. rewrite <- Hl2. apply skipn_app_cons. }
      rewrite Hname. split; [eauto|]. split; [auto|]. right.
      split; [|auto]. rewrite Hs2 at 1. now rewrite <- List.app_assoc.
  - destruct Hdot as (a1 & b1 & Hs1 & Hl1 & Hn1).
    cbn [ei_name ei_extension ei_path]. exists [].
    assert (Hname : slice 0 d url = a1).
    { unfold slice. cbn [skipn]. rewrite Nat.sub_0_r, Hs1, <- Hl1. apply firstn_app_exact. }
    assert (Hext : slice_from (S d) url = b1).
    { unfold slice_from. rewrite Hs1 at 1. rewrite <- Hl1. apply skipn_app_cons. }
    rewrite Hname, Hext.
    assert (Hno : existsb (N.eqb 47) a1 = false /\ existsb (N.eqb 47) b1 = false).
    { rewrite Hs1, existsb_app in Hsl. cbn [existsb] in Hsl.
      apply orb_false_elim in Hsl. destruct Hsl as [H1 H2].
      apply orb_false_elim in H2. tauto. }
    split; [auto|]. split; [tauto|]. left. split; [|tauto]. exact Hs1.
  - destruct Hsl as (a2 & b2 & Hs2 & Hl2 & Hn2).
    cbn [ei_name ei_extension ei_path]. exists (a2 ++ [47%N]).
    assert (Hname : slice_from (S sl) url = b2).
    { unfold slice_from. rewrite Hs2 at 1. rewrite <- Hl2. apply skipn_app_cons. }
    rewrite Hname.
    assert (Hnd : existsb (N.eqb 46) b2 = false).
    { rewrite Hs2, existsb_app in Hdot. cbn [existsb] in Hdot.
      apply orb_false_elim in Hdot. destruct Hdot as [_ H2].
      apply orb_false_elim in H2. tauto. }
    split; [eauto|]. split; [auto|]. right.
    split; [|auto]. rewrite Hs2 at 1. now rewrite <- List.app_assoc.
  - cbn [ei_name ei_extension ei_path]. exists []. unfold slice_from. cbn [skipn app].
    split; [auto|]. split; [auto|]. right. auto.
Qed.

(* ===================================================================== *)
(** * The instructed format, parsed                                       *)
(* ===================================================================== *)

Lemma startsWith_length p : forall s, startsWith p s = true -> List.length p <= List.length s.
Proof.
  induction p as [|x p IH]; intros [|y s] H; simpl in *; try lia; try discriminate.
  apply andb_prop in H. destruct H as [_ H]. apply IH in H. lia.
Qed.

Lemma startsWith_app_false p : forall s more,
  startsWith p s = false -> List.length p <= List.length s ->
  startsWith p (s ++ more) = false.
Proof.
  induction p as [|x p IH]; intros [|y s] more H Hlen; simpl in *;
    try discriminate; try lia.
  destruct (x =? y)%N; simpl in *; auto. apply IH; auto. lia.
Qed.

Lemma find_length p : forall s a b,
  find p s = Some (a, b) -> List.length p <= List.length s.
Proof.
  intros s a b H. apply find_sound in H. rewrite H, !List.length_app. lia.
Qed.

(** The first occurrence stays the first when text is added at the end. *)
Lemma find_extend p : forall s a b more,
  find p s = Some (a, b) -> find p (s ++ more) = Some (a, b ++ more).
Proof.
  induction s as [|c t IH]; intros a b more H.
  - cbn [find] in H. destruct (startsWith p []) eqn:Hw; [|discriminate].
    inversion H; subst. destruct p; [|discriminate].
    cbn [app]. destruct more; reflexivity.
  - cbn [find] in H. cbn [app find].
    destruct (startsWith p (c :: t)) eqn:Hw.
    + inversion H; subst.
      assert (Hw' : startsWith p ((c :: t) ++ more) = true).
      { apply startsWith_split in Hw. rewrite Hw, <- List.app_assoc. apply startsWith_app. }
      cbn [app] in Hw'. rewrite Hw'. f_equal. f_equal.
      pose proof (startsWith_length _ _ Hw) as Hl.
      change (c :: t ++ more) with ((c :: t) ++ more).
      rewrite List.skipn_app.
      replace (List.length p - List.length (c :: t)) with 0 by lia. reflexivity.
    + destruct (find p t) as [[a0 b0]|] eqn:Hf; [|discriminate].
      inversion H; subst.
      assert (Hw' : startsWith p ((c :: t) ++ more) = false).
      { apply startsWith_app_false; auto. apply find_length in Hf. simpl. lia. }
      cbn [app] in Hw'. rewrite Hw'. now rewrite (IH _ _ more eq_refl).
Qed.

Lemma blocks_after_newline s bs : blocks s bs -> blocks (10%N :: s) bs.
Proof.
  assert (Hf : find BEGIN (10%N :: s)
               = match find BEGIN s with
                 | Some (a, b) => Some (10%N :: a, b)
                 | None => None
                 end) by reflexivity.
  intros H. inversion H as [s0 Hn | s0 pre rest Hb He | s0 pre rest body post bs0 Hb He Hp];
    subst.
  - apply blocks_no_begin. now rewrite Hf, Hn.
  - eapply blocks_no_end; [rewrite Hf, Hb; reflexivity | exact He].
  - eapply blocks_block; [rewrite Hf, Hb; reflexivity | exact He | exact Hp].
Qed.

Lemma blocks_wrapped : forall texts,
  List.Forall delimiter_free texts ->
  blocks (List.concat (List.map wrap_block texts)) (List.map trim texts).
Proof.
  induction 1 as [|t texts Ht Hts IH]; cbn [List.map List.concat].
  - apply blocks_no_begin. reflexivity.
  - unfold wrap_block at 1. rewrite <- !List.app_assoc.
    replace (trim t) with (trim ([10%N] ++ t ++ [10%N]))
      by (apply trim_spaces; reflexivity).
    eapply blocks_block.
    + apply find_here.
    + unfold delimiter_free in Ht.
      apply (find_extend _ _ _ _ ([10%N] ++ List.concat (List.map wrap_block texts))) in Ht.
      rewrite <- !List.app_assoc in Ht. exact Ht.
    + cbn [app]. now apply blocks_after_newline.
Qed.

Lemma batchMatches_blocks response bs : blocks response bs -> batchMatches response = bs.
Proof. intros H. unfold batchMatches, matchAll. apply blocks_matchAll; auto. Qed.

(** X27.  The batch prompt always carries the format instruction, whose
    example is one wrapped block; and a response that follows that format,
    block after block, is parsed into exactly the texts, trimmed and in
    order, whenever no text holds the end delimiter. *)
Theorem instructed_format_round_trip (settings : Settings) (texts : list jsstr) :
  (exists pre post,
     batchPrompt settings = pre ++ wrap_block (lit "<insert OCR text>") ++ post)
  /\ (List.Forall delimiter_free texts ->
      batchMatches (List.concat (List.map wrap_block texts)) = List.map trim texts).
Proof.
  split.
  - unfold batchPrompt.
    exists (or_else (trim (batchCustomPrompt settings)) DEFAULT_BATCH_PROMPT_TEXT
            ++ [10%N] ++ lit "
For each image, wrap the response using the following format:

"),
      (lit "
Repeat this for each image.
").
    rewrite <- !List.app_assoc. reflexivity.
  - intros H. apply batchMatches_blocks. now apply blocks_wrapped.
Qed.

Lemma instructed_format_round_trip_witness :
  batchMatches (wrap_block (lit " first ") ++ wrap_block (lit "second"))
  = [lit "first"; lit "second"].
Proof.
  assert (H : List.Forall delimiter_free [lit " first "; lit "second"]).
  { repeat constructor. }
  pose proof (proj2 (instructed_format_round_trip DEFAULT_SETTINGS
                       [lit " first "; lit "second"]) H) as Hr.
  cbn [List.map List.concat] in Hr. rewrite List.app_nil_r in Hr. exact Hr.
Defined.

(* ===================================================================== *)
(** * The prompt of a provider                                            *)
(* ===================================================================== *)

Lemma trimStart_spaces s : forallb is_space s = true -> trimStart s = [].
Proof.
  induction s as [|x t IH]; simpl; auto. intros H. apply andb_prop in H.
  destruct H as [Hx Ht]. rewrite Hx. auto.
Qed.

Lemma trim_blank s : trim s = [] <-> forallb is_space s = true.
Proof.
  split.
  - intros H. destruct (trim_decomp s) as (w1 & w2 & Hs & H1 & H2).
    rewrite H in Hs. rewrite Hs, !forallb_app, H1, H2. reflexivity.
  - intros H. unfold trim. now rewrite (trimStart_spaces _ H).
Qed.

(** X28.  The prompt that a constructed provider carries is the custom
    prompt, trimmed, unless that is blank (empty or only white space), in
    which case it is the default prompt; so it is never empty and never
    begins or ends with white space. *)
Theorem provider_prompt_never_blank (settings : Settings)
    (fpn : Settings -> jsstr -> option jsstr) :
  In (provider settings) provider_ids ->
  exists p,
    result (getProvider settings fpn) = Ret (Instance p)
    /\ p_prompt p
       = (if forallb is_space (customPrompt settings) then DEFAULT_PROMPT_TEXT
          else trim (customPrompt settings))
    /\ p_prompt p <> [] /\ trim (p_prompt p) = p_prompt p.
Proof.
  intros Hin. destruct (getProvider_enumerated settings fpn Hin) as (p & Hp & Hprompt & _).
  exists p. split; auto. rewrite Hprompt. unfold providerPrompt.
  destruct (forallb is_space (customPrompt settings)) eqn:Hb.
  - apply trim_blank in Hb. rewrite Hb. cbn [or_else].
    split; [reflexivity|]. split; [discriminate|]. vm_compute. reflexivity.
  - assert (Hne : trim (customPrompt settings) <> []).
    { intros H. apply trim_blank in H. congruence. }
    destruct (trim (customPrompt settings)) as [|c t] eqn:Ht; [congruence|].
    cbn [or_else]. split; [reflexivity|]. split; [discriminate|].
    rewrite <- Ht. apply trim_idem.
Qed.

Lemma provider_prompt_never_blank_witness :
  exists p,
    result (getProvider DEFAULT_SETTINGS (friendlyProviderName Demo.services))
    = Ret (Instance p)
    /\ p_prompt p = DEFAULT_PROMPT_TEXT
    /\ p_prompt p <> [] /\ trim (p_prompt p) = p_prompt p.
Proof.
  apply (provider_prompt_never_blank DEFAULT_SETTINGS (friendlyProviderName Demo.services)).
  left. reflexivity.
Defined.

(* ===================================================================== *)
(** * Slashes at the edges                                                *)
(* ===================================================================== *)

(** A greedy star takes a whole run when what follows the run is
    accepted. *)
Lemma star_greedy_take {A} p st (k : mstate -> option A) x : forall a n t,
  forallb p a = true ->
  match t with c :: _ => p c = false | [] => True end ->
  k (advance st (n + List.length a) t) = Some x ->
  star_greedy p st n (a ++ t) k = Some x.
Proof.
  induction a as [|c a IH]; intros n t Ha Ht Hk.
  - cbn [app List.length] in *. rewrite Nat.add_0_r in Hk.
    destruct t as [|c t]; cbn [star_greedy]; auto. now rewrite Ht.
  - cbn [forallb] in Ha. apply andb_prop in Ha. destruct Ha as [Hc Ha].
    cbn [app star_greedy]. rewrite Hc.
    rewrite (IH (S n) t Ha Ht); auto.
    cbn [List.length] in Hk. now replace (S n + List.length a) with (n + S (List.length a)) by lia.
Qed.

Lemma lead_decomp (p : N -> bool) : forall s,
  exists a t, s = a ++ t /\ forallb p a = true
              /\ match t with c :: _ => p c = false | [] => True end.
Proof.
  induction s as [|c s IH].
  - exists [], []. auto.
  - destruct (p c) eqn:Hc.
    + destruct IH as (a & t & -> & Ha & Ht). exists (c :: a), t.
      cbn [forallb app]. rewrite Hc, Ha. auto.
    + exists [], (c :: s). auto.
Qed.

Lemma trail_decomp (p : N -> bool) s :
  exists u z, s = u ++ z /\ forallb p z = true
              /\ match rev u with c :: _ => p c = false | [] => True end.
Proof.
  destruct (lead_decomp p (rev s)) as (a & t & Hs & Ha & Ht).
  exists (rev t), (rev a). split; [|split].
  - rewrite <- List.rev_app_distr, <- Hs. now rewrite List.rev_involutive.
  - now rewrite forallb_rev.
  - now rewrite List.rev_involutive.
Qed.

Abbreviation slash := (N.eqb 47).

Lemma Matches_edgeSlashes pos s1 rest :
  Matches false edgeSlashes pos s1 rest
  <-> s1 <> [] /\ forallb slash s1 = true /\ (pos = 0 \/ rest = []).
Proof.
  unfold edgeSlashes, rseq, rplusG. cbn [fold_right Matches]. split.
  - intros [H|H].
    + destruct H as (sa & sb & -> & (-> & Hp) & sc & sd & -> & (se & sf & -> & (x & -> & Hx) & Hall) & ->).
      cbn [app]. rewrite List.app_nil_r. cbn [forallb]. rewrite Hx, Hall.
      repeat split; auto; try discriminate.
    + destruct H as (sa & sb & -> & (se & sf & -> & (x & -> & Hx) & Hall) & sc & sd & -> & (-> & Hr) & ->).
      cbn [app] in *. rewrite List.app_nil_r. cbn [forallb]. rewrite Hx, Hall.
      repeat split; auto; try discriminate.
  - intros (Hne & Hall & Hor). destruct s1 as [|x s1]; [congruence|].
    cbn [forallb] in Hall. apply andb_prop in Hall. destruct Hall as [Hx Hall].
    destruct Hor as [->| ->].
    + left. exists [], (x :: s1). repeat split; auto.
      exists (x :: s1), []. rewrite List.app_nil_r. repeat split; auto.
      exists [x], s1. repeat split; auto. exists x. auto.
    + right. exists (x :: s1), []. rewrite List.app_nil_r. repeat split; auto.
      * exists [x], s1. repeat split; auto. exists x. auto.
      * exists [], []. auto.
Qed.

Lemma match_at_edge_begin a t :
  a <> [] -> forallb slash a = true ->
  match t with c :: _ => slash c = false | [] => True end ->
  match_at false edgeSlashes 0 (a ++ t) = Some (RMatch 0 a [] t).
Proof.
  intros Hne Ha Ht. destruct a as [|c a]; [congruence|].
  cbn [forallb] in Ha. apply andb_prop in Ha. destruct Ha as [Hc Ha].
  unfold match_at, edgeSlashes, rseq, rplusG. cbn [fold_right rmatch m_pos m_rest app].
  cbn [Nat.eqb]. rewrite Hc.
  rewrite (star_greedy_take slash _ _ (advance (advance (MState 0 (c :: a ++ t) []) 1 (a ++ t))
                                         (0 + List.length a) t) a 0 t Ha Ht); [|reflexivity].
  cbn [advance m_pos m_rest m_caps]. f_equal. f_equal.
  replace (0 + 1 + (0 + List.length a) - 0) with (List.length (c :: a))
    by (cbn [List.length]; lia).
  change (c :: a ++ t) with ((c :: a) ++ t). apply firstn_app_exact.
Qed.

Lemma search_edge_nil pos : search_from false edgeSlashes pos [] = None.
Proof.
  destruct (search_from false edgeSlashes pos []) eqn:H; auto. exfalso.
  assert (Hn : search_from false edgeSlashes pos [] <> None) by congruence.
  apply search_from_spec in Hn. destruct Hn as (pre & s1 & rest & Hs & HM).
  apply Matches_edgeSlashes in HM. destruct HM as (Hne & _).
  destruct pre; [|discriminate]. destruct s1; [congruence|discriminate].
Qed.

Lemma matchAll_edge_nil fuel pos : matchAll_from fuel false edgeSlashes pos [] = [].
Proof. destruct fuel; cbn [matchAll_from]; auto. now rewrite search_edge_nil. Qed.

(** Where no match can begin the text, the only match is the run of
    slashes that ends it. *)
Lemma search_edge_tail pos u z :
  (pos <> 0 \/ match u ++ z with c :: _ => slash c = false | [] => True end) ->
  forallb slash z = true ->
  match rev u with c :: _ => slash c = false | [] => True end ->
  match z with
  | [] => search_from false edgeSlashes pos (u ++ z) = None
  | _ :: _ =>
      exists m, search_from false edgeSlashes pos (u ++ z) = Some m
                /\ r_index m = pos + List.length u /\ r_text m = z /\ r_after m = []
  end.
Proof.
  intros Hstart Hz Hu.
  assert (Halt : forall pre s1 rest,
             u ++ z = pre ++ s1 ++ rest ->
             Matches false edgeSlashes (pos + List.length pre) s1 rest ->
             rest = [] /\ s1 <> [] /\ forallb slash s1 = true).
  { intros pre s1 rest Hd HM. apply Matches_edgeSlashes in HM.
    destruct HM as (Hne & Hall & [H0| ->]); auto.
    exfalso. assert (pos = 0) by lia. assert (pre = []) by (apply List.length_zero_iff_nil; lia).
    subst. destruct Hstart as [H|H]; [congruence|].
    rewrite Hd in H. cbn [app] in H. destruct s1 as [|x s1]; [congruence|].
    cbn [app forallb] in *. apply andb_prop in Hall. destruct Hall as [Hx _]. congruence. }
  assert (Hcut : forall pre s1,
             u ++ z = pre ++ s1 -> forallb slash s1 = true ->
             List.length pre <= List.length u -> pre = u /\ s1 = z).
  { intros pre s1 Hd Hall Hlen. symmetry in Hd. apply List.app_eq_app in Hd.
    destruct Hd as (k & [[Ha Hb]|[Ha Hb]]).
    - subst pre. rewrite List.length_app in Hlen. destruct k; [|cbn in Hlen; lia].
      rewrite List.app_nil_r. cbn [app] in Hb. auto.
    - destruct k as [|x k]; [rewrite List.app_nil_r in Ha; cbn [app] in Hb; auto|].
      exfalso. subst u s1. rewrite List.rev_app_distr in Hu.
      rewrite forallb_app in Hall. apply andb_prop in Hall. destruct Hall as [Hk _].
      rewrite <- forallb_rev in Hk.
      destruct (rev (x :: k)) as [|y l] eqn:Hr.
      + apply (f_equal (@List.length N)) in Hr. rewrite List.length_rev in Hr. discriminate.
      + cbn [app] in Hu. cbn [forallb] in Hk. apply andb_prop in Hk. destruct Hk. congruence. }
  destruct z as [|c z].
  - destruct (search_from false edgeSlashes pos (u ++ [])) as [m|] eqn:Hs; auto. exfalso.
    destruct (search_from_sound _ _ _ _ _ Hs) as (pre & Hd & _ & HM & _).
    destruct (Halt _ _ _ Hd HM) as (Hr & Hne & Hall). rewrite Hr in Hd.
    rewrite (List.app_nil_r (r_text m)) in Hd.
    assert (Hlen : List.length pre <= List.length u).
    { apply (f_equal (@List.length N)) in Hd. rewrite !List.length_app in Hd.
      cbn [List.length] in Hd. lia. }
    destruct (Hcut _ _ Hd Hall Hlen). congruence.
  - assert (Hn : search_from false edgeSlashes pos (u ++ c :: z) <> None).
    { apply search_from_spec. exists u, (c :: z), []. rewrite List.app_nil_r.
      split; auto. apply Matches_edgeSlashes. repeat split; auto; try discriminate. }
    destruct (search_from false edgeSlashes pos (u ++ c :: z)) as [m|] eqn:Hs; [|congruence].
    exists m. split; auto.
    destruct (search_from_sound _ _ _ _ _ Hs) as (pre & Hd & Hi & HM & Hleft).
    destruct (Halt _ _ _ Hd HM) as (Hr & Hne & Hall). rewrite Hr in Hd.
    rewrite (List.app_nil_r (r_text m)) in Hd.
    assert (Hlen : List.length pre <= List.length u).
    { apply (Hleft u (c :: z) []); [now rewrite List.app_nil_r|].
      apply Matches_edgeSlashes. repeat split; auto; try discriminate. }
    destruct (Hcut _ _ Hd Hall Hlen) as [-> Ht]. auto.
Qed.

(** The replacement on a text where no match can begin the text. *)
Lemma replace_edge_tail s pos fuel u z :
  (pos <> 0 \/ match u ++ z with c :: _ => slash c = false | [] => True end) ->
  forallb slash z = true ->
  match rev u with c :: _ => slash c = false | [] => True end ->
  replace_matches [] s pos (u ++ z)
    (matchAll_from (S fuel) false edgeSlashes pos (u ++ z)) = u.
Proof.
  intros Hstart Hz Hu.
  pose proof (search_edge_tail pos u z Hstart Hz Hu) as Hs.
  cbn [matchAll_from]. destruct z as [|c z].
  - rewrite Hs. cbn [replace_matches]. apply List.app_nil_r.
  - destruct Hs as (m & Hs & Hi & Ht & Ha). rewrite Hs, Ht, Ha.
    rewrite matchAll_edge_nil. cbn [replace_matches substitute]. rewrite Hi.
    replace (pos + List.length u - pos) with (List.length u) by lia.
    rewrite firstn_app_exact, ?Ha. cbn [app]. apply List.app_nil_r.
Qed.

Lemma search_from_here ic r pos s m :
  match_at ic r pos s = Some m -> search_from ic r pos s = Some m.
Proof. intros H. destruct s; cbn [search_from]; now rewrite H. Qed.

(** Replacing the slashes at the edges leaves the text between them. *)
Lemma replace_edge_slashes a u z :
  forallb slash a = true -> forallb slash z = true ->
  match u ++ z with c :: _ => slash c = false | [] => True end ->
  match rev u with c :: _ => slash c = false | [] => True end ->
  replace_all false edgeSlashes [] (a ++ u ++ z) = u.
Proof.
  intros Ha Hz Hhead Hu. unfold replace_all, matchAll.
  destruct a as [|c a].
  - cbn [app]. apply replace_edge_tail; auto.
  - cbn [matchAll_from].
    rewrite (search_from_here _ _ _ _ _ (match_at_edge_begin (c :: a) (u ++ z) ltac:(discriminate) Ha Hhead)).
    cbn [r_text r_after r_index replace_matches substitute firstn Nat.sub].
    cbn [app Nat.add].
    destruct (List.length ((c :: a) ++ u ++ z)) as [|fuel] eqn:Hlen; [discriminate|].
    apply replace_edge_tail; auto.
Qed.

(** X29.  [getAttachmentFolderPathForFile]: without a configured folder,
    or with the empty one or [./], the folder of the file itself is
    returned (the empty path for a file without a parent).  Otherwise the
    result is the configured path with its variables filled in, without
    the slashes at its beginning and at its end: it neither begins nor
    ends with a slash. *)
Theorem attachment_folder_has_no_edge_slashes (attachmentPath : option jsstr)
    (basename : jsstr) (parentPath : option jsstr) (today : jsstr) :
  let folder := getAttachmentFolderPathForFile attachmentPath basename parentPath today in
  match attachmentPath with
  | None => folder = match parentPath with Some p => p | None => [] end
  | Some ap =>
      if str_eqb ap [] || str_eqb ap (lit "./")
      then folder = match parentPath with Some p => p | None => [] end
      else
        exists a z,
          replace_all false dateVar today (replace_all false filenameVar basename ap)
          = a ++ folder ++ z
          /\ forallb slash a = true /\ forallb slash z = true
          /\ startsWith [47%N] folder = false
          /\ startsWith [47%N] (rev folder) = false
  end.
Proof.
  intros folder. subst folder. unfold getAttachmentFolderPathForFile.
  destruct attachmentPath as [ap|]; [|reflexivity].
  destruct (str_eqb ap [] || str_eqb ap (lit "./")); [reflexivity|].
  cbv zeta.
  set (expanded := replace_all false dateVar today (replace_all false filenameVar basename ap)).
  destruct (lead_decomp slash expanded) as (a & t & He & Ha & Ht).
  destruct (trail_decomp slash t) as (u & z & Hu & Hz & Hlast).
  subst t. rewrite He, (replace_edge_slashes a u z Ha Hz Ht Hlast).
  exists a, z. repeat split; auto.
  - destruct u as [|c u]; auto. cbn [app] in Ht. cbn [startsWith].
    rewrite Ht. reflexivity.
  - destruct (rev u) as [|c l]; auto. cbn [startsWith]. rewrite Hlast. reflexivity.
Qed.
